(** * Connect 4: the search engine of [ai.py] and the game of [connect4.py]

    A shallow embedding of the Python sources.  The board is the
    [(BOARD_HEIGHT, BOARD_WIDTH)] integer array created by
    [np.zeros((BOARD_HEIGHT, BOARD_WIDTH), dtype=int)]; an array is a list of
    rows, indexing follows Python (a negative index counts from the end, an
    index outside the array raises [IndexError]), and [board.copy()] allocates
    a new array in a store of arrays, which [drop_piece] updates in place. *)

From Stdlib Require Import ZArith List Bool Lia Sorted.
From stdpp Require Import base option list list_numbers.

Local Open Scope Z_scope.

(** ** constants.py *)

Definition BOARD_WIDTH : Z := 7.
Definition BOARD_HEIGHT : Z := 6.
Definition EMPTY : Z := 0.
Definition PLAYER_PIECE : Z := 1.
Definition AI_PIECE : Z := 2.
Definition WINDOW_LENGTH : Z := 4.

(** ** Python values *)

(** [range(n)], [range(a, b)] and [range(a, b, -1)]. *)
Definition range (n : Z) : list Z := seqZ 0 n.
Definition range2 (a b : Z) : list Z := seqZ a (b - a).
Definition range_down (a b : Z) : list Z := (λ k, a - k) <$> seqZ 0 (a - b).

(** [l[i]]: the position a Python index denotes, if any. *)
Definition norm_index {A} (l : list A) (i : Z) : option nat :=
  let n := Z.of_nat (length l) in
  if 0 <=? i then (if i <? n then Some (Z.to_nat i) else None)
  else if - n <=? i then Some (Z.to_nat (i + n)) else None.

Definition index {A} (l : list A) (i : Z) : option A :=
  k ← norm_index l i; l !! k.

(** A two-dimensional integer array, row by row. *)
Abbreviation ndarray := (list (list Z)).

(** [board[row][col]]; [None] is [IndexError]. *)
Definition getitem (board : ndarray) (row col : Z) : option Z :=
  r ← index board row; index r col.

(** [board[row][col] = piece] on the array's contents. *)
Definition setitem (board : ndarray) (row col piece : Z) : option ndarray :=
  i ← norm_index board row;
  r ← board !! i;
  j ← norm_index r col;
  Some (<[i := <[j := piece]> r]> board).

(** [l.count(x)]. *)
Fixpoint count (l : list Z) (x : Z) : Z :=
  match l with
  | [] => 0
  | y :: l' => (if y =? x then 1 else 0) + count l' x
  end.

(** [all(f(x) for x in l)]: stops at the first [False]. *)
Fixpoint all_of {A} (f : A → option bool) (l : list A) : option bool :=
  match l with
  | [] => Some true
  | x :: l' => b ← f x; if b : bool then all_of f l' else Some false
  end.

(** [for x in l: if f(x): return True], falling through with [False]. *)
Fixpoint any_of {A} (f : A → option bool) (l : list A) : option bool :=
  match l with
  | [] => Some false
  | x :: l' => b ← f x; if b : bool then Some true else any_of f l'
  end.

(** [[x for x in l if f(x)]]. *)
Fixpoint select {A} (f : A → option bool) (l : list A) : option (list A) :=
  match l with
  | [] => Some []
  | x :: l' =>
      b ← f x; rest ← select f l';
      Some (if b : bool then x :: rest else rest)
  end.

(** [[f(x) for x in l]]. *)
Fixpoint collect {A B} (f : A → option B) (l : list A) : option (list B) :=
  match l with
  | [] => Some []
  | x :: l' => y ← f x; rest ← collect f l'; Some (y :: rest)
  end.

(** [for x in l: body], the body updating one local variable. *)
Fixpoint for_each {A S} (l : list A) (body : A → S → option S) (s : S)
  : option S :=
  match l with
  | [] => Some s
  | x :: l' => s' ← body x s; for_each l' body s'
  end.

(** Scores: Python integers together with [math.inf] and [-math.inf]. *)
Inductive score : Type :=
  | NegInf
  | Fin (z : Z)
  | PosInf.

Definition score_ltb (x y : score) : bool :=
  match x, y with
  | NegInf, NegInf => false
  | NegInf, _ => true
  | Fin a, Fin b => a <? b
  | Fin _, PosInf => true
  | _, _ => false
  end.

(** [x >= y]. *)
Definition score_geb (x y : score) : bool := negb (score_ltb x y).

(** [max(a, b)] and [min(a, b)]: the second argument only when it is
    strictly beyond the first. *)
Definition score_max (a b : score) : score := if score_ltb a b then b else a.
Definition score_min (a b : score) : score := if score_ltb b a then b else a.

(** ** ai.py: the functions that only read the board *)

Definition get_valid_moves (board : ndarray) : option (list Z) :=
  select (λ col, x ← getitem board 0 col; Some (x =? EMPTY))
         (range BOARD_WIDTH).

Definition winning_move (board : ndarray) (piece : Z) : option bool :=
  h ← any_of (λ row, any_of (λ col,
         all_of (λ i, x ← getitem board row (col + i); Some (x =? piece))
                (range WINDOW_LENGTH))
         (range (BOARD_WIDTH - 3))) (range BOARD_HEIGHT);
  if h : bool then Some true else
  v ← any_of (λ col, any_of (λ row,
         all_of (λ i, x ← getitem board (row + i) col; Some (x =? piece))
                (range WINDOW_LENGTH))
         (range (BOARD_HEIGHT - 3))) (range BOARD_WIDTH);
  if v : bool then Some true else
  p ← any_of (λ row, any_of (λ col,
         all_of (λ i, x ← getitem board (row + i) (col + i); Some (x =? piece))
                (range WINDOW_LENGTH))
         (range (BOARD_WIDTH - 3))) (range (BOARD_HEIGHT - 3));
  if p : bool then Some true else
  n ← any_of (λ row, any_of (λ col,
         all_of (λ i, x ← getitem board (row - i) (col + i); Some (x =? piece))
                (range WINDOW_LENGTH))
         (range (BOARD_WIDTH - 3))) (range2 3 BOARD_HEIGHT);
  if n : bool then Some true else Some false.

Definition is_terminal_node (board : ndarray) : option bool :=
  cond1 ← winning_move board PLAYER_PIECE;
  cond2 ← winning_move board AI_PIECE;
  cond3 ← all_of (λ col, x ← getitem board 0 col; Some (negb (x =? EMPTY)))
                 (range BOARD_WIDTH);
  Some (cond1 || cond2 || cond3).

Definition evaluate_window (window : list Z) (piece : Z) : Z :=
  let opp_piece := if piece =? AI_PIECE then PLAYER_PIECE else AI_PIECE in
  let score := 0 in
  let score :=
    if count window piece =? 4 then score + 100
    else if (count window piece =? 3) && (count window EMPTY =? 1)
         then score + 5
    else if (count window piece =? 2) && (count window EMPTY =? 2)
         then score + 2
    else score in
  let score :=
    if (count window opp_piece =? 3) && (count window EMPTY =? 1)
    then score - 4 else score in
  score.

Definition score_position (board : ndarray) (piece : Z) : option Z :=
  let score := 0 in
  center_array ← collect (λ row, getitem board row (BOARD_WIDTH `div` 2))
                         (range BOARD_HEIGHT);
  let center_count := count center_array piece in
  let score := score + center_count * 3 in
  score ← for_each (range BOARD_HEIGHT) (λ row,
            for_each (range (BOARD_WIDTH - 3)) (λ col score,
              window ← collect (λ i, getitem board row (col + i))
                               (range WINDOW_LENGTH);
              Some (score + evaluate_window window piece))) score;
  score ← for_each (range BOARD_WIDTH) (λ col,
            for_each (range (BOARD_HEIGHT - 3)) (λ row score,
              window ← collect (λ i, getitem board (row + i) col)
                               (range WINDOW_LENGTH);
              Some (score + evaluate_window window piece))) score;
  score ← for_each (range (BOARD_HEIGHT - 3)) (λ row,
            for_each (range (BOARD_WIDTH - 3)) (λ col score,
              window ← collect (λ i, getitem board (row + i) (col + i))
                               (range WINDOW_LENGTH);
              Some (score + evaluate_window window piece))) score;
  score ← for_each (range (BOARD_HEIGHT - 3)) (λ row,
            for_each (range2 3 BOARD_WIDTH) (λ col score,
              window ← collect (λ i, getitem board (row + i) (col - i))
                               (range WINDOW_LENGTH);
              Some (score + evaluate_window window piece))) score;
  Some score.

(** [for row in range(BOARD_HEIGHT - 1, -1, -1)] of [get_next_open_row]. *)
Fixpoint first_empty_row (board : ndarray) (col : Z) (rows : list Z)
  : option Z :=
  match rows with
  | [] => Some (-1)
  | row :: rest =>
      x ← getitem board row col;
      if x =? EMPTY then Some row else first_empty_row board col rest
  end.

Definition get_next_open_row (board : ndarray) (col : Z) : option Z :=
  first_empty_row board col (range_down (BOARD_HEIGHT - 1) (-1)).


(** ** connect4.py: the win test of the game object, on [self.board] *)

Module Connect4.

Definition winning_move (self_board : ndarray) (piece : Z) : option bool :=
  (* Check horizontal *)
  h ← any_of (λ row, any_of (λ col,
         all_of (λ i, x ← getitem self_board row (col + i);
                      Some (x =? piece))
                (range WINDOW_LENGTH))
         (range (BOARD_WIDTH - 3))) (range BOARD_HEIGHT);
  if h : bool then Some true else
  (* Check vertical *)
  v ← any_of (λ col, any_of (λ row,
         all_of (λ i, x ← getitem self_board (row + i) col;
                      Some (x =? piece))
                (range WINDOW_LENGTH))
         (range (BOARD_HEIGHT - 3))) (range BOARD_WIDTH);
  if v : bool then Some true else
  (* Check positive diagonals *)
  p ← any_of (λ row, any_of (λ col,
         all_of (λ i, x ← getitem self_board (row + i) (col + i);
                      Some (x =? piece))
                (range WINDOW_LENGTH))
         (range (BOARD_WIDTH - 3))) (range (BOARD_HEIGHT - 3));
  if p : bool then Some true else
  (* Check negative diagonals *)
  n ← any_of (λ row, any_of (λ col,
         all_of (λ i, x ← getitem self_board (row - i) (col + i);
                      Some (x =? piece))
                (range WINDOW_LENGTH))
         (range (BOARD_WIDTH - 3))) (range2 3 BOARD_HEIGHT);
  if n : bool then Some true else Some false.

End Connect4.

(** ** The store of arrays

    A board variable of the Python code holds a reference; the store maps
    references to array contents.  [board.copy()] allocates, [drop_piece]
    writes through the reference it is given. *)

Abbreviation loc := nat (only parsing).
Abbreviation heap := (list ndarray).

(** [OutOfFuel] is the model's recursion bound; [Dangling] is a reference
    outside the store, which Python cannot produce. *)
Inductive error : Type :=
  | IndexError
  | OutOfFuel
  | Dangling.

Inductive outcome (A : Type) : Type :=
  | Ok (a : A) (h : heap)
  | Fail (e : error).
Arguments Ok {A} a h.
Arguments Fail {A} e.

Definition M (A : Type) : Type := heap → outcome A.

#[global] Instance M_ret : MRet M := λ A a h, Ok a h.
#[global] Instance M_bind : MBind M := λ A B f m h,
  match m h with
  | Ok a h' => f a h'
  | Fail e => Fail e
  end.
#[global] Instance M_fmap : FMap M := λ A B f m h,
  match m h with
  | Ok a h' => Ok (f a) h'
  | Fail e => Fail e
  end.

Definition raise {A} (e : error) : M A := λ _, Fail e.

Definition lift {A} (o : option A) : M A :=
  match o with
  | Some a => mret a
  | None => raise IndexError
  end.

Definition load (board : loc) : M ndarray := λ h,
  match h !! board with
  | Some b => Ok b h
  | None => Fail Dangling
  end.

(** A call [self.f(board, ...)] of a function that only reads the board. *)
Definition call {A} (f : ndarray → option A) (board : loc) : M A :=
  b ← load board; lift (f b).

(** [board.copy()]. *)
Definition copy (board : loc) : M loc := λ h,
  match h !! board with
  | Some b => Ok (length h) (h ++ [b])
  | None => Fail Dangling
  end.

Definition drop_piece (board : loc) (row col piece : Z) : M unit := λ h,
  match h !! board with
  | Some b =>
      match setitem b row col piece with
      | Some b' => Ok tt (<[board := b']> h)
      | None => Fail IndexError
      end
  | None => Fail Dangling
  end.

(** ** ai.py: minimax *)

(** The loop of the maximizing branch; [self_minimax] is the recursive call
    [self.minimax(board_copy, depth - 1, alpha, beta, False)]. *)
Fixpoint max_loop (self_minimax : loc → score → score → M (option Z * score))
    (board : loc) (valid_moves : list Z) (alpha beta value : score)
    (column : Z) : M (option Z * score) :=
  match valid_moves with
  | [] => mret (Some column, value)
  | col :: rest =>
      row ← call (λ b, get_next_open_row b col) board;
      board_copy ← copy board;
      drop_piece board_copy row col AI_PIECE;;
      r ← self_minimax board_copy alpha beta;
      let new_score := r.2 in
      let '(value, column) :=
        if score_ltb value new_score then (new_score, col)
        else (value, column) in
      let alpha := score_max alpha value in
      if score_geb alpha beta then mret (Some column, value)
      else max_loop self_minimax board rest alpha beta value column
  end.

(** The loop of the minimizing branch. *)
Fixpoint min_loop (self_minimax : loc → score → score → M (option Z * score))
    (board : loc) (valid_moves : list Z) (alpha beta value : score)
    (column : Z) : M (option Z * score) :=
  match valid_moves with
  | [] => mret (Some column, value)
  | col :: rest =>
      row ← call (λ b, get_next_open_row b col) board;
      board_copy ← copy board;
      drop_piece board_copy row col PLAYER_PIECE;;
      r ← self_minimax board_copy alpha beta;
      let new_score := r.2 in
      let '(value, column) :=
        if score_ltb new_score value then (new_score, col)
        else (value, column) in
      let beta := score_min beta value in
      if score_geb alpha beta then mret (Some column, value)
      else min_loop self_minimax board rest alpha beta value column
  end.

Fixpoint minimax (fuel : nat) (board : loc) (depth : Z) (alpha beta : score)
    (maximizing_player : bool) : M (option Z * score) :=
  match fuel with
  | O => raise OutOfFuel
  | S fuel =>
      valid_moves ← call get_valid_moves board;
      is_terminal ← call is_terminal_node board;
      if (depth =? 0) || is_terminal then
        if is_terminal : bool then
          ai_wins ← call (λ b, winning_move b AI_PIECE) board;
          if ai_wins : bool then mret (None, Fin 100000000) else
          player_wins ← call (λ b, winning_move b PLAYER_PIECE) board;
          if player_wins : bool then mret (None, Fin (-100000000))
          else mret (None, Fin 0)
        else
          s ← call (λ b, score_position b AI_PIECE) board;
          mret (None, Fin s)
      else if maximizing_player then
        column ← lift (index valid_moves 0);
        max_loop (λ board_copy alpha beta,
                    minimax fuel board_copy (depth - 1) alpha beta false)
                 board valid_moves alpha beta NegInf column
      else
        column ← lift (index valid_moves 0);
        min_loop (λ board_copy alpha beta,
                    minimax fuel board_copy (depth - 1) alpha beta true)
                 board valid_moves alpha beta PosInf column
  end.

(** [get_best_move(self, game)], with [self.depth] and [game.board]. *)
Definition get_best_move (fuel : nat) (self_depth : Z) (game_board : loc)
  : M (option Z) :=
  board ← copy game_board;
  r ← minimax fuel board self_depth NegInf PosInf true;
  mret r.1.


(** ** Boards of the game's shape, and the functions on them as totals

    On a [BOARD_HEIGHT] by [BOARD_WIDTH] array none of the reads above can
    fail; [Pure] states what each function then computes, and is what the
    proofs below reason about. *)

Definition well_shaped (b : ndarray) : bool :=
  (length b =? Z.to_nat BOARD_HEIGHT)%nat
  && forallb (λ r : list Z, (length r =? Z.to_nat BOARD_WIDTH)%nat) b.

Fixpoint sum_over {A} (l : list A) (g : A → Z) : Z :=
  match l with
  | [] => 0
  | x :: l' => g x + sum_over l' g
  end.

Module Pure.

Definition cell (b : ndarray) (row col : Z) : Z :=
  default EMPTY (getitem b row col).

Definition get_valid_moves (b : ndarray) : list Z :=
  List.filter (λ col, cell b 0 col =? EMPTY) (range BOARD_WIDTH).

Definition winning_move (b : ndarray) (piece : Z) : bool :=
  existsb (λ row, existsb (λ col,
     forallb (λ i, cell b row (col + i) =? piece) (range WINDOW_LENGTH))
     (range (BOARD_WIDTH - 3))) (range BOARD_HEIGHT)
  || existsb (λ col, existsb (λ row,
     forallb (λ i, cell b (row + i) col =? piece) (range WINDOW_LENGTH))
     (range (BOARD_HEIGHT - 3))) (range BOARD_WIDTH)
  || existsb (λ row, existsb (λ col,
     forallb (λ i, cell b (row + i) (col + i) =? piece) (range WINDOW_LENGTH))
     (range (BOARD_WIDTH - 3))) (range (BOARD_HEIGHT - 3))
  || existsb (λ row, existsb (λ col,
     forallb (λ i, cell b (row - i) (col + i) =? piece) (range WINDOW_LENGTH))
     (range (BOARD_WIDTH - 3))) (range2 3 BOARD_HEIGHT).

Definition is_full (b : ndarray) : bool :=
  forallb (λ col, negb (cell b 0 col =? EMPTY)) (range BOARD_WIDTH).

Definition is_terminal_node (b : ndarray) : bool :=
  winning_move b PLAYER_PIECE || winning_move b AI_PIECE || is_full b.

Definition score_position (b : ndarray) (piece : Z) : Z :=
  count ((λ row, cell b row (BOARD_WIDTH `div` 2)) <$> range BOARD_HEIGHT)
        piece * 3
  + sum_over (range BOARD_HEIGHT) (λ row,
      sum_over (range (BOARD_WIDTH - 3)) (λ col,
        evaluate_window ((λ i, cell b row (col + i)) <$> range WINDOW_LENGTH)
                        piece))
  + sum_over (range BOARD_WIDTH) (λ col,
      sum_over (range (BOARD_HEIGHT - 3)) (λ row,
        evaluate_window ((λ i, cell b (row + i) col) <$> range WINDOW_LENGTH)
                        piece))
  + sum_over (range (BOARD_HEIGHT - 3)) (λ row,
      sum_over (range (BOARD_WIDTH - 3)) (λ col,
        evaluate_window
          ((λ i, cell b (row + i) (col + i)) <$> range WINDOW_LENGTH) piece))
  + sum_over (range (BOARD_HEIGHT - 3)) (λ row,
      sum_over (range2 3 BOARD_WIDTH) (λ col,
        evaluate_window
          ((λ i, cell b (row + i) (col - i)) <$> range WINDOW_LENGTH) piece)).

Fixpoint first_empty_row (b : ndarray) (col : Z) (rows : list Z) : Z :=
  match rows with
  | [] => -1
  | row :: rest =>
      if cell b row col =? EMPTY then row else first_empty_row b col rest
  end.

Definition get_next_open_row (b : ndarray) (col : Z) : Z :=
  first_empty_row b col (range_down (BOARD_HEIGHT - 1) (-1)).

(** The board after [drop_piece] at the next open row of [col]. *)
Definition apply_move (b : ndarray) (col piece : Z) : ndarray :=
  default b (setitem b (get_next_open_row b col) col piece).

(** What the base case of [minimax] returns as its score. *)
Definition leaf_score (b : ndarray) : Z :=
  if is_terminal_node b then
    if winning_move b AI_PIECE then 100000000
    else if winning_move b PLAYER_PIECE then -100000000
    else 0
  else score_position b AI_PIECE.

Section loops.
(** [child col alpha beta]: the score of the recursive call on the board
    after the move in [col]. *)
Variable child : Z → score → score → option score.

Fixpoint max_loop (moves : list Z) (alpha beta value : score) (column : Z)
  : option (Z * score) :=
  match moves with
  | [] => Some (column, value)
  | col :: rest =>
      new_score ← child col alpha beta;
      let '(value, column) :=
        if score_ltb value new_score then (new_score, col)
        else (value, column) in
      let alpha := score_max alpha value in
      if score_geb alpha beta then Some (column, value)
      else max_loop rest alpha beta value column
  end.

Fixpoint min_loop (moves : list Z) (alpha beta value : score) (column : Z)
  : option (Z * score) :=
  match moves with
  | [] => Some (column, value)
  | col :: rest =>
      new_score ← child col alpha beta;
      let '(value, column) :=
        if score_ltb new_score value then (new_score, col)
        else (value, column) in
      let beta := score_min beta value in
      if score_geb alpha beta then Some (column, value)
      else min_loop rest alpha beta value column
  end.
End loops.

(** [minimax] on board values; [None] is the recursion bound. *)
Fixpoint minimax (fuel : nat) (b : ndarray) (depth : Z) (alpha beta : score)
    (maximizing_player : bool) : option (option Z * score) :=
  match fuel with
  | O => None
  | S fuel =>
      let valid_moves := get_valid_moves b in
      if (depth =? 0) || is_terminal_node b then Some (None, Fin (leaf_score b))
      else if maximizing_player then
        r ← max_loop (λ col alpha beta,
                 snd <$> minimax fuel (apply_move b col AI_PIECE) (depth - 1)
                                 alpha beta false)
               valid_moves alpha beta NegInf (hd 0 valid_moves);
        Some (Some r.1, r.2)
      else
        r ← min_loop (λ col alpha beta,
                 snd <$> minimax fuel (apply_move b col PLAYER_PIECE)
                                 (depth - 1) alpha beta true)
               valid_moves alpha beta PosInf (hd 0 valid_moves);
        Some (Some r.1, r.2)
  end.

End Pure.

(** ** The search without pruning

    The exhaustive search of the specification: the same tree, the moves in
    ascending order, the first strictly better score kept, no alpha, no beta
    and no early exit. *)

Fixpoint exhaustive_loop (child : Z → option score) (maximizing : bool)
    (moves : list Z) (value : score) (column : Z) : option (Z * score) :=
  match moves with
  | [] => Some (column, value)
  | col :: rest =>
      new_score ← child col;
      let better :=
        if maximizing then score_ltb value new_score
        else score_ltb new_score value in
      if better : bool then exhaustive_loop child maximizing rest new_score col
      else exhaustive_loop child maximizing rest value column
  end.

Fixpoint exhaustive_minimax (fuel : nat) (b : ndarray) (depth : Z)
    (maximizing : bool) : option (option Z * score) :=
  match fuel with
  | O => None
  | S fuel =>
      let moves := Pure.get_valid_moves b in
      if (depth =? 0) || Pure.is_terminal_node b
      then Some (None, Fin (Pure.leaf_score b))
      else
        r ← exhaustive_loop
               (λ col, snd <$> exhaustive_minimax fuel
                          (Pure.apply_move b col
                             (if maximizing then AI_PIECE else PLAYER_PIECE))
                          (depth - 1) (negb maximizing))
               maximizing moves
               (if maximizing then NegInf else PosInf) (hd 0 moves);
        Some (Some r.1, r.2)
  end.


(** ** Notions used in the statements and proofs *)

Definition empty_board : ndarray :=
  replicate (Z.to_nat BOARD_HEIGHT) (replicate (Z.to_nat BOARD_WIDTH) EMPTY).

(** The number of empty cells of a board. *)
Definition empties (b : ndarray) : Z := count (concat b) EMPTY.

(** [m] at store [h] does what the value-level result [o] says: it returns
    that result in a grown store, or stops at the recursion bound. *)
Definition computes {A} (m : M A) (h : heap) (o : option A) : Prop :=
  match o with
  | Some r => ∃ h', m h = Ok r h' ∧ h `prefix_of` h'
  | None => m h = Fail OutOfFuel
  end.

(** The recursive call on the store against the recursive call on values,
    for the moves of [b] played with [piece]. *)
Definition child_refines (b : ndarray)
    (self_minimax : loc → score → score → M (option Z * score))
    (child : Z → score → score → option score) (piece : Z) : Prop :=
  ∀ col l a be h,
    col ∈ Pure.get_valid_moves b →
    h !! l = Some (Pure.apply_move b col piece) →
    match child col a be with
    | Some s => ∃ r h', self_minimax l a be h = Ok r h' ∧ r.2 = s
                        ∧ h `prefix_of` h'
    | None => self_minimax l a be h = Fail OutOfFuel
    end.

(** The order on scores. *)
Definition slt (x y : score) : Prop := score_ltb x y = true.
Definition sle (x y : score) : Prop := score_ltb y x = false.

(** What a search with window [(alpha, beta)] returns, [w], against the
    exact value [v] of the position: below [beta] it is an upper bound, above
    [alpha] a lower bound. *)
Definition fail_soft (alpha beta v w : score) : Prop :=
  (slt w beta → sle v w) ∧ (slt alpha w → sle w v).

(** The recursion bound suffices when it exceeds the depth (counted down to
    the base case [depth == 0]) or the number of empty cells (each level
    fills one). *)
Definition enough_fuel (fuel : nat) (depth : Z) (b : ndarray) : Prop :=
  0 ≤ depth < Z.of_nat fuel ∨ empties b < Z.of_nat fuel.

(** A finite score between the two sentinels. *)
Definition bounded (v : score) : Prop :=
  ∃ z, v = Fin z ∧ -100000000 ≤ z ≤ 100000000.

(** The four directions of a line: along a row, down a column, and the two
    diagonals. *)
Definition directions : list (Z * Z) := [(0, 1); (1, 0); (1, 1); (-1, 1)].

Definition on_board (row col : Z) : Prop :=
  0 ≤ row < BOARD_HEIGHT ∧ 0 ≤ col < BOARD_WIDTH.

(** [WINDOW_LENGTH] consecutive cells of the board, from [(row, col)] in one
    of the four directions, all equal to [piece]. *)
Definition has_run (b : ndarray) (piece : Z) : Prop :=
  ∃ row col drow dcol,
    (drow, dcol) ∈ directions
    ∧ ∀ i, 0 ≤ i < WINDOW_LENGTH →
        on_board (row + i * drow) (col + i * dcol)
        ∧ getitem b (row + i * drow) (col + i * dcol) = Some piece.

(** The two sides exchanged, cell by cell. *)
Definition swap_piece (x : Z) : Z :=
  if x =? PLAYER_PIECE then AI_PIECE
  else if x =? AI_PIECE then PLAYER_PIECE
  else x.

Definition swap_sides (b : ndarray) : ndarray :=
  (λ r : list Z, swap_piece <$> r) <$> b.

(** ** Example boards (row 0 is the top row) *)

(** One piece of the AI at the bottom of the centre column. *)
Definition board_centre : ndarray :=
  [ [0; 0; 0; 0; 0; 0; 0];
    [0; 0; 0; 0; 0; 0; 0];
    [0; 0; 0; 0; 0; 0; 0];
    [0; 0; 0; 0; 0; 0; 0];
    [0; 0; 0; 0; 0; 0; 0];
    [0; 0; 0; 2; 0; 0; 0] ].

(** The AI has three in the bottom row and column 3 open next to them. *)
Definition board_three : ndarray :=
  [ [0; 0; 0; 0; 0; 0; 0];
    [0; 0; 0; 0; 0; 0; 0];
    [0; 0; 0; 0; 0; 0; 0];
    [0; 0; 0; 0; 0; 0; 0];
    [0; 0; 0; 0; 1; 0; 0];
    [2; 2; 2; 0; 1; 1; 0] ].

(** The same with the fourth piece placed. *)
Definition board_four : ndarray :=
  [ [0; 0; 0; 0; 0; 0; 0];
    [0; 0; 0; 0; 0; 0; 0];
    [0; 0; 0; 0; 0; 0; 0];
    [0; 0; 0; 0; 0; 0; 0];
    [0; 0; 0; 0; 1; 0; 0];
    [2; 2; 2; 2; 1; 1; 0] ].


(** ** connect4.py: the game object

    The object's fields are passed along as a record, a method that assigns
    to them returning the updated object; its board is a reference into the
    store, since [drop_piece] writes to the array in place and
    [get_best_move] copies it. *)

Module Game.

Record Connect4 : Type := {
  board : loc;
  game_over : bool;
  turn : Z;
  winner : option Z;
}.

(** [np.zeros((BOARD_HEIGHT, BOARD_WIDTH), dtype=int)]. *)
Definition zeros : M loc := λ h,
  Ok (length h)
     (h ++ [replicate (Z.to_nat BOARD_HEIGHT)
                      (replicate (Z.to_nat BOARD_WIDTH) 0)]).

Definition __init__ : M Connect4 :=
  b ← zeros;
  mret {| board := b; game_over := false; turn := PLAYER_PIECE;
          winner := None |}.

Definition reset (self : Connect4) : M Connect4 :=
  b ← zeros;
  mret {| board := b; game_over := false; winner := None;
          turn := PLAYER_PIECE |}.

Definition drop_piece (self : Connect4) (row col piece : Z) : M unit :=
  drop_piece (board self) row col piece.

Definition is_valid_location (self : Connect4) (col : Z) : M bool :=
  call (λ b, x ← getitem b 0 col; Some (x =? EMPTY)) (board self).

Definition get_next_open_row (self : Connect4) (col : Z) : M Z :=
  call (λ b, first_empty_row b col (range_down (BOARD_HEIGHT - 1) (-1)))
       (board self).

Definition winning_move (self : Connect4) (piece : Z) : M bool :=
  call (λ b, Connect4.winning_move b piece) (board self).

Definition is_board_full (self : Connect4) : M bool :=
  call (λ b, all_of (λ col, x ← getitem b 0 col; Some (negb (x =? EMPTY)))
                    (range BOARD_WIDTH))
       (board self).

(** [play_move]: the updated object and the returned flag. *)
Definition play_move (self : Connect4) (col : Z) : M (Connect4 * bool) :=
  if game_over self then mret (self, false) else
  valid ← is_valid_location self col;
  if valid : bool then
    row ← get_next_open_row self col;
    drop_piece self row col (turn self);;
    won ← winning_move self (turn self);
    if won : bool then
      mret ({| board := board self; game_over := true; turn := turn self;
               winner := Some (turn self) |}, true)
    else
      full ← is_board_full self;
      if full : bool then
        mret ({| board := board self; game_over := true; turn := turn self;
                 winner := winner self |}, true)
      else
        mret ({| board := board self; game_over := false;
                 turn := if turn self =? PLAYER_PIECE then AI_PIECE
                         else PLAYER_PIECE;
                 winner := winner self |}, true)
  else mret (self, false).

End Game.

(** ** Notions about the game object *)

(** The object after a successful move that left the board as [b']. *)
Definition after_move (self : Game.Connect4) (b' : ndarray) : Game.Connect4 :=
  if Pure.winning_move b' (Game.turn self) then
    {| Game.board := Game.board self; Game.game_over := true;
       Game.turn := Game.turn self; Game.winner := Some (Game.turn self) |}
  else if Pure.is_full b' then
    {| Game.board := Game.board self; Game.game_over := true;
       Game.turn := Game.turn self; Game.winner := Game.winner self |}
  else
    {| Game.board := Game.board self; Game.game_over := false;
       Game.turn := if Game.turn self =? PLAYER_PIECE then AI_PIECE
                    else PLAYER_PIECE;
       Game.winner := Game.winner self |}.

(** No piece floats: a non-empty cell above the bottom row rests on a
    non-empty cell. *)
Definition gravity (b : ndarray) : bool :=
  forallb (λ col,
    forallb (λ row,
      implb (negb (Pure.cell b row col =? EMPTY))
            (negb (Pure.cell b (row + 1) col =? EMPTY)))
      (range (BOARD_HEIGHT - 1)))
    (range BOARD_WIDTH).

(** Every cell is empty or holds a piece of one of the two sides. *)
Definition pieces_only (b : ndarray) : bool :=
  forallb (λ row,
    forallb (λ col,
      let x := Pure.cell b row col in
      (x =? EMPTY) || (x =? PLAYER_PIECE) || (x =? AI_PIECE))
      (range BOARD_WIDTH))
    (range BOARD_HEIGHT).

(** The other side. *)
Definition opponent (piece : Z) : Z :=
  if piece =? PLAYER_PIECE then AI_PIECE else PLAYER_PIECE.

(** The states a game object goes through: created by [__init__], then any
    sequence of [reset], [play_move] with any column, and [get_best_move] of
    an engine of any depth on the object's board, as long as no call raises. *)
Inductive reachable : Game.Connect4 → heap → Prop :=
  | reachable_init h self h' :
      Game.__init__ h = Ok self h' → reachable self h'
  | reachable_reset self h self' h' :
      reachable self h → Game.reset self h = Ok self' h' →
      reachable self' h'
  | reachable_play_move self h col self' r h' :
      reachable self h → Game.play_move self col h = Ok (self', r) h' →
      reachable self' h'
  | reachable_get_best_move self h fuel depth move h' :
      reachable self h →
      get_best_move fuel depth (Game.board self) h = Ok move h' →
      reachable self h'.

(** What holds of a game object and the contents [b] of its board. *)
Record game_inv (self : Game.Connect4) (b : ndarray) : Prop := {
  inv_shape : well_shaped b = true;
  inv_pieces : pieces_only b = true;
  inv_gravity : gravity b = true;
  inv_turn : Game.turn self = PLAYER_PIECE ∨ Game.turn self = AI_PIECE;
  inv_count :
    count (concat b) PLAYER_PIECE
    = count (concat b) AI_PIECE
      + (if xorb (Game.game_over self) (Game.turn self =? AI_PIECE)
         then 1 else 0);
  inv_running :
    Game.game_over self = false →
    Pure.is_terminal_node b = false ∧ Game.winner self = None;
  inv_over :
    Game.game_over self = true →
    Pure.winning_move b (opponent (Game.turn self)) = false
    ∧ match Game.winner self with
      | Some p => p = Game.turn self ∧ Pure.winning_move b p = true
      | None => Pure.winning_move b (Game.turn self) = false
                ∧ Pure.is_full b = true
      end;
}.

(** ** Example game objects *)

(** A new game in an empty store, as [__init__] leaves it. *)
Definition game_start : Game.Connect4 :=
  {| Game.board := 0%nat; Game.game_over := false;
     Game.turn := PLAYER_PIECE; Game.winner := None |}.

(** A running game in which the AI is to move. *)
Definition game_running : Game.Connect4 :=
  {| Game.board := 0%nat; Game.game_over := false;
     Game.turn := AI_PIECE; Game.winner := None |}.

(** A finished game: the player has won. *)
Definition game_finished : Game.Connect4 :=
  {| Game.board := 0%nat; Game.game_over := true;
     Game.turn := PLAYER_PIECE; Game.winner := Some PLAYER_PIECE |}.

(** Column 3 is filled to the top. *)
Definition board_full_column : ndarray :=
  [ [0; 0; 0; 2; 0; 0; 0];
    [0; 0; 0; 1; 0; 0; 0];
    [0; 0; 0; 2; 0; 0; 0];
    [0; 0; 0; 1; 0; 0; 0];
    [0; 0; 0; 2; 0; 0; 0];
    [0; 0; 0; 1; 0; 0; 0] ].

(** The board after the player's first move, in the centre column. *)
Definition board_first_move : ndarray :=
  [ [0; 0; 0; 0; 0; 0; 0];
    [0; 0; 0; 0; 0; 0; 0];
    [0; 0; 0; 0; 0; 0; 0];
    [0; 0; 0; 0; 0; 0; 0];
    [0; 0; 0; 0; 0; 0; 0];
    [0; 0; 0; 1; 0; 0; 0] ].


(** The board seen in a mirror: every row from right to left. *)
Definition mirror (b : ndarray) : ndarray := (λ r : list Z, reverse r) <$> b.

(** The player has three in the bottom row and column 3 open next to
    them; the AI is to move and cannot win at once. *)
Definition board_threat : ndarray :=
  [ [0; 0; 0; 0; 0; 0; 0];
    [0; 0; 0; 0; 0; 0; 0];
    [0; 0; 0; 0; 0; 0; 0];
    [0; 0; 0; 0; 0; 0; 0];
    [0; 0; 0; 0; 2; 0; 0];
    [1; 1; 1; 0; 2; 0; 0] ].

(** ** Python iteration when no read fails *)

Lemma bind_some {A B} (x : A) (f : A → option B) : Some x ≫= f = f x.
Proof. reflexivity. Qed.

Ltac step_some := rewrite bind_some; cbv beta.

Section iteration.
Context {A : Type}.

Lemma all_of_total (f : A → option bool) (g : A → bool) (l : list A) :
  (∀ x, x ∈ l → f x = Some (g x)) → all_of f l = Some (forallb g l).
Proof.
  induction l as [|x l IH]; intros Hf; simpl; [reflexivity|].
  rewrite (Hf x) by apply list_elem_of_here. simpl.
  destruct (g x); [|reflexivity].
  apply IH. intros y Hy. apply Hf. by apply list_elem_of_further.
Qed.

Lemma any_of_total (f : A → option bool) (g : A → bool) (l : list A) :
  (∀ x, x ∈ l → f x = Some (g x)) → any_of f l = Some (existsb g l).
Proof.
  induction l as [|x l IH]; intros Hf; simpl; [reflexivity|].
  rewrite (Hf x) by apply list_elem_of_here. simpl.
  destruct (g x); [reflexivity|].
  apply IH. intros y Hy. apply Hf. by apply list_elem_of_further.
Qed.

Lemma select_total (f : A → option bool) (g : A → bool) (l : list A) :
  (∀ x, x ∈ l → f x = Some (g x)) → select f l = Some (List.filter g l).
Proof.
  induction l as [|x l IH]; intros Hf; simpl; [reflexivity|].
  rewrite (Hf x) by apply list_elem_of_here. simpl.
  rewrite IH; [by destruct (g x)|].
  intros y Hy. apply Hf. by apply list_elem_of_further.
Qed.

Lemma collect_total {B} (f : A → option B) (g : A → B) (l : list A) :
  (∀ x, x ∈ l → f x = Some (g x)) → collect f l = Some (g <$> l).
Proof.
  induction l as [|x l IH]; intros Hf; simpl; [reflexivity|].
  rewrite (Hf x) by apply list_elem_of_here. simpl.
  rewrite IH; [reflexivity|].
  intros y Hy. apply Hf. by apply list_elem_of_further.
Qed.

Lemma for_each_sum (body : A → Z → option Z) (g : A → Z) (l : list A) :
  (∀ x s, x ∈ l → body x s = Some (s + g x)) →
  ∀ s, for_each l body s = Some (s + sum_over l g).
Proof.
  induction l as [|x l IH]; intros Hb s; simpl.
  - f_equal. lia.
  - rewrite (Hb x s) by apply list_elem_of_here. simpl.
    rewrite IH; [f_equal; lia|].
    intros y t Hy. apply Hb. by apply list_elem_of_further.
Qed.
End iteration.

Lemma elem_of_range (n x : Z) : x ∈ range n ↔ 0 ≤ x < n.
Proof. unfold range. rewrite elem_of_seqZ. lia. Qed.

Lemma elem_of_range2 (a b x : Z) : x ∈ range2 a b ↔ a ≤ x < b.
Proof. unfold range2. rewrite elem_of_seqZ. lia. Qed.

Lemma elem_of_range_down (a b x : Z) : x ∈ range_down a b ↔ b < x ≤ a.
Proof.
  unfold range_down. rewrite list_elem_of_fmap. split.
  - intros (k & -> & Hk). apply elem_of_seqZ in Hk. lia.
  - intros Hx. exists (a - x). split; [lia|]. apply elem_of_seqZ. lia.
Qed.

(** ** Reading a board of the game's shape *)

Lemma well_shaped_rows (b : ndarray) :
  well_shaped b = true →
  length b = 6%nat ∧ ∀ i r, b !! i = Some r → length r = 7%nat.
Proof.
  unfold well_shaped. intros [Hl Hr]%andb_prop. split.
  - by apply Nat.eqb_eq in Hl.
  - intros i r Hi. rewrite forallb_forall in Hr.
    apply Nat.eqb_eq, Hr, list_elem_of_In. by eapply list_elem_of_lookup_2.
Qed.

Lemma index_in_range {A} (l : list A) (i : Z) :
  0 ≤ i < Z.of_nat (length l) → index l i = l !! Z.to_nat i.
Proof.
  intros Hi. unfold index, norm_index.
  destruct (Z.leb_spec 0 i); [|lia]. destruct (Z.ltb_spec i (Z.of_nat (length l))); [|lia].
  reflexivity.
Qed.

Lemma getitem_in_range (b : ndarray) (row col : Z) :
  well_shaped b = true → 0 ≤ row < BOARD_HEIGHT → 0 ≤ col < BOARD_WIDTH →
  getitem b row col = Some (Pure.cell b row col).
Proof.
  intros [Hl Hr]%well_shaped_rows Hrow Hcol.
  unfold BOARD_HEIGHT, BOARD_WIDTH in *.
  unfold Pure.cell, getitem. rewrite index_in_range by lia.
  destruct (b !! Z.to_nat row) as [r|] eqn:Hb.
  - simpl. rewrite index_in_range by (rewrite (Hr _ _ Hb); lia).
    destruct (r !! Z.to_nat col) eqn:Hc; [reflexivity|].
    apply lookup_ge_None in Hc. rewrite (Hr _ _ Hb) in Hc. lia.
  - apply lookup_ge_None in Hb. lia.
Qed.

(** ** The reading functions on a board of the game's shape *)

Section reading.
Variable b : ndarray.
Hypothesis Hb : well_shaped b = true.

Ltac in_ranges :=
  repeat match goal with
  | H : _ ∈ range _ |- _ => apply elem_of_range in H
  | H : _ ∈ range2 _ _ |- _ => apply elem_of_range2 in H
  | H : _ ∈ range_down _ _ |- _ => apply elem_of_range_down in H
  end;
  unfold BOARD_HEIGHT, BOARD_WIDTH, WINDOW_LENGTH in *.

Ltac read_cell :=
  rewrite getitem_in_range
    by (try assumption; in_ranges; first [lia | by vm_compute]).

Lemma get_valid_moves_total :
  get_valid_moves b = Some (Pure.get_valid_moves b).
Proof.
  unfold get_valid_moves, Pure.get_valid_moves.
  apply select_total. intros col Hc. by read_cell.
Qed.

Lemma winning_move_total (piece : Z) :
  winning_move b piece = Some (Pure.winning_move b piece).
Proof.
  unfold winning_move, Pure.winning_move.
  repeat match goal with
  | |- context [any_of ?f ?l] =>
      erewrite (any_of_total f _ l);
      [|intros ? ?; apply any_of_total; intros ? ?;
        apply all_of_total; intros ? ?; by read_cell];
      step_some
  end.
  repeat match goal with
  | |- context [existsb ?f ?l] => destruct (existsb f l)
  end; reflexivity.
Qed.

Lemma is_terminal_node_total :
  is_terminal_node b = Some (Pure.is_terminal_node b).
Proof.
  unfold is_terminal_node, Pure.is_terminal_node, Pure.is_full.
  rewrite !winning_move_total.
  erewrite all_of_total; [reflexivity|].
  intros col Hc. by read_cell.
Qed.

Lemma score_position_total (piece : Z) :
  score_position b piece = Some (Pure.score_position b piece).
Proof.
  unfold score_position, Pure.score_position.
  erewrite collect_total; [|intros ? ?; by read_cell]. step_some.
  repeat match goal with
  | |- context [for_each ?l ?body ?s] =>
      erewrite (for_each_sum body _ l);
      [|intros ? ? ?; apply for_each_sum; intros ? ? ?;
        erewrite collect_total; [reflexivity|intros ? ?; by read_cell]];
      step_some
  end.
  f_equal; lia.
Qed.

Lemma first_empty_row_total (col : Z) (rows : list Z) :
  0 ≤ col < BOARD_WIDTH → (∀ row, row ∈ rows → 0 ≤ row < BOARD_HEIGHT) →
  first_empty_row b col rows = Some (Pure.first_empty_row b col rows).
Proof.
  intros Hc. induction rows as [|row rows IH]; intros Hr; simpl.
  - reflexivity.
  - rewrite getitem_in_range
      by (try assumption; apply Hr, list_elem_of_here). simpl.
    destruct (Pure.cell b row col =? EMPTY); [reflexivity|].
    apply IH. intros r Hr'. apply Hr. by apply list_elem_of_further.
Qed.

Lemma get_next_open_row_total (col : Z) :
  0 ≤ col < BOARD_WIDTH →
  get_next_open_row b col = Some (Pure.get_next_open_row b col).
Proof.
  intros Hc. apply first_empty_row_total; [done|].
  intros row Hr. in_ranges. lia.
Qed.
End reading.


Lemma elem_of_valid_moves (b : ndarray) (col : Z) :
  col ∈ Pure.get_valid_moves b ↔
  0 ≤ col < BOARD_WIDTH ∧ Pure.cell b 0 col = EMPTY.
Proof.
  unfold Pure.get_valid_moves.
  rewrite list_elem_of_In, filter_In, <- list_elem_of_In, elem_of_range, Z.eqb_eq.
  reflexivity.
Qed.

Lemma forallb_false {A} (f : A → bool) (l : list A) :
  forallb f l = false → ∃ x, x ∈ l ∧ f x = false.
Proof.
  induction l as [|x l IH]; simpl; [discriminate|].
  destruct (f x) eqn:Hx; simpl.
  - intros (y & Hy & Hf)%IH. exists y. split; [by apply list_elem_of_further|done].
  - intros _. exists x. split; [apply list_elem_of_here|done].
Qed.

Lemma valid_moves_nonempty (b : ndarray) :
  Pure.is_terminal_node b = false → ∃ col, col ∈ Pure.get_valid_moves b.
Proof.
  unfold Pure.is_terminal_node. intros [_ Hf]%orb_false_elim.
  apply forallb_false in Hf as (col & Hc & Hn).
  exists col. apply elem_of_valid_moves. apply elem_of_range in Hc.
  split; [done|]. apply negb_false_iff in Hn. by apply Z.eqb_eq.
Qed.

Lemma first_empty_row_spec (b : ndarray) (col : Z) (rows : list Z) :
  (∃ row, row ∈ rows ∧ Pure.cell b row col = EMPTY) →
  Pure.first_empty_row b col rows ∈ rows
  ∧ Pure.cell b (Pure.first_empty_row b col rows) col = EMPTY.
Proof.
  induction rows as [|r rows IH]; intros (row & Hin & Hc).
  - by apply elem_of_nil in Hin.
  - simpl. destruct (Z.eqb_spec (Pure.cell b r col) EMPTY) as [He|Hne].
    + split; [apply list_elem_of_here|done].
    + apply elem_of_cons in Hin as [->|Hin]; [done|].
      destruct IH as [H1 H2]; [by exists row|].
      split; [by apply list_elem_of_further|done].
Qed.

Lemma get_next_open_row_spec (b : ndarray) (col : Z) :
  Pure.cell b 0 col = EMPTY →
  0 ≤ Pure.get_next_open_row b col < BOARD_HEIGHT
  ∧ Pure.cell b (Pure.get_next_open_row b col) col = EMPTY.
Proof.
  intros H0. unfold Pure.get_next_open_row.
  destruct (first_empty_row_spec b col (range_down (BOARD_HEIGHT - 1) (-1)))
    as [Hin Hc].
  - exists 0. split; [|done]. apply elem_of_range_down. unfold BOARD_HEIGHT. lia.
  - split; [|done]. apply elem_of_range_down in Hin. lia.
Qed.

(** Without an empty cell in the column the answer is [-1]. *)
Lemma first_empty_row_none (b : ndarray) (col : Z) (rows : list Z) :
  (∀ row, row ∈ rows → Pure.cell b row col ≠ EMPTY) →
  Pure.first_empty_row b col rows = -1.
Proof.
  induction rows as [|r rows IH]; intros Hf; simpl; [done|].
  destruct (Z.eqb_spec (Pure.cell b r col) EMPTY) as [He|Hne].
  - exfalso. by apply (Hf r), He; apply list_elem_of_here.
  - apply IH. intros row Hr. apply Hf. by apply list_elem_of_further.
Qed.

(** ** Writing a cell *)

Lemma well_shaped_iff (b : ndarray) :
  well_shaped b = true ↔
  length b = 6%nat ∧ Forall (λ r : list Z, length r = 7%nat) b.
Proof.
  unfold well_shaped. rewrite andb_true_iff, Nat.eqb_eq, forallb_forall.
  rewrite Forall_forall. setoid_rewrite Nat.eqb_eq.
  setoid_rewrite <- list_elem_of_In. reflexivity.
Qed.

Lemma norm_index_in_range {A} (l : list A) (i : Z) :
  0 ≤ i < Z.of_nat (length l) → norm_index l i = Some (Z.to_nat i).
Proof.
  intros Hi. unfold norm_index.
  destruct (Z.leb_spec 0 i); [|lia].
  destruct (Z.ltb_spec i (Z.of_nat (length l))); [done|lia].
Qed.

Lemma getitem_lookup (b : ndarray) (row col : Z) :
  well_shaped b = true → 0 ≤ row < BOARD_HEIGHT → 0 ≤ col < BOARD_WIDTH →
  ∃ r, b !! Z.to_nat row = Some r
       ∧ r !! Z.to_nat col = Some (Pure.cell b row col)
       ∧ length r = 7%nat.
Proof.
  intros Hb Hrow Hcol. pose proof (getitem_in_range b row col Hb Hrow Hcol) as Hg.
  apply well_shaped_rows in Hb as [Hl Hr].
  unfold BOARD_HEIGHT, BOARD_WIDTH in *.
  unfold getitem in Hg. rewrite index_in_range in Hg by lia.
  destruct (b !! Z.to_nat row) as [r|] eqn:Hbr; [|discriminate].
  exists r. rewrite bind_some in Hg.
  rewrite index_in_range in Hg by (rewrite (Hr _ _ Hbr); lia).
  eauto.
Qed.

Lemma setitem_in_range (b : ndarray) (row col piece : Z) :
  well_shaped b = true → 0 ≤ row < BOARD_HEIGHT → 0 ≤ col < BOARD_WIDTH →
  ∃ r, b !! Z.to_nat row = Some r
       ∧ r !! Z.to_nat col = Some (Pure.cell b row col)
       ∧ setitem b row col piece
         = Some (<[Z.to_nat row := <[Z.to_nat col := piece]> r]> b).
Proof.
  intros Hb Hrow Hcol.
  destruct (getitem_lookup b row col Hb Hrow Hcol) as (r & Hr & Hc & Hlen).
  exists r. split; [done|]. split; [done|].
  apply well_shaped_rows in Hb as [Hl _].
  unfold BOARD_HEIGHT, BOARD_WIDTH in *.
  unfold setitem. rewrite norm_index_in_range by lia. step_some.
  rewrite Hr. step_some. rewrite norm_index_in_range by lia. reflexivity.
Qed.

Lemma well_shaped_insert (b : ndarray) (i j : nat) (r : list Z) (piece : Z) :
  well_shaped b = true → b !! i = Some r →
  well_shaped (<[i := <[j := piece]> r]> b) = true.
Proof.
  rewrite !well_shaped_iff. intros [Hl Hf] Hr. split.
  - by rewrite length_insert.
  - apply Forall_insert; [done|]. rewrite length_insert.
    rewrite Forall_forall in Hf. apply Hf. by eapply list_elem_of_lookup_2.
Qed.

(** ** Counting cells *)

Lemma count_app (l1 l2 : list Z) (x : Z) :
  count (l1 ++ l2) x = count l1 x + count l2 x.
Proof. induction l1 as [|y l1 IH]; simpl; [done|]. rewrite IH. lia. Qed.

Lemma count_insert (l : list Z) (j : nat) (x p y : Z) :
  l !! j = Some x →
  count (<[j := p]> l) y
  = count l y - (if x =? y then 1 else 0) + (if p =? y then 1 else 0).
Proof.
  revert j. induction l as [|z l IH]; intros [|j] Hj; simplify_eq/=.
  - lia.
  - rewrite (IH j Hj). lia.
Qed.

Lemma count_concat_insert (b : ndarray) (i : nat) (r r' : list Z) (y : Z) :
  b !! i = Some r →
  count (concat (<[i := r']> b)) y = count (concat b) y - count r y + count r' y.
Proof.
  revert i. induction b as [|z b IH]; intros [|i] Hi; simplify_eq/=.
  - rewrite !count_app. lia.
  - rewrite !count_app, (IH i Hi). lia.
Qed.

Lemma count_nonneg (l : list Z) (x : Z) : 0 ≤ count l x.
Proof. induction l as [|y l IH]; simpl; [done|]. destruct (y =? x); lia. Qed.

Lemma apply_move_spec (b : ndarray) (col piece : Z) :
  well_shaped b = true → col ∈ Pure.get_valid_moves b → piece ≠ EMPTY →
  setitem b (Pure.get_next_open_row b col) col piece
  = Some (Pure.apply_move b col piece)
  ∧ well_shaped (Pure.apply_move b col piece) = true
  ∧ empties (Pure.apply_move b col piece) = empties b - 1.
Proof.
  intros Hb [Hcol Htop]%elem_of_valid_moves Hp.
  destruct (get_next_open_row_spec b col Htop) as [Hrow Hcell].
  destruct (setitem_in_range b _ col piece Hb Hrow Hcol) as (r & Hr & Hc & Hs).
  unfold Pure.apply_move. rewrite Hs. simpl. split; [done|]. split.
  - by apply well_shaped_insert.
  - unfold empties. rewrite (count_concat_insert _ _ r) by done.
    rewrite (count_insert _ _ _ _ _ Hc), Hcell.
    destruct (Z.eqb_spec piece EMPTY); [done|].
    destruct (Z.eqb_spec EMPTY EMPTY); [lia|done].
Qed.


(** ** Running the store monad *)

Lemma run_bind {A B} (m : M A) (f : A → M B) (h : heap) :
  (m ≫= f) h = match m h with Ok a h' => f a h' | Fail e => Fail e end.
Proof. reflexivity. Qed.

Lemma bind_Ok_inv {A B} (m : M A) (f : A → M B) (h h' : heap) (r : B) :
  (m ≫= f) h = Ok r h' → ∃ a h1, m h = Ok a h1 ∧ f a h1 = Ok r h'.
Proof. rewrite run_bind. destruct (m h) as [a h1|e]; [eauto|discriminate]. Qed.

Lemma lift_Ok_inv {A} (o : option A) (h h' : heap) (a : A) :
  lift o h = Ok a h' → o = Some a ∧ h' = h.
Proof. destruct o; simpl; [|discriminate]. by intros [= -> ->]. Qed.

Lemma call_Ok_inv {A} (f : ndarray → option A) (board : loc) (h h' : heap)
    (a : A) :
  call f board h = Ok a h' → h' = h ∧ ∃ b, h !! board = Some b ∧ f b = Some a.
Proof.
  unfold call. intros (b & h1 & Hl & Hf)%bind_Ok_inv.
  unfold load in Hl. destruct (h !! board) as [b'|] eqn:Hb; [|discriminate].
  injection Hl as -> ->. apply lift_Ok_inv in Hf as [Hf ->]. eauto.
Qed.

Lemma copy_Ok_inv (board : loc) (h h' : heap) (l : loc) :
  copy board h = Ok l h' →
  ∃ b, h !! board = Some b ∧ l = length h ∧ h' = h ++ [b].
Proof.
  unfold copy. destruct (h !! board) as [b|]; [|discriminate].
  intros [= <- <-]. eauto.
Qed.

Lemma drop_piece_Ok_inv (board : loc) (row col piece : Z) (h h' : heap) u :
  drop_piece board row col piece h = Ok u h' →
  ∃ b b', h !! board = Some b ∧ setitem b row col piece = Some b'
          ∧ h' = <[board := b']> h.
Proof.
  unfold drop_piece. destruct (h !! board) as [b|]; [|discriminate].
  destruct (setitem b row col piece) as [b'|] eqn:Hs; [|discriminate].
  intros [= _ <-]. eauto 10.
Qed.

(** The store after a copy followed by a write to the copy. *)
Lemma insert_fresh (h : heap) (b b' : ndarray) :
  <[length h := b']> (h ++ [b]) = h ++ [b'].
Proof.
  rewrite insert_app_r_alt by lia. by rewrite Nat.sub_diag.
Qed.

(** ** The store only grows *)

Section frame.
Variable self_minimax : loc → score → score → M (option Z * score).
Hypothesis child_frame : ∀ l a be h r h',
  self_minimax l a be h = Ok r h' → h `prefix_of` h'.

Lemma move_frame (board : loc) (col piece : Z) (alpha beta : score)
    (k : option Z * score → M (option Z * score)) (h h' : heap) r :
  (row ← call (λ b, get_next_open_row b col) board;
   board_copy ← copy board;
   drop_piece board_copy row col piece;;
   r ← self_minimax board_copy alpha beta; k r) h = Ok r h' →
  ∃ r1 h1, h `prefix_of` h1 ∧ k r1 h1 = Ok r h'.
Proof.
  intros (row & h1 & [-> _]%call_Ok_inv & H)%bind_Ok_inv.
  apply bind_Ok_inv in H as (l & h2 & (b & Hb & -> & ->)%copy_Ok_inv & H).
  apply bind_Ok_inv in H as (u & h3 & Hd & H).
  apply drop_piece_Ok_inv in Hd as (b1 & b' & _ & _ & ->).
  rewrite insert_fresh in H.
  apply bind_Ok_inv in H as (r1 & h4 & Hc%child_frame & H).
  exists r1, h4. split; [|done].
  etrans; [|exact Hc]. by apply prefix_app_r.
Qed.

Lemma max_loop_frame (board : loc) (moves : list Z) :
  ∀ alpha beta value column h r h',
  max_loop self_minimax board moves alpha beta value column h = Ok r h' →
  h `prefix_of` h'.
Proof.
  induction moves as [|col rest IH]; intros alpha beta value column h r h'.
  - simpl. by intros [= _ ->].
  - simpl. intros (r1 & h1 & Hp & H)%move_frame.
    destruct (score_ltb value r1.2);
      match type of H with
      | (if ?c then _ else _) _ = _ => destruct c
      end;
      first [ injection H as _ <-; done
            | etrans; [exact Hp|]; by eapply IH ].
Qed.

Lemma min_loop_frame (board : loc) (moves : list Z) :
  ∀ alpha beta value column h r h',
  min_loop self_minimax board moves alpha beta value column h = Ok r h' →
  h `prefix_of` h'.
Proof.
  induction moves as [|col rest IH]; intros alpha beta value column h r h'.
  - simpl. by intros [= _ ->].
  - simpl. intros (r1 & h1 & Hp & H)%move_frame.
    destruct (score_ltb r1.2 value);
      match type of H with
      | (if ?c then _ else _) _ = _ => destruct c
      end;
      first [ injection H as _ <-; done
            | etrans; [exact Hp|]; by eapply IH ].
Qed.
End frame.

Lemma minimax_frame (fuel : nat) :
  ∀ board depth alpha beta maximizing_player h r h',
  minimax fuel board depth alpha beta maximizing_player h = Ok r h' →
  h `prefix_of` h'.
Proof.
  induction fuel as [|fuel IH];
    intros board depth alpha beta maximizing_player h r h'; simpl.
  - discriminate.
  - intros (moves & h1 & [-> _]%call_Ok_inv & H)%bind_Ok_inv.
    apply bind_Ok_inv in H as (term & h1 & [-> _]%call_Ok_inv & H).
    destruct ((depth =? 0) || term).
    + destruct term.
      * apply bind_Ok_inv in H as (ai & h1 & [-> _]%call_Ok_inv & H).
        destruct ai; [by injection H as _ <-|].
        apply bind_Ok_inv in H as (pl & h1 & [-> _]%call_Ok_inv & H).
        destruct pl; by injection H as _ <-.
      * apply bind_Ok_inv in H as (s & h1 & [-> _]%call_Ok_inv & H).
        by injection H as _ <-.
    + destruct maximizing_player.
      * apply bind_Ok_inv in H as (c & h1 & [_ ->]%lift_Ok_inv & H).
        eapply max_loop_frame; [|exact H]. intros ??????. apply IH.
      * apply bind_Ok_inv in H as (c & h1 & [_ ->]%lift_Ok_inv & H).
        eapply min_loop_frame; [|exact H]. intros ??????. apply IH.
Qed.


Lemma call_Ok {A} (f : ndarray → option A) (board : loc) (h : heap) b a :
  h !! board = Some b → f b = Some a → call f board h = Ok a h.
Proof. intros Hb Hf. unfold call, load. rewrite run_bind, Hb. simpl. by rewrite Hf. Qed.

Lemma copy_Ok (board : loc) (h : heap) b :
  h !! board = Some b → copy board h = Ok (length h) (h ++ [b]).
Proof. intros Hb. unfold copy. by rewrite Hb. Qed.

Lemma drop_piece_Ok (board : loc) (row col piece : Z) (h : heap) b b' :
  h !! board = Some b → setitem b row col piece = Some b' →
  drop_piece board row col piece h = Ok tt (<[board := b']> h).
Proof. intros Hb Hs. unfold drop_piece. by rewrite Hb, Hs. Qed.

Lemma lookup_fresh (h : heap) (b : ndarray) : (h ++ [b]) !! length h = Some b.
Proof. rewrite lookup_app_r by lia. by rewrite Nat.sub_diag. Qed.

(** ** The search on the store computes the search on board values *)

Section refine.
Variable b : ndarray.
Hypothesis Hb : well_shaped b = true.
Variable piece : Z.
Hypothesis Hpiece : piece ≠ EMPTY.
Variable self_minimax : loc → score → score → M (option Z * score).
Variable child : Z → score → score → option score.
Hypothesis Hchild : child_refines b self_minimax child piece.

Lemma move_refines (board : loc) (col : Z) (alpha beta : score) (h : heap) :
  h !! board = Some b → col ∈ Pure.get_valid_moves b →
  let m k := (row ← call (λ b, get_next_open_row b col) board;
              board_copy ← copy board;
              drop_piece board_copy row col piece;;
              r ← self_minimax board_copy alpha beta; k r)
             : M (option Z * score) in
  match child col alpha beta with
  | Some s => ∃ r h1, r.2 = s ∧ h `prefix_of` h1 ∧ ∀ k, m k h = k r h1
  | None => ∀ k, m k h = Fail OutOfFuel
  end.
Proof.
  intros Hh Hcol m.
  destruct (apply_move_spec b col piece Hb Hcol Hpiece) as (Hset & _ & _).
  assert (Hrow : call (λ b, get_next_open_row b col) board h
                 = Ok (Pure.get_next_open_row b col) h).
  { eapply call_Ok; [done|]. apply get_next_open_row_total; [done|].
    by apply elem_of_valid_moves in Hcol as [? _]. }
  assert (Hm : ∀ k, m k h = (r ← self_minimax (length h) alpha beta; k r)
                              (h ++ [Pure.apply_move b col piece])).
  { intros k. subst m. cbv beta.
    rewrite run_bind, Hrow. rewrite run_bind, (copy_Ok _ _ _ Hh).
    rewrite run_bind.
    rewrite (drop_piece_Ok _ _ _ _ _ _ _ (lookup_fresh h b) Hset).
    by rewrite insert_fresh. }
  pose proof (Hchild col (length h) alpha beta
                (h ++ [Pure.apply_move b col piece]) Hcol
                (lookup_fresh _ _)) as Hc.
  destruct (child col alpha beta) as [s|].
  - destruct Hc as (r & h' & Hr & Hs & Hp).
    exists r, h'. split; [done|]. split.
    + etrans; [|exact Hp]. by apply prefix_app_r.
    + intros k. by rewrite Hm, run_bind, Hr.
  - intros k. by rewrite Hm, run_bind, Hc.
Qed.
End refine.

(** Closing a loop iteration: either the loop exits here, or the rest of
    the loop runs from the grown store. *)
Ltac finish_iteration IH Hmoves Hp h h1 board :=
  match goal with
  | |- context [if score_geb ?x ?y then _ else _] =>
      destruct (score_geb x y)
  end;
  [ simpl; exists h1; split; [reflexivity|exact Hp]
  | let Hh1 := fresh "Hh1" in
    assert (Hh1 : h1 !! board = Some _) by (by eapply prefix_lookup_Some);
    match goal with
    | |- context [@fmap option _ _ _ _ (?loop ?c ?rest ?a ?be ?v ?col)] =>
        specialize (IH (λ c Hc, Hmoves c (list_elem_of_further _ _ _ Hc))
                      a be v col h1 Hh1);
        unfold computes in IH;
        destruct (loop c rest a be v col) as [?|]; simpl in *;
        [ destruct IH as (h' & ? & ?); exists h'; split; [done|by etrans]
        | done ]
    end ].

Section refine_loops.
Variable b : ndarray.
Hypothesis Hb : well_shaped b = true.
Variable self_minimax : loc → score → score → M (option Z * score).
Variable child : Z → score → score → option score.

Lemma max_loop_refines (board : loc) (moves : list Z) :
  child_refines b self_minimax child AI_PIECE →
  (∀ col, col ∈ moves → col ∈ Pure.get_valid_moves b) →
  ∀ alpha beta value column h, h !! board = Some b →
  computes (max_loop self_minimax board moves alpha beta value column) h
    ((λ r, (Some r.1, r.2))
       <$> Pure.max_loop child moves alpha beta value column).
Proof.
  intros Hchild. induction moves as [|col rest IH];
    intros Hmoves alpha beta value column h Hh.
  - simpl. exists h. done.
  - simpl max_loop. simpl Pure.max_loop.
    pose proof (move_refines b Hb AI_PIECE ltac:(done) self_minimax child
                  Hchild board col alpha beta h Hh
                  (Hmoves col (list_elem_of_here _ _))) as Hm.
    cbv zeta in Hm. unfold computes.
    destruct (child col alpha beta) as [s|]; [|by rewrite Hm].
    destruct Hm as (r & h1 & <- & Hp & Hm). rewrite bind_some, Hm.
    destruct (score_ltb value r.2);
      finish_iteration IH Hmoves Hp h h1 board.
Qed.

Lemma min_loop_refines (board : loc) (moves : list Z) :
  child_refines b self_minimax child PLAYER_PIECE →
  (∀ col, col ∈ moves → col ∈ Pure.get_valid_moves b) →
  ∀ alpha beta value column h, h !! board = Some b →
  computes (min_loop self_minimax board moves alpha beta value column) h
    ((λ r, (Some r.1, r.2))
       <$> Pure.min_loop child moves alpha beta value column).
Proof.
  intros Hchild. induction moves as [|col rest IH];
    intros Hmoves alpha beta value column h Hh.
  - simpl. exists h. done.
  - simpl min_loop. simpl Pure.min_loop.
    pose proof (move_refines b Hb PLAYER_PIECE ltac:(done) self_minimax child
                  Hchild board col alpha beta h Hh
                  (Hmoves col (list_elem_of_here _ _))) as Hm.
    cbv zeta in Hm. unfold computes.
    destruct (child col alpha beta) as [s|]; [|by rewrite Hm].
    destruct Hm as (r & h1 & <- & Hp & Hm). rewrite bind_some, Hm.
    destruct (score_ltb r.2 value);
      finish_iteration IH Hmoves Hp h h1 board.
Qed.
End refine_loops.


Lemma index_head {A} (x : A) (l : list A) : index (x :: l) 0 = Some x.
Proof.
  unfold index, norm_index. simpl length.
  destruct (Z.ltb_spec 0 (Z.of_nat (S (length l)))); [done|lia].
Qed.

Lemma minimax_refines (fuel : nat) :
  ∀ board b depth alpha beta maximizing_player h,
  h !! board = Some b → well_shaped b = true →
  computes (minimax fuel board depth alpha beta maximizing_player) h
           (Pure.minimax fuel b depth alpha beta maximizing_player).
Proof.
  induction fuel as [|fuel IH];
    intros board b depth alpha beta maximizing_player h Hh Hb.
  - reflexivity.
  - assert (Hchild : ∀ piece mp, piece ≠ EMPTY →
      child_refines b
        (λ board_copy alpha beta,
           minimax fuel board_copy (depth - 1) alpha beta mp)
        (λ col alpha beta,
           snd <$> Pure.minimax fuel (Pure.apply_move b col piece)
                     (depth - 1) alpha beta mp) piece).
    { intros piece mp Hp col l a be h0 Hcol Hl.
      destruct (apply_move_spec b col piece Hb Hcol Hp) as (_ & Hb' & _).
      specialize (IH l _ (depth - 1) a be mp h0 Hl Hb').
      unfold computes in IH.
      destruct (Pure.minimax fuel _ (depth - 1) a be mp) as [r|]; simpl.
      - destruct IH as (h' & ? & ?). by exists r, h'.
      - done. }
    unfold computes. simpl minimax. simpl Pure.minimax.
    rewrite run_bind, (call_Ok _ _ _ _ _ Hh (get_valid_moves_total b Hb)).
    rewrite run_bind, (call_Ok _ _ _ _ _ Hh (is_terminal_node_total b Hb)).
    destruct ((depth =? 0) || Pure.is_terminal_node b) eqn:Hbase.
    + exists h. split; [|done]. unfold Pure.leaf_score.
      destruct (Pure.is_terminal_node b).
      * rewrite run_bind,
          (call_Ok _ _ _ _ _ Hh (winning_move_total b Hb AI_PIECE)).
        destruct (Pure.winning_move b AI_PIECE); [done|].
        rewrite run_bind,
          (call_Ok _ _ _ _ _ Hh (winning_move_total b Hb PLAYER_PIECE)).
        by destruct (Pure.winning_move b PLAYER_PIECE).
      * by rewrite run_bind,
          (call_Ok _ _ _ _ _ Hh (score_position_total b Hb AI_PIECE)).
    + apply orb_false_elim in Hbase as [_ Hterm].
      destruct (valid_moves_nonempty b Hterm) as [c0 Hc0].
      destruct (Pure.get_valid_moves b) as [|c1 rest] eqn:Hmoves;
        [by apply elem_of_nil in Hc0|].
      destruct maximizing_player.
      * rewrite run_bind, index_head. simpl lift. cbv beta iota.
        pose proof (max_loop_refines b Hb _ _ board (c1 :: rest)
                      (Hchild AI_PIECE false ltac:(done))
                      ltac:(by rewrite Hmoves)
                      alpha beta NegInf c1 h Hh) as Hl.
        unfold computes in Hl. simpl hd.
        match type of Hl with
        | match _ <$> ?o with _ => _ end => destruct o as [r|]
        end; exact Hl.
      * rewrite run_bind, index_head. simpl lift. cbv beta iota.
        pose proof (min_loop_refines b Hb _ _ board (c1 :: rest)
                      (Hchild PLAYER_PIECE true ltac:(done))
                      ltac:(by rewrite Hmoves)
                      alpha beta PosInf c1 h Hh) as Hl.
        unfold computes in Hl. simpl hd.
        match type of Hl with
        | match _ <$> ?o with _ => _ end => destruct o as [r|]
        end; exact Hl.
Qed.


(** ** The range of the heuristic *)

Lemma evaluate_window_bounds (window : list Z) (piece : Z) :
  -4 ≤ evaluate_window window piece ≤ 100.
Proof.
  unfold evaluate_window.
  repeat match goal with
  | |- context [if ?c then _ else _] => destruct c
  end; lia.
Qed.

Lemma sum_over_bounds {A} (l : list A) (g : A → Z) (lo hi : Z) :
  (∀ x, lo ≤ g x ≤ hi) →
  Z.of_nat (length l) * lo ≤ sum_over l g ≤ Z.of_nat (length l) * hi.
Proof.
  intros Hg. induction l as [|x l IH]; simpl sum_over; simpl length; [lia|].
  specialize (Hg x). lia.
Qed.

Lemma count_le_length (l : list Z) (x : Z) : count l x ≤ Z.of_nat (length l).
Proof.
  induction l as [|y l IH]; simpl count; simpl length; [lia|].
  destruct (y =? x); lia.
Qed.

Lemma windows_bounds (rows cols : list Z) (nr nc : Z)
    (w : Z → Z → list Z) (piece : Z) :
  Z.of_nat (length rows) = nr → Z.of_nat (length cols) = nc →
  nr * nc * -4
  ≤ sum_over rows (λ r, sum_over cols (λ c, evaluate_window (w r c) piece))
  ≤ nr * nc * 100.
Proof.
  intros <- <-.
  pose proof (sum_over_bounds rows
    (λ r, sum_over cols (λ c, evaluate_window (w r c) piece))
    (Z.of_nat (length cols) * -4) (Z.of_nat (length cols) * 100)) as H.
  cbv beta in H. rewrite !Z.mul_assoc in H. apply H.
  intros r. apply sum_over_bounds. intros c. apply evaluate_window_bounds.
Qed.

Lemma score_position_bounds (b : ndarray) (piece : Z) :
  -276 ≤ Pure.score_position b piece ≤ 6918.
Proof.
  unfold Pure.score_position.
  pose proof (count_nonneg
    ((λ row, Pure.cell b row (BOARD_WIDTH `div` 2)) <$> range BOARD_HEIGHT)
    piece) as Hc0.
  pose proof (count_le_length
    ((λ row, Pure.cell b row (BOARD_WIDTH `div` 2)) <$> range BOARD_HEIGHT)
    piece) as Hc1.
  rewrite length_fmap in Hc1.
  change (Z.of_nat (length (range BOARD_HEIGHT))) with 6 in Hc1.
  pose proof (windows_bounds (range BOARD_HEIGHT) (range (BOARD_WIDTH - 3))
    6 4 (λ row col, (λ i, Pure.cell b row (col + i)) <$> range WINDOW_LENGTH)
    piece eq_refl eq_refl) as H1.
  pose proof (windows_bounds (range BOARD_WIDTH) (range (BOARD_HEIGHT - 3))
    7 3 (λ col row, (λ i, Pure.cell b (row + i) col) <$> range WINDOW_LENGTH)
    piece eq_refl eq_refl) as H2.
  pose proof (windows_bounds (range (BOARD_HEIGHT - 3))
    (range (BOARD_WIDTH - 3)) 3 4
    (λ row col, (λ i, Pure.cell b (row + i) (col + i))
                  <$> range WINDOW_LENGTH)
    piece eq_refl eq_refl) as H3.
  pose proof (windows_bounds (range (BOARD_HEIGHT - 3))
    (range2 3 BOARD_WIDTH) 3 4
    (λ row col, (λ i, Pure.cell b (row + i) (col - i))
                  <$> range WINDOW_LENGTH)
    piece eq_refl eq_refl) as H4.
  cbv beta in *. lia.
Qed.


(** ** The order on scores *)

(** Order facts by cases on the scores. *)
Ltac score_cases :=
  unfold slt, sle, score_geb, score_max, score_min in *;
  repeat match goal with
  | x : score |- _ => destruct x
  end;
  simpl in *; try discriminate; try reflexivity;
  repeat match goal with
  | H : (_ <? _) = true |- _ => apply Z.ltb_lt in H
  | H : (_ <? _) = false |- _ => apply Z.ltb_ge in H
  | H : context [if ?a <? ?b then _ else _] |- _ =>
      destruct (Z.ltb_spec a b); simpl in H
  | |- context [if ?a <? ?b then _ else _] =>
      destruct (Z.ltb_spec a b); simpl
  | H : Fin _ = Fin _ |- _ => injection H as H
  end;
  rewrite ?Z.ltb_lt, ?Z.ltb_ge;
  try discriminate; try reflexivity; try lia; try (f_equal; lia).

Lemma slt_or_sle (x y : score) : slt x y ∨ sle y x.
Proof. unfold slt, sle. destruct (score_ltb x y); auto. Qed.

Lemma slt_not_sle (x y : score) : slt x y → sle y x → False.
Proof. unfold slt, sle. congruence. Qed.

Lemma sle_refl (x : score) : sle x x.
Proof. score_cases. Qed.

Lemma slt_sle (x y : score) : slt x y → sle x y.
Proof. intros. score_cases. Qed.

Lemma sle_trans (x y z : score) : sle x y → sle y z → sle x z.
Proof. intros. score_cases. Qed.

Lemma sle_slt_trans (x y z : score) : sle x y → slt y z → slt x z.
Proof. intros. score_cases. Qed.

Lemma slt_sle_trans (x y z : score) : slt x y → sle y z → slt x z.
Proof. intros. score_cases. Qed.

Lemma sle_antisym (x y : score) : sle x y → sle y x → x = y.
Proof. intros. score_cases. Qed.

Lemma sle_max_l (x y : score) : sle x (score_max x y).
Proof. score_cases. Qed.

Lemma sle_max_r (x y : score) : sle y (score_max x y).
Proof. score_cases. Qed.

Lemma score_max_lub (x y z : score) :
  sle x z → sle y z → sle (score_max x y) z.
Proof. unfold score_max. destruct (score_ltb x y); auto. Qed.

Lemma score_max_lub_lt (x y z : score) :
  slt x z → slt y z → slt (score_max x y) z.
Proof. unfold score_max. destruct (score_ltb x y); auto. Qed.

Lemma sle_min_l (x y : score) : sle (score_min x y) x.
Proof. score_cases. Qed.

Lemma sle_min_r (x y : score) : sle (score_min x y) y.
Proof. score_cases. Qed.

Lemma score_min_glb (x y z : score) :
  sle z x → sle z y → sle z (score_min x y).
Proof. unfold score_min. destruct (score_ltb y x); auto. Qed.

Lemma score_min_glb_lt (x y z : score) :
  slt z x → slt z y → slt z (score_min x y).
Proof. unfold score_min. destruct (score_ltb y x); auto. Qed.

Lemma score_max_update (a v v' : score) :
  sle v v' → score_max (score_max a v) v' = score_max a v'.
Proof. intros. score_cases. Qed.

Lemma score_min_update (a v v' : score) :
  sle v' v → score_min (score_min a v) v' = score_min a v'.
Proof. intros. score_cases. Qed.

Lemma score_geb_true (x y : score) : score_geb x y = true ↔ sle y x.
Proof. unfold score_geb, sle. by destruct (score_ltb x y). Qed.

Lemma score_geb_false (x y : score) : score_geb x y = false ↔ slt x y.
Proof. unfold score_geb, slt. by destruct (score_ltb x y). Qed.

(** ** Alpha-beta search against the exhaustive search *)

Lemma fail_soft_exact (alpha beta v : score) : fail_soft alpha beta v v.
Proof. split; intros _; apply sle_refl. Qed.

Lemma fail_soft_full (v w : score) : fail_soft NegInf PosInf v w → w = v.
Proof.
  intros [U L]. destruct w as [|z|].
  - apply sle_antisym; [|apply U; reflexivity]. by destruct v.
  - apply sle_antisym; [apply L|apply U]; reflexivity.
  - apply sle_antisym; [apply L; reflexivity|]. by destruct v.
Qed.

Lemma fail_soft_max_step (a0 be V value v w : score) :
  fail_soft a0 be V value → fail_soft (score_max a0 value) be v w →
  fail_soft a0 be (score_max V v) (score_max value w).
Proof.
  intros [U L] [u l]. split.
  - intros Hlt. apply score_max_lub.
    + eapply sle_trans; [|apply sle_max_l]. apply U.
      eapply sle_slt_trans; [apply sle_max_l|exact Hlt].
    + eapply sle_trans; [|apply sle_max_r]. apply u.
      eapply sle_slt_trans; [apply sle_max_r|exact Hlt].
  - unfold score_max at 1 2. destruct (score_ltb value w) eqn:E; intros Hlt.
    + eapply sle_trans; [|apply sle_max_r]. apply l.
      by apply score_max_lub_lt.
    + eapply sle_trans; [|apply sle_max_l]. by apply L.
Qed.

Lemma fail_soft_min_step (a be0 V value v w : score) :
  fail_soft a be0 V value → fail_soft a (score_min be0 value) v w →
  fail_soft a be0 (score_min V v) (score_min value w).
Proof.
  intros [U L] [u l]. split.
  - unfold score_min at 1 3. destruct (score_ltb w value) eqn:E; intros Hlt.
    + eapply sle_trans; [apply sle_min_r|]. apply u.
      by apply score_min_glb_lt.
    + eapply sle_trans; [apply sle_min_l|]. by apply U.
  - intros Hlt. apply score_min_glb.
    + eapply sle_trans; [apply sle_min_l|]. apply L.
      eapply slt_sle_trans; [exact Hlt|apply sle_min_l].
    + eapply sle_trans; [apply sle_min_r|]. apply l.
      eapply slt_sle_trans; [exact Hlt|apply sle_min_r].
Qed.

Lemma cutoff_max (a0 be value : score) :
  slt a0 be → sle be (score_max a0 value) → sle be value.
Proof.
  unfold score_max. destruct (score_ltb a0 value); [done|].
  intros H1 H2. destruct (slt_not_sle _ _ H1 H2).
Qed.

Lemma cutoff_min (a be0 value : score) :
  slt a be0 → sle (score_min be0 value) a → sle value a.
Proof.
  unfold score_min. destruct (score_ltb value be0); [done|].
  intros H1 H2. destruct (slt_not_sle _ _ H1 H2).
Qed.

(** One iteration of each loop, with the running value as a maximum or a
    minimum. *)
Lemma max_loop_cons child col rest alpha beta value column :
  Pure.max_loop child (col :: rest) alpha beta value column
  = new_score ← child col alpha beta;
    let value' := score_max value new_score in
    let column' := if score_ltb value new_score then col else column in
    if score_geb (score_max alpha value') beta then Some (column', value')
    else Pure.max_loop child rest (score_max alpha value') beta value' column'.
Proof.
  simpl. destruct (child col alpha beta) as [w|]; [|done]. simpl.
  change (score_max value w) with (if score_ltb value w then w else value).
  by destruct (score_ltb value w).
Qed.

Lemma min_loop_cons child col rest alpha beta value column :
  Pure.min_loop child (col :: rest) alpha beta value column
  = new_score ← child col alpha beta;
    let value' := score_min value new_score in
    let column' := if score_ltb new_score value then col else column in
    if score_geb alpha (score_min beta value') then Some (column', value')
    else Pure.min_loop child rest alpha (score_min beta value') value' column'.
Proof.
  simpl. destruct (child col alpha beta) as [w|]; [|done]. simpl.
  change (score_min value w) with (if score_ltb w value then w else value).
  by destruct (score_ltb w value).
Qed.

Lemma exhaustive_loop_cons_max child col rest value column :
  exhaustive_loop child true (col :: rest) value column
  = new_score ← child col;
    exhaustive_loop child true rest (score_max value new_score)
      (if score_ltb value new_score then col else column).
Proof.
  simpl. destruct (child col) as [v|]; [|done]. simpl.
  unfold score_max. by destruct (score_ltb value v).
Qed.

Lemma exhaustive_loop_cons_min child col rest value column :
  exhaustive_loop child false (col :: rest) value column
  = new_score ← child col;
    exhaustive_loop child false rest (score_min value new_score)
      (if score_ltb new_score value then col else column).
Proof.
  simpl. destruct (child col) as [v|]; [|done]. simpl.
  unfold score_min. by destruct (score_ltb v value).
Qed.

Lemma exhaustive_loop_ge child moves :
  ∀ value column r,
  exhaustive_loop child true moves value column = Some r → sle value r.2.
Proof.
  induction moves as [|col rest IH]; intros value column r.
  - intros [= <-]. apply sle_refl.
  - rewrite exhaustive_loop_cons_max.
    destruct (child col) as [v|]; [|done]. rewrite bind_some.
    intros H%IH. eapply sle_trans; [apply sle_max_l|exact H].
Qed.

Lemma exhaustive_loop_le child moves :
  ∀ value column r,
  exhaustive_loop child false moves value column = Some r → sle r.2 value.
Proof.
  induction moves as [|col rest IH]; intros value column r.
  - intros [= <-]. apply sle_refl.
  - rewrite exhaustive_loop_cons_min.
    destruct (child col) as [v|]; [|done]. rewrite bind_some.
    intros H%IH. eapply sle_trans; [exact H|apply sle_min_l].
Qed.

Section alphabeta_loops.
Variable child_ex : Z → option score.
Variable child : Z → score → score → option score.
Variable moves0 : list Z.
Hypothesis Hchild : ∀ col a be v,
  col ∈ moves0 → slt a be → child_ex col = Some v →
  ∃ w, child col a be = Some w ∧ fail_soft a be v w.

Lemma max_loop_fail_soft (moves : list Z) :
  (∀ col, col ∈ moves → col ∈ moves0) →
  ∀ a0 be value V column cex r,
  slt a0 be → slt (score_max a0 value) be → fail_soft a0 be V value →
  exhaustive_loop child_ex true moves V cex = Some r →
  ∃ c w, Pure.max_loop child moves (score_max a0 value) be value column
         = Some (c, w)
         ∧ fail_soft a0 be r.2 w.
Proof.
  induction moves as [|col rest IH];
    intros Hin a0 be value V column cex r Hab Hcur Hfs.
  - intros [= <-]. by exists column, value.
  - rewrite exhaustive_loop_cons_max, max_loop_cons.
    destruct (child_ex col) as [v|] eqn:Hv; [|done]. rewrite bind_some.
    destruct (Hchild col (score_max a0 value) be v) as (w & -> & Hw);
      [apply Hin, list_elem_of_here|done..|].
    rewrite bind_some. cbv zeta. intros Hr.
    pose proof (fail_soft_max_step _ _ _ _ _ _ Hfs Hw) as Hstep.
    rewrite score_max_update by apply sle_max_l.
    destruct (score_geb (score_max a0 (score_max value w)) be) eqn:Hcut.
    + eexists _, _. split; [done|].
      apply score_geb_true, cutoff_max in Hcut; [|done].
      split; intros Hlt.
      * destruct (slt_not_sle _ _ Hlt Hcut).
      * eapply sle_trans; [by apply Hstep|].
        by eapply exhaustive_loop_ge.
    + apply score_geb_false in Hcut.
      eapply IH; [|done..].
      intros c Hc. by apply Hin, list_elem_of_further.
Qed.

Lemma min_loop_fail_soft (moves : list Z) :
  (∀ col, col ∈ moves → col ∈ moves0) →
  ∀ a be0 value V column cex r,
  slt a be0 → slt a (score_min be0 value) → fail_soft a be0 V value →
  exhaustive_loop child_ex false moves V cex = Some r →
  ∃ c w, Pure.min_loop child moves a (score_min be0 value) value column
         = Some (c, w)
         ∧ fail_soft a be0 r.2 w.
Proof.
  induction moves as [|col rest IH];
    intros Hin a be0 value V column cex r Hab Hcur Hfs.
  - intros [= <-]. by exists column, value.
  - rewrite exhaustive_loop_cons_min, min_loop_cons.
    destruct (child_ex col) as [v|] eqn:Hv; [|done]. rewrite bind_some.
    destruct (Hchild col a (score_min be0 value) v) as (w & -> & Hw);
      [apply Hin, list_elem_of_here|done..|].
    rewrite bind_some. cbv zeta. intros Hr.
    pose proof (fail_soft_min_step _ _ _ _ _ _ Hfs Hw) as Hstep.
    rewrite score_min_update by apply sle_min_l.
    destruct (score_geb a (score_min be0 (score_min value w))) eqn:Hcut.
    + eexists _, _. split; [done|].
      apply score_geb_true, cutoff_min in Hcut; [|done].
      split; intros Hlt.
      * eapply sle_trans; [by eapply exhaustive_loop_le|].
        by apply Hstep.
      * destruct (slt_not_sle _ _ Hlt Hcut).
    + apply score_geb_false in Hcut.
      eapply IH; [|done..].
      intros c Hc. by apply Hin, list_elem_of_further.
Qed.
End alphabeta_loops.


Lemma score_max_NegInf (a : score) : score_max a NegInf = a.
Proof. by destruct a. Qed.

Lemma score_min_PosInf (a : score) : score_min a PosInf = a.
Proof. by destruct a. Qed.

(** The pruned search stands for the exhaustive one at every node. *)
Lemma alphabeta_fail_soft (fuel : nat) :
  ∀ b depth a be mp r,
  slt a be → exhaustive_minimax fuel b depth mp = Some r →
  ∃ c w, Pure.minimax fuel b depth a be mp = Some (c, w)
         ∧ fail_soft a be r.2 w.
Proof.
  induction fuel as [|fuel IH]; intros b depth a be mp r Hab; [done|].
  simpl.
  destruct ((depth =? 0) || Pure.is_terminal_node b).
  { intros [= <-]. eexists _, _. split; [done|]. apply fail_soft_exact. }
  destruct mp; simpl.
  - destruct (exhaustive_loop _ true _ _ _) as [r'|] eqn:Hex; [|done].
    intros [= <-]. simpl.
    eapply (max_loop_fail_soft _
              (λ col alpha beta,
                 snd <$> Pure.minimax fuel (Pure.apply_move b col AI_PIECE)
                           (depth - 1) alpha beta false)
              (Pure.get_valid_moves b))
      with (a0 := a) (be := be) (value := NegInf) (V := NegInf)
           (column := hd 0 (Pure.get_valid_moves b)) in Hex as (c & w & Hl & Hfs);
      [ |
      | done | done | by rewrite score_max_NegInf
      | split; intros _; apply sle_refl ].
    + rewrite score_max_NegInf in Hl. rewrite Hl. simpl. by eexists _, _.
    + intros col a' be' v _ Hab'.
      destruct (exhaustive_minimax fuel _ (depth - 1) false) as [r1|] eqn:H1;
        [|done].
      intros [= <-].
      destruct (IH _ _ a' be' _ _ Hab' H1) as (c1 & w1 & -> & Hfs1).
      by exists w1.
  - destruct (exhaustive_loop _ false _ _ _) as [r'|] eqn:Hex; [|done].
    intros [= <-]. simpl.
    eapply (min_loop_fail_soft _
              (λ col alpha beta,
                 snd <$> Pure.minimax fuel
                           (Pure.apply_move b col PLAYER_PIECE)
                           (depth - 1) alpha beta true)
              (Pure.get_valid_moves b))
      with (a := a) (be0 := be) (value := PosInf) (V := PosInf)
           (column := hd 0 (Pure.get_valid_moves b)) in Hex as (c & w & Hl & Hfs);
      [ |
      | done | done | by rewrite score_min_PosInf
      | split; intros _; apply sle_refl ].
    + rewrite score_min_PosInf in Hl. rewrite Hl. simpl. by eexists _, _.
    + intros col a' be' v _ Hab'.
      destruct (exhaustive_minimax fuel _ (depth - 1) true) as [r1|] eqn:H1;
        [|done].
      intros [= <-].
      destruct (IH _ _ a' be' _ _ Hab' H1) as (c1 & w1 & -> & Hfs1).
      by exists w1.
Qed.

(** ** The root: the same column *)

Lemma root_step (value v w : score) :
  value ≠ PosInf → fail_soft value PosInf v w →
  score_ltb value w = score_ltb value v ∧ score_max value w = score_max value v.
Proof.
  intros Hv [U L].
  destruct (score_ltb value v) eqn:Ev.
  - assert (Hw : w = v).
    { destruct (slt_or_sle w PosInf) as [Hlt|Hge].
      - apply sle_antisym; [|by apply U]. apply L.
        eapply slt_sle_trans; [exact Ev|by apply U].
      - assert (w = PosInf) as -> by (by destruct w).
        apply sle_antisym; [|by destruct v]. apply L. by destruct value. }
    subst w. by rewrite Ev.
  - destruct (score_ltb value w) eqn:Ew.
    + exfalso. pose proof (L Ew) as Hwv.
      apply (slt_not_sle value v); [|exact Ev].
      by eapply slt_sle_trans.
    + split; [done|]. unfold score_max. by rewrite Ew, Ev.
Qed.

Lemma exhaustive_loop_top child moves :
  ∀ column r,
  exhaustive_loop child true moves PosInf column = Some r →
  r = (column, PosInf).
Proof.
  induction moves as [|col rest IH]; intros column r.
  - by intros [= <-].
  - simpl. destruct (child col) as [v|]; [|done]. simpl.
    replace (score_ltb PosInf v) with false by (by destruct v). apply IH.
Qed.

Section root_loop.
Variable child_ex : Z → option score.
Variable child : Z → score → score → option score.
Variable moves0 : list Z.
Hypothesis Hchild : ∀ col a be v,
  col ∈ moves0 → slt a be → child_ex col = Some v →
  ∃ w, child col a be = Some w ∧ fail_soft a be v w.

Lemma max_loop_root (moves : list Z) :
  (∀ col, col ∈ moves → col ∈ moves0) →
  ∀ value column r, value ≠ PosInf →
  exhaustive_loop child_ex true moves value column = Some r →
  Pure.max_loop child moves value PosInf value column = Some r.
Proof.
  induction moves as [|col rest IH]; intros Hin value column r Hv.
  - done.
  - rewrite exhaustive_loop_cons_max, max_loop_cons.
    destruct (child_ex col) as [v|] eqn:Hex; [|done]. rewrite bind_some.
    destruct (Hchild col value PosInf v) as (w & -> & Hw);
      [apply Hin, list_elem_of_here|by destruct value|done|].
    rewrite bind_some. cbv zeta.
    destruct (root_step _ _ _ Hv Hw) as [-> ->].
    replace (score_max value (score_max value v)) with (score_max value v)
      by (unfold score_max; destruct (score_ltb value v) eqn:E;
          [by rewrite E|by rewrite sle_refl]).
    destruct (score_geb (score_max value v) PosInf) eqn:Hcut.
    + assert (score_max value v = PosInf) as ->
        by (by destruct (score_max value v)).
      by intros ->%exhaustive_loop_top.
    + apply IH; [|by destruct (score_max value v)].
      intros c Hc. by apply Hin, list_elem_of_further.
Qed.
End root_loop.

(** With the full window and the mover to play, the pruned search returns
    the column and the score of the exhaustive search. *)
Lemma minimax_root_exhaustive (fuel : nat) (b : ndarray) (depth : Z) r :
  exhaustive_minimax fuel b depth true = Some r →
  Pure.minimax fuel b depth NegInf PosInf true = Some r.
Proof.
  destruct fuel as [|fuel]; [done|]. simpl.
  destruct ((depth =? 0) || Pure.is_terminal_node b); [done|].
  destruct (exhaustive_loop _ true _ _ _) as [r'|] eqn:Hex; [|done].
  intros [= <-].
  eapply (max_loop_root _
            (λ col alpha beta,
               snd <$> Pure.minimax fuel (Pure.apply_move b col AI_PIECE)
                         (depth - 1) alpha beta false)
            (Pure.get_valid_moves b)) in Hex; [by rewrite Hex| |done|done].
  intros col a' be' v _ Hab'. simpl.
  destruct (exhaustive_minimax fuel _ (depth - 1) false) as [r1|] eqn:H1;
    [|done].
  intros [= <-].
  destruct (alphabeta_fail_soft fuel _ _ a' be' _ _ Hab' H1)
    as (c1 & w1 & -> & Hfs1).
  by exists w1.
Qed.


(** ** Termination *)

Lemma enough_fuel_child (fuel : nat) (depth : Z) (b : ndarray) (col piece : Z) :
  well_shaped b = true → col ∈ Pure.get_valid_moves b → piece ≠ EMPTY →
  (depth =? 0) = false → enough_fuel (S fuel) depth b →
  well_shaped (Pure.apply_move b col piece) = true
  ∧ enough_fuel fuel (depth - 1) (Pure.apply_move b col piece).
Proof.
  intros Hb Hcol Hp Hd Hf.
  destruct (apply_move_spec b col piece Hb Hcol Hp) as (_ & Hb' & He).
  split; [done|]. apply Z.eqb_neq in Hd.
  unfold enough_fuel in *. rewrite He. lia.
Qed.

Lemma enough_fuel_pos (depth : Z) (b : ndarray) : ¬ enough_fuel 0 depth b.
Proof.
  unfold enough_fuel, empties. pose proof (count_nonneg (concat b) EMPTY). lia.
Qed.

Lemma exhaustive_loop_some child mp moves :
  (∀ col, col ∈ moves → is_Some (child col)) →
  ∀ value column, is_Some (exhaustive_loop child mp moves value column).
Proof.
  induction moves as [|col rest IH]; intros Hc value column; [by eexists|].
  simpl. destruct (Hc col) as [v ->]; [apply list_elem_of_here|]. simpl.
  match goal with |- context [if ?c then _ else _] => destruct c end;
    apply IH; intros c Hin; by apply Hc, list_elem_of_further.
Qed.

Lemma max_loop_some child moves :
  (∀ col a be, col ∈ moves → is_Some (child col a be)) →
  ∀ alpha beta value column,
  is_Some (Pure.max_loop child moves alpha beta value column).
Proof.
  induction moves as [|col rest IH]; intros Hc alpha beta value column;
    [by eexists|].
  rewrite max_loop_cons.
  destruct (Hc col alpha beta) as [v ->]; [apply list_elem_of_here|].
  rewrite bind_some. cbv zeta.
  match goal with |- context [if ?c then _ else _] => destruct c end;
    [by eexists|].
  apply IH; intros c ?? Hin; by apply Hc, list_elem_of_further.
Qed.

Lemma min_loop_some child moves :
  (∀ col a be, col ∈ moves → is_Some (child col a be)) →
  ∀ alpha beta value column,
  is_Some (Pure.min_loop child moves alpha beta value column).
Proof.
  induction moves as [|col rest IH]; intros Hc alpha beta value column;
    [by eexists|].
  rewrite min_loop_cons.
  destruct (Hc col alpha beta) as [v ->]; [apply list_elem_of_here|].
  rewrite bind_some. cbv zeta.
  match goal with |- context [if ?c then _ else _] => destruct c end;
    [by eexists|].
  apply IH; intros c ?? Hin; by apply Hc, list_elem_of_further.
Qed.

Lemma pure_minimax_terminates (fuel : nat) :
  ∀ b depth alpha beta mp,
  well_shaped b = true → enough_fuel fuel depth b →
  is_Some (Pure.minimax fuel b depth alpha beta mp).
Proof.
  induction fuel as [|fuel IH]; intros b depth alpha beta mp Hb Hf.
  - by apply enough_fuel_pos in Hf.
  - simpl.
    destruct ((depth =? 0) || Pure.is_terminal_node b) eqn:Hbase;
      [by eexists|].
    apply orb_false_elim in Hbase as [Hd _].
    destruct mp.
    + destruct (max_loop_some
        (λ col alpha beta,
           snd <$> Pure.minimax fuel (Pure.apply_move b col AI_PIECE)
                     (depth - 1) alpha beta false)
        (Pure.get_valid_moves b)) with (alpha := alpha) (beta := beta)
        (value := NegInf) (column := hd 0 (Pure.get_valid_moves b))
        as [r ->]; [|by eexists].
      intros col a be Hcol.
      destruct (enough_fuel_child fuel depth b col AI_PIECE) as [Hb' Hf'];
        [done..|].
      destruct (IH _ (depth - 1) a be false Hb' Hf') as [r ->]. by eexists.
    + destruct (min_loop_some
        (λ col alpha beta,
           snd <$> Pure.minimax fuel (Pure.apply_move b col PLAYER_PIECE)
                     (depth - 1) alpha beta true)
        (Pure.get_valid_moves b)) with (alpha := alpha) (beta := beta)
        (value := PosInf) (column := hd 0 (Pure.get_valid_moves b))
        as [r ->]; [|by eexists].
      intros col a be Hcol.
      destruct (enough_fuel_child fuel depth b col PLAYER_PIECE) as [Hb' Hf'];
        [done..|].
      destruct (IH _ (depth - 1) a be true Hb' Hf') as [r ->]. by eexists.
Qed.

Lemma exhaustive_terminates (fuel : nat) :
  ∀ b depth mp,
  well_shaped b = true → enough_fuel fuel depth b →
  is_Some (exhaustive_minimax fuel b depth mp).
Proof.
  induction fuel as [|fuel IH]; intros b depth mp Hb Hf.
  - by apply enough_fuel_pos in Hf.
  - simpl.
    destruct ((depth =? 0) || Pure.is_terminal_node b) eqn:Hbase;
      [by eexists|].
    apply orb_false_elim in Hbase as [Hd _].
    match goal with
    | |- is_Some (exhaustive_loop ?c ?m ?l ?v ?k ≫= _) =>
        destruct (exhaustive_loop_some c m l) with (value := v) (column := k)
          as [r ->]; [|by eexists]
    end.
    intros col Hcol.
    destruct (enough_fuel_child fuel depth b col
                (if mp then AI_PIECE else PLAYER_PIECE)) as [Hb' Hf'];
      [done|done|by destruct mp|done|done|].
    destruct (IH _ (depth - 1) (negb mp) Hb' Hf') as [r ->]. by eexists.
Qed.

(** ** The column and the score of a search *)

Lemma max_loop_column child moves :
  ∀ alpha beta value column r,
  Pure.max_loop child moves alpha beta value column = Some r →
  r.1 = column ∨ r.1 ∈ moves.
Proof.
  induction moves as [|col rest IH]; intros alpha beta value column r.
  - intros [= <-]. by left.
  - rewrite max_loop_cons.
    destruct (child col alpha beta) as [w|]; [|done]. rewrite bind_some.
    cbv zeta.
    match goal with |- context [if score_geb ?x ?y then _ else _] =>
      destruct (score_geb x y) end.
    + intros [= <-]. simpl. destruct (score_ltb value w); [right|by left].
      apply list_elem_of_here.
    + intros [->|Hin]%IH.
      * destruct (score_ltb value w); [right|by left]. apply list_elem_of_here.
      * right. by apply list_elem_of_further.
Qed.

Lemma hd_elem_of (c : Z) (moves : list Z) :
  c ∈ moves → hd 0 moves ∈ moves.
Proof. destruct moves; [by intros ?%elem_of_nil|]. intros _. apply list_elem_of_here. Qed.

(** At a position that is not terminal, and with depth left, the mover's
    search returns a legal column. *)
Lemma pure_minimax_column (fuel : nat) (b : ndarray) (depth : Z)
    (alpha beta : score) r :
  Pure.is_terminal_node b = false → depth ≠ 0 →
  Pure.minimax fuel b depth alpha beta true = Some r →
  ∃ c, r.1 = Some c ∧ c ∈ Pure.get_valid_moves b.
Proof.
  intros Hterm Hd. destruct fuel as [|fuel]; [done|]. simpl.
  apply Z.eqb_neq in Hd. rewrite Hd, Hterm. simpl.
  destruct (Pure.max_loop _ _ _ _ _ _) as [r'|] eqn:Hl; [|done].
  intros [= <-]. exists r'.1. split; [done|].
  destruct (valid_moves_nonempty b Hterm) as [c0 Hc0].
  apply max_loop_column in Hl as [->|Hin]; [|done].
  by eapply hd_elem_of.
Qed.


(** ** A larger recursion bound gives the same result *)

Lemma max_loop_mono child child' moves :
  (∀ col a be s, child col a be = Some s → child' col a be = Some s) →
  ∀ alpha beta value column r,
  Pure.max_loop child moves alpha beta value column = Some r →
  Pure.max_loop child' moves alpha beta value column = Some r.
Proof.
  intros Hc. induction moves as [|col rest IH];
    intros alpha beta value column r; [done|].
  rewrite !max_loop_cons.
  destruct (child col alpha beta) as [s|] eqn:Hs; [|done].
  rewrite (Hc _ _ _ _ Hs), !bind_some. cbv zeta.
  match goal with |- context [if ?c then _ else _] => destruct c end;
    [done|apply IH].
Qed.

Lemma min_loop_mono child child' moves :
  (∀ col a be s, child col a be = Some s → child' col a be = Some s) →
  ∀ alpha beta value column r,
  Pure.min_loop child moves alpha beta value column = Some r →
  Pure.min_loop child' moves alpha beta value column = Some r.
Proof.
  intros Hc. induction moves as [|col rest IH];
    intros alpha beta value column r; [done|].
  rewrite !min_loop_cons.
  destruct (child col alpha beta) as [s|] eqn:Hs; [|done].
  rewrite (Hc _ _ _ _ Hs), !bind_some. cbv zeta.
  match goal with |- context [if ?c then _ else _] => destruct c end;
    [done|apply IH].
Qed.

Lemma pure_minimax_fuel_S (fuel : nat) :
  ∀ b depth alpha beta mp r,
  Pure.minimax fuel b depth alpha beta mp = Some r →
  Pure.minimax (S fuel) b depth alpha beta mp = Some r.
Proof.
  induction fuel as [|fuel IH]; intros b depth alpha beta mp r; [done|].
  intros H. simpl in H.
  change (Pure.minimax (S (S fuel)) b depth alpha beta mp)
    with (let valid_moves := Pure.get_valid_moves b in
          if (depth =? 0) || Pure.is_terminal_node b
          then Some (None, Fin (Pure.leaf_score b))
          else if mp then
            r ← Pure.max_loop (λ col alpha beta,
                   snd <$> Pure.minimax (S fuel)
                             (Pure.apply_move b col AI_PIECE) (depth - 1)
                             alpha beta false)
                 valid_moves alpha beta NegInf (hd 0 valid_moves);
            Some (Some r.1, r.2)
          else
            r ← Pure.min_loop (λ col alpha beta,
                   snd <$> Pure.minimax (S fuel)
                             (Pure.apply_move b col PLAYER_PIECE) (depth - 1)
                             alpha beta true)
                 valid_moves alpha beta PosInf (hd 0 valid_moves);
            Some (Some r.1, r.2)).
  cbv zeta.
  destruct ((depth =? 0) || Pure.is_terminal_node b); [done|].
  destruct mp.
  - destruct (Pure.max_loop _ _ _ _ _ _) as [r'|] eqn:Hl; [|done].
    erewrite max_loop_mono; [exact H| |exact Hl].
    intros col a be s. cbv beta.
    destruct (Pure.minimax fuel (Pure.apply_move b col AI_PIECE) (depth - 1)
                a be false) as [r1|] eqn:H1; [|done].
    by rewrite (IH _ _ _ _ _ _ H1).
  - destruct (Pure.min_loop _ _ _ _ _ _) as [r'|] eqn:Hl; [|done].
    erewrite min_loop_mono; [exact H| |exact Hl].
    intros col a be s. cbv beta.
    destruct (Pure.minimax fuel (Pure.apply_move b col PLAYER_PIECE)
                (depth - 1) a be true) as [r1|] eqn:H1; [|done].
    by rewrite (IH _ _ _ _ _ _ H1).
Qed.

Lemma pure_minimax_fuel_le (fuel fuel' : nat) b depth alpha beta mp r :
  (fuel ≤ fuel')%nat →
  Pure.minimax fuel b depth alpha beta mp = Some r →
  Pure.minimax fuel' b depth alpha beta mp = Some r.
Proof.
  induction 1 as [|fuel' _ IH]; [done|].
  intros H. by apply pure_minimax_fuel_S, IH.
Qed.

(** ** The scores of the exhaustive search *)

Lemma leaf_score_bounds (b : ndarray) :
  -100000000 ≤ Pure.leaf_score b ≤ 100000000.
Proof.
  unfold Pure.leaf_score. pose proof (score_position_bounds b AI_PIECE).
  repeat match goal with
  | |- context [if ?c then _ else _] => destruct c
  end; lia.
Qed.

Lemma exhaustive_loop_result child mp moves :
  ∀ value column r,
  exhaustive_loop child mp moves value column = Some r →
  r = (column, value) ∨ (r.1 ∈ moves ∧ child r.1 = Some r.2).
Proof.
  induction moves as [|col rest IH]; intros value column r.
  - intros [= <-]. by left.
  - simpl. destruct (child col) as [v|] eqn:Hv; [|done]. simpl.
    match goal with |- context [if ?c then _ else _] => destruct c end;
      intros [->|[Hin Hc]]%IH.
    + right. split; [apply list_elem_of_here|done].
    + right. split; [by apply list_elem_of_further|done].
    + by left.
    + right. split; [by apply list_elem_of_further|done].
Qed.

(** A loop that returns has a score for every move. *)
Lemma exhaustive_loop_children child mp moves :
  ∀ value column r,
  exhaustive_loop child mp moves value column = Some r →
  ∀ col, col ∈ moves → is_Some (child col).
Proof.
  induction moves as [|col0 rest IH]; intros value column r Hl col Hin.
  - by apply elem_of_nil in Hin.
  - simpl in Hl. destruct (child col0) as [v|] eqn:Hv; [|done]. simpl in Hl.
    apply elem_of_cons in Hin as [->|Hin]; [by eexists|].
    revert Hl.
    match goal with |- context [if ?c then _ else _] => destruct c end;
      intros Hl; by eapply IH.
Qed.

(** From the initial value the first move is always taken. *)
Lemma exhaustive_loop_start child (mp : bool) col rest column r :
  (∀ v, child col = Some v → bounded v) →
  exhaustive_loop child mp (col :: rest)
    (if mp then NegInf else PosInf) column = Some r →
  r.1 ∈ col :: rest ∧ child r.1 = Some r.2.
Proof.
  intros Hb. simpl. destruct (child col) as [v|] eqn:Hv; [|done]. simpl.
  destruct (Hb v eq_refl) as (z & -> & _).
  destruct mp; simpl; intros [->|[Hin Hc]]%exhaustive_loop_result.
  - split; [apply list_elem_of_here|done].
  - split; [by apply list_elem_of_further|done].
  - split; [apply list_elem_of_here|done].
  - split; [by apply list_elem_of_further|done].
Qed.

Lemma mover_piece_nonempty (mp : bool) :
  (if mp then AI_PIECE else PLAYER_PIECE) ≠ EMPTY.
Proof. by destruct mp. Qed.

Lemma exhaustive_bounded (fuel : nat) :
  ∀ b depth mp r,
  well_shaped b = true → exhaustive_minimax fuel b depth mp = Some r →
  bounded r.2.
Proof.
  induction fuel as [|fuel IH]; intros b depth mp r Hb; [done|]. simpl.
  destruct ((depth =? 0) || Pure.is_terminal_node b) eqn:Hbase.
  { intros [= <-]. eexists. split; [done|]. apply leaf_score_bounds. }
  apply orb_false_elim in Hbase as [_ Hterm].
  destruct (exhaustive_loop _ mp _ _ _) as [r'|] eqn:Hl; [|done].
  intros [= <-]. simpl.
  destruct (valid_moves_nonempty b Hterm) as [c0 Hc0].
  assert (Hchild : ∀ col v, col ∈ Pure.get_valid_moves b →
            snd <$> exhaustive_minimax fuel
              (Pure.apply_move b col (if mp then AI_PIECE else PLAYER_PIECE))
              (depth - 1) (negb mp) = Some v → bounded v).
  { intros col v Hcol.
    destruct (exhaustive_minimax fuel _ (depth - 1) (negb mp)) as [r1|] eqn:H1;
      [|done].
    intros [= <-]. eapply IH; [|exact H1].
    by apply apply_move_spec; [| |apply mover_piece_nonempty]. }
  destruct (Pure.get_valid_moves b) as [|c1 rest] eqn:Hmoves;
    [by apply elem_of_nil in Hc0|].
  apply exhaustive_loop_start in Hl as [Hin Hc].
  - exact (Hchild _ _ Hin Hc).
  - intros v. apply Hchild, list_elem_of_here.
Qed.


(** ** The first best column *)

Lemma exhaustive_loop_max_ge child moves :
  ∀ value column r,
  exhaustive_loop child true moves value column = Some r →
  ∀ col v, col ∈ moves → child col = Some v → sle v r.2.
Proof.
  induction moves as [|col0 rest IH]; intros value column r Hl col v Hin Hv.
  - by apply elem_of_nil in Hin.
  - rewrite exhaustive_loop_cons_max in Hl.
    destruct (child col0) as [v0|] eqn:Hv0; [|done]. rewrite bind_some in Hl.
    apply elem_of_cons in Hin as [->|Hin].
    + rewrite Hv0 in Hv. injection Hv as <-.
      eapply sle_trans; [apply sle_max_r|]. by eapply exhaustive_loop_ge.
    + by eapply IH.
Qed.

Lemma exhaustive_loop_max_strict child moves :
  ∀ value column r,
  exhaustive_loop child true moves value column = Some r →
  r = (column, value)
  ∨ (slt value r.2 ∧ r.1 ∈ moves ∧ child r.1 = Some r.2).
Proof.
  induction moves as [|col rest IH]; intros value column r.
  - intros [= <-]. by left.
  - rewrite exhaustive_loop_cons_max.
    destruct (child col) as [v|] eqn:Hv; [|done]. rewrite bind_some.
    intros [->|(Hlt & Hin & Hc)]%IH.
    + unfold score_max. destruct (score_ltb value v) eqn:E; [right|by left].
      simpl. split; [done|]. split; [apply list_elem_of_here|done].
    + right. split; [|split; [by apply list_elem_of_further|done]].
      eapply sle_slt_trans; [apply sle_max_l|exact Hlt].
Qed.

Lemma exhaustive_loop_first child moves :
  StronglySorted Z.lt moves →
  ∀ value column r,
  exhaustive_loop child true moves value column = Some r →
  ∀ col, col ∈ moves → child col = Some r.2 → slt value r.2 → r.1 ≤ col.
Proof.
  induction 1 as [|col0 rest Hs IH Hlt];
    intros value column r Hl col Hin Hv Hstrict.
  - by apply elem_of_nil in Hin.
  - rewrite exhaustive_loop_cons_max in Hl.
    destruct (child col0) as [v0|] eqn:Hv0; [|done]. rewrite bind_some in Hl.
    assert (Hfirst : score_max value v0 = r.2 → r.1 = col0).
    { intros Heq.
      destruct (exhaustive_loop_max_strict _ _ _ _ _ Hl)
        as [->|(Hlt' & _)]; simpl in *.
      - unfold score_max, slt in Hstrict.
        destruct (score_ltb value v0) eqn:E; [done|].
        by rewrite sle_refl in Hstrict.
      - rewrite Heq in Hlt'. unfold slt in Hlt'. by rewrite sle_refl in Hlt'. }
    apply elem_of_cons in Hin as [->|Hin].
    + rewrite Hv0 in Hv. injection Hv as ->.
      rewrite Hfirst; [lia|].
      unfold score_max. unfold slt in Hstrict. by rewrite Hstrict.
    + destruct (slt_or_sle (score_max value v0) r.2) as [Hlt'|Hge].
      * by eapply IH.
      * rewrite Hfirst.
        -- rewrite Forall_forall in Hlt.
           apply Hlt in Hin. lia.
        -- apply sle_antisym; [by eapply exhaustive_loop_ge|done].
Qed.

Lemma filter_StronglySorted {A} (R : A → A → Prop) (f : A → bool) l :
  StronglySorted R l → StronglySorted R (List.filter f l).
Proof.
  induction 1 as [|x l Hs IH Hx]; simpl; [constructor|].
  destruct (f x); [|done]. constructor; [done|].
  rewrite Forall_forall in *.
  intros y [Hy _]%list_elem_of_In%filter_In. by apply Hx, list_elem_of_In.
Qed.

Lemma valid_moves_sorted (b : ndarray) :
  StronglySorted Z.lt (Pure.get_valid_moves b).
Proof.
  apply filter_StronglySorted.
  change (range BOARD_WIDTH) with [0; 1; 2; 3; 4; 5; 6].
  repeat (constructor; [|repeat constructor; lia]). constructor.
Qed.




(** ** The win test as the existence of a run *)

Lemma existsb_range (f : Z → bool) (l : list Z) :
  existsb f l = true ↔ ∃ x, x ∈ l ∧ f x = true.
Proof.
  rewrite existsb_exists. by setoid_rewrite list_elem_of_In.
Qed.

Lemma forallb_window (f : Z → bool) :
  forallb f (range WINDOW_LENGTH) = true
  ↔ ∀ i, 0 ≤ i < WINDOW_LENGTH → f i = true.
Proof.
  rewrite forallb_forall. setoid_rewrite <- list_elem_of_In.
  by setoid_rewrite elem_of_range.
Qed.

Lemma winning_move_iff (b : ndarray) (piece : Z) :
  Pure.winning_move b piece = true ↔
  (∃ row col, 0 ≤ row < BOARD_HEIGHT ∧ 0 ≤ col < BOARD_WIDTH - 3
     ∧ ∀ i, 0 ≤ i < WINDOW_LENGTH → Pure.cell b row (col + i) = piece)
  ∨ (∃ row col, 0 ≤ row < BOARD_HEIGHT - 3 ∧ 0 ≤ col < BOARD_WIDTH
     ∧ ∀ i, 0 ≤ i < WINDOW_LENGTH → Pure.cell b (row + i) col = piece)
  ∨ (∃ row col, 0 ≤ row < BOARD_HEIGHT - 3 ∧ 0 ≤ col < BOARD_WIDTH - 3
     ∧ ∀ i, 0 ≤ i < WINDOW_LENGTH → Pure.cell b (row + i) (col + i) = piece)
  ∨ (∃ row col, 3 ≤ row < BOARD_HEIGHT ∧ 0 ≤ col < BOARD_WIDTH - 3
     ∧ ∀ i, 0 ≤ i < WINDOW_LENGTH → Pure.cell b (row - i) (col + i) = piece).
Proof.
  unfold Pure.winning_move. rewrite !orb_true_iff, !existsb_range.
  repeat setoid_rewrite existsb_range.
  repeat setoid_rewrite forallb_window.
  repeat setoid_rewrite elem_of_range.
  repeat setoid_rewrite elem_of_range2.
  repeat setoid_rewrite Z.eqb_eq.
  split.
  - intros [[[(row & ? & col & ? & ?)|(col & ? & row & ? & ?)]
            |(row & ? & col & ? & ?)]|(row & ? & col & ? & ?)];
      [left|right; left|right; right; left|right; right; right];
      exists row, col; auto.
  - intros [(row & col & ? & ? & ?)|[(row & col & ? & ? & ?)
            |[(row & col & ? & ? & ?)|(row & col & ? & ? & ?)]]];
      [left; left; left; exists row; split; [done|]; exists col
      |left; left; right; exists col; split; [done|]; exists row
      |left; right; exists row; split; [done|]; exists col
      |right; exists row; split; [done|]; exists col]; auto.
Qed.

Lemma has_run_iff (b : ndarray) (piece : Z) :
  well_shaped b = true →
  has_run b piece ↔ Pure.winning_move b piece = true.
Proof.
  intros Hb. rewrite winning_move_iff.
  unfold has_run, directions, on_board, BOARD_HEIGHT, BOARD_WIDTH,
    WINDOW_LENGTH.
  split.
  - intros (row & col & drow & dcol & Hd & Hrun).
    pose proof (Hrun 0 ltac:(lia)) as [H0 _].
    pose proof (Hrun 3 ltac:(lia)) as [H3 _].
    assert (Hcell : ∀ i, 0 ≤ i < 4 →
              Pure.cell b (row + i * drow) (col + i * dcol) = piece).
    { intros i Hi. destruct (Hrun i Hi) as [Hon Hg].
      rewrite getitem_in_range in Hg by (done || apply Hon). by injection Hg. }
    repeat (apply elem_of_cons in Hd as [[= -> ->]|Hd]);
      [left|right; left|right; right; left|right; right; right| ];
      try (exists row, col; split; [lia|]; split; [lia|]; intros i Hi;
           rewrite <- (Hcell i Hi); f_equal; lia).
    by apply elem_of_nil in Hd.
  - intros [(row & col & ? & ? & Hc)|[(row & col & ? & ? & Hc)
            |[(row & col & ? & ? & Hc)|(row & col & ? & ? & Hc)]]].
    + exists row, col, 0, 1. split; [repeat constructor|].
      intros i Hi. split; [lia|].
      rewrite getitem_in_range by (done || unfold BOARD_HEIGHT, BOARD_WIDTH; lia).
      f_equal. rewrite <- (Hc i Hi). f_equal; lia.
    + exists row, col, 1, 0. split; [repeat constructor|].
      intros i Hi. split; [lia|].
      rewrite getitem_in_range by (done || unfold BOARD_HEIGHT, BOARD_WIDTH; lia).
      f_equal. rewrite <- (Hc i Hi). f_equal; lia.
    + exists row, col, 1, 1. split; [repeat constructor|].
      intros i Hi. split; [lia|].
      rewrite getitem_in_range by (done || unfold BOARD_HEIGHT, BOARD_WIDTH; lia).
      f_equal. rewrite <- (Hc i Hi). f_equal; lia.
    + exists row, col, (-1), 1. split; [repeat constructor|].
      intros i Hi. split; [lia|].
      rewrite getitem_in_range by (done || unfold BOARD_HEIGHT, BOARD_WIDTH; lia).
      f_equal. rewrite <- (Hc i Hi). f_equal; lia.
Qed.

(** ** Exchanging the sides *)

Lemma swap_piece_involutive (x : Z) : swap_piece (swap_piece x) = x.
Proof.
  unfold swap_piece, PLAYER_PIECE, AI_PIECE.
  destruct (Z.eqb_spec x 1) as [->|H1]; [done|].
  destruct (Z.eqb_spec x 2) as [->|H2]; [done|].
  destruct (Z.eqb_spec x 1); [done|]. by destruct (Z.eqb_spec x 2).
Qed.

Lemma swap_piece_inj (x y : Z) : swap_piece x = swap_piece y → x = y.
Proof.
  intros H. by rewrite <- (swap_piece_involutive x), H, swap_piece_involutive.
Qed.

Lemma count_swap (l : list Z) (x : Z) :
  count (swap_piece <$> l) (swap_piece x) = count l x.
Proof.
  induction l as [|y l IH]; [done|].
  change (count (swap_piece <$> y :: l) (swap_piece x))
    with ((if swap_piece y =? swap_piece x then 1 else 0)
          + count (swap_piece <$> l) (swap_piece x)).
  rewrite IH. simpl count. f_equal.
  destruct (Z.eqb_spec y x) as [->|Hne].
  - by rewrite Z.eqb_refl.
  - destruct (Z.eqb_spec (swap_piece y) (swap_piece x)) as [He|]; [|done].
    by apply swap_piece_inj in He.
Qed.

Lemma evaluate_window_swap (window : list Z) (piece : Z) :
  piece = PLAYER_PIECE ∨ piece = AI_PIECE →
  evaluate_window (swap_piece <$> window) (swap_piece piece)
  = evaluate_window window piece.
Proof.
  intros Hp.
  assert (He : ∀ w, count (swap_piece <$> w) EMPTY = count w EMPTY)
    by (intros w; apply (count_swap w EMPTY)).
  assert (Ho : ∀ w,
    count (swap_piece <$> w)
      (if swap_piece piece =? AI_PIECE then PLAYER_PIECE else AI_PIECE)
    = count w (if piece =? AI_PIECE then PLAYER_PIECE else AI_PIECE)).
  { intros w. destruct Hp as [-> | ->].
    - apply (count_swap w AI_PIECE).
    - apply (count_swap w PLAYER_PIECE). }
  unfold evaluate_window. by rewrite !count_swap, !He, !Ho.
Qed.

Lemma index_fmap {A B} (f : A → B) (l : list A) (i : Z) :
  index (f <$> l) i = f <$> index l i.
Proof.
  unfold index, norm_index. rewrite length_fmap.
  repeat match goal with
  | |- context [if ?c then _ else _] => destruct c
  end; simpl; by rewrite ?list_lookup_fmap.
Qed.

Lemma getitem_swap (b : ndarray) (row col : Z) :
  getitem (swap_sides b) row col = swap_piece <$> getitem b row col.
Proof.
  unfold getitem, swap_sides. rewrite index_fmap.
  destruct (index b row) as [r|]; [|done]. simpl. apply index_fmap.
Qed.

Lemma cell_swap (b : ndarray) (row col : Z) :
  Pure.cell (swap_sides b) row col = swap_piece (Pure.cell b row col).
Proof.
  unfold Pure.cell. rewrite getitem_swap. by destruct (getitem b row col).
Qed.

Lemma well_shaped_swap (b : ndarray) :
  well_shaped (swap_sides b) = well_shaped b.
Proof.
  unfold well_shaped, swap_sides. rewrite length_fmap. f_equal.
  induction b as [|r b IH]; [done|].
  rewrite fmap_cons. cbn [forallb]. by rewrite length_fmap, IH.
Qed.

Lemma window_swap (b : ndarray) (f g : Z → Z) (l : list Z) :
  (λ i, Pure.cell (swap_sides b) (f i) (g i)) <$> l
  = swap_piece <$> ((λ i, Pure.cell b (f i) (g i)) <$> l).
Proof.
  rewrite <- list_fmap_compose. apply list_fmap_ext.
  intros _ i _. apply cell_swap.
Qed.

Lemma sum_over_ext {A} (l : list A) (g g' : A → Z) :
  (∀ x, g x = g' x) → sum_over l g = sum_over l g'.
Proof. intros H. induction l as [|x l IH]; simpl; [done|]. by rewrite H, IH. Qed.

Lemma windows_swap (b : ndarray) (piece : Z) (rows cols : list Z)
    (f g : Z → Z → Z → Z) :
  piece = PLAYER_PIECE ∨ piece = AI_PIECE →
  sum_over rows (λ x, sum_over cols (λ y,
    evaluate_window
      ((λ i, Pure.cell (swap_sides b) (f x y i) (g x y i))
         <$> range WINDOW_LENGTH) (swap_piece piece)))
  = sum_over rows (λ x, sum_over cols (λ y,
      evaluate_window
        ((λ i, Pure.cell b (f x y i) (g x y i)) <$> range WINDOW_LENGTH)
        piece)).
Proof.
  intros Hp. apply sum_over_ext. intros x. apply sum_over_ext. intros y.
  by rewrite (window_swap b (f x y) (g x y)), evaluate_window_swap.
Qed.

Lemma score_position_swap (b : ndarray) (piece : Z) :
  piece = PLAYER_PIECE ∨ piece = AI_PIECE →
  Pure.score_position (swap_sides b) (swap_piece piece)
  = Pure.score_position b piece.
Proof.
  intros Hp. unfold Pure.score_position.
  rewrite (window_swap b (λ row, row) (λ _, BOARD_WIDTH `div` 2)), count_swap.
  rewrite (windows_swap b piece _ _ (λ row col i, row) (λ row col i, col + i))
    by done.
  rewrite (windows_swap b piece _ _ (λ col row i, row + i) (λ col row i, col))
    by done.
  rewrite (windows_swap b piece _ _ (λ row col i, row + i)
             (λ row col i, col + i)) by done.
  rewrite (windows_swap b piece _ _ (λ row col i, row + i)
             (λ row col i, col - i)) by done.
  reflexivity.
Qed.

(** ** The entry point *)

Lemma get_best_move_computes (fuel : nat) (self_depth : Z) (game_board : loc)
    (h : heap) (b : ndarray) :
  h !! game_board = Some b → well_shaped b = true →
  computes (get_best_move fuel self_depth game_board) h
           (fst <$> Pure.minimax fuel b self_depth NegInf PosInf true).
Proof.
  intros Hh Hb. unfold get_best_move, computes.
  rewrite run_bind, (copy_Ok _ _ _ Hh).
  pose proof (minimax_refines fuel (length h) b self_depth NegInf PosInf true
                (h ++ [b]) (lookup_fresh h b) Hb) as Hm.
  unfold computes in Hm. rewrite run_bind.
  destruct (Pure.minimax fuel b self_depth NegInf PosInf true) as [r|]; simpl.
  - destruct Hm as (h' & -> & Hp). exists h'. split; [done|].
    etrans; [|exact Hp]. by apply prefix_app_r.
  - by rewrite Hm.
Qed.

(** The base case of [minimax]: no column, and the score of the leaf. *)
Lemma minimax_base (fuel : nat) (board : loc) (depth : Z) (alpha beta : score)
    (maximizing_player : bool) (h : heap) (b : ndarray) :
  h !! board = Some b → well_shaped b = true →
  (depth =? 0) || Pure.is_terminal_node b = true →
  minimax (S fuel) board depth alpha beta maximizing_player h
  = Ok (None, Fin (Pure.leaf_score b)) h.
Proof.
  intros Hh Hb Hbase. simpl minimax.
  rewrite run_bind, (call_Ok _ _ _ _ _ Hh (get_valid_moves_total b Hb)).
  rewrite run_bind, (call_Ok _ _ _ _ _ Hh (is_terminal_node_total b Hb)).
  rewrite Hbase. unfold Pure.leaf_score.
  destruct (Pure.is_terminal_node b).
  - rewrite run_bind,
      (call_Ok _ _ _ _ _ Hh (winning_move_total b Hb AI_PIECE)).
    destruct (Pure.winning_move b AI_PIECE); [done|].
    rewrite run_bind,
      (call_Ok _ _ _ _ _ Hh (winning_move_total b Hb PLAYER_PIECE)).
    by destruct (Pure.winning_move b PLAYER_PIECE).
  - by rewrite run_bind,
      (call_Ok _ _ _ _ _ Hh (score_position_total b Hb AI_PIECE)).
Qed.

Lemma enough_fuel_depth (fuel : nat) (depth : Z) (b : ndarray) :
  0 ≤ depth → (Z.to_nat depth < fuel)%nat → enough_fuel fuel depth b.
Proof. intros. left. lia. Qed.

(** [get_best_move] works on a copy: the game's board, and every other
    array of the store, is as before when it returns. *)
Lemma get_best_move_frame (fuel : nat) (self_depth : Z) (game_board : loc)
    (h h' : heap) (move : option Z) :
  get_best_move fuel self_depth game_board h = Ok move h' →
  h `prefix_of` h'.
Proof.
  unfold get_best_move.
  intros (l & h1 & (b & _ & -> & ->)%copy_Ok_inv & H)%bind_Ok_inv.
  apply bind_Ok_inv in H as (r & h2 & Hm%minimax_frame & [= _ <-]).
  etrans; [|exact Hm]. by apply prefix_app_r.
Qed.

(** ** Cells after a write *)

Lemma cell_lookup (b : ndarray) (row col : Z) (r : list Z) (x : Z) :
  0 ≤ row → 0 ≤ col →
  b !! Z.to_nat row = Some r → r !! Z.to_nat col = Some x →
  Pure.cell b row col = x.
Proof.
  intros Hrow Hcol Hr Hx. unfold Pure.cell, getitem.
  rewrite index_in_range by (apply lookup_lt_Some in Hr; lia).
  rewrite Hr, bind_some.
  rewrite index_in_range by (apply lookup_lt_Some in Hx; lia).
  by rewrite Hx.
Qed.

Lemma cell_insert (b : ndarray) (row col piece : Z) (r : list Z) (r' c' : Z) :
  well_shaped b = true →
  0 ≤ row < BOARD_HEIGHT → 0 ≤ col < BOARD_WIDTH →
  0 ≤ r' < BOARD_HEIGHT → 0 ≤ c' < BOARD_WIDTH →
  b !! Z.to_nat row = Some r →
  Pure.cell (<[Z.to_nat row := <[Z.to_nat col := piece]> r]> b) r' c'
  = if (r' =? row) && (c' =? col) then piece else Pure.cell b r' c'.
Proof.
  intros Hb Hrow Hcol Hr' Hc' Hr.
  destruct (getitem_lookup b r' c' Hb Hr' Hc') as (r0 & Hr0 & Hc0 & Hlen0).
  destruct (well_shaped_rows b Hb) as [Hl Hrows].
  pose proof (Hrows _ _ Hr) as Hlen.
  unfold BOARD_HEIGHT, BOARD_WIDTH in *.
  destruct (Z.eqb_spec r' row) as [->|Hne]; simpl.
  - rewrite Hr in Hr0. injection Hr0 as <-.
    destruct (Z.eqb_spec c' col) as [->|Hnc].
    + eapply cell_lookup; [lia|lia| |].
      * apply list_lookup_insert_eq. lia.
      * apply list_lookup_insert_eq. lia.
    + eapply cell_lookup; [lia|lia| |].
      * apply list_lookup_insert_eq. lia.
      * rewrite list_lookup_insert_ne by lia. exact Hc0.
  - eapply cell_lookup; [lia|lia| |exact Hc0].
    rewrite list_lookup_insert_ne by lia. exact Hr0.
Qed.

(** [drop_piece] at the next open row of a valid column: the board, cell
    by cell. *)
Lemma apply_move_cells (b : ndarray) (col piece : Z) :
  well_shaped b = true → col ∈ Pure.get_valid_moves b →
  setitem b (Pure.get_next_open_row b col) col piece
  = Some (Pure.apply_move b col piece)
  ∧ well_shaped (Pure.apply_move b col piece) = true
  ∧ ∀ r c, 0 ≤ r < BOARD_HEIGHT → 0 ≤ c < BOARD_WIDTH →
      Pure.cell (Pure.apply_move b col piece) r c
      = if (r =? Pure.get_next_open_row b col) && (c =? col) then piece
        else Pure.cell b r c.
Proof.
  intros Hb [Hcol Htop]%elem_of_valid_moves.
  destruct (get_next_open_row_spec b col Htop) as [Hrow Hcell].
  destruct (setitem_in_range b _ col piece Hb Hrow Hcol) as (r & Hr & Hc & Hs).
  unfold Pure.apply_move. rewrite Hs. simpl. split; [done|]. split.
  - by apply well_shaped_insert.
  - intros r' c' Hr' Hc'. by apply cell_insert.
Qed.

(** The open row is the lowest empty cell of the column. *)
Lemma get_next_open_row_lowest (b : ndarray) (col row : Z) :
  Pure.get_next_open_row b col < row < BOARD_HEIGHT →
  Pure.cell b row col ≠ EMPTY.
Proof.
  unfold Pure.get_next_open_row, BOARD_HEIGHT.
  change (range_down (6 - 1) (-1)) with [5; 4; 3; 2; 1; 0]. simpl.
  repeat match goal with
  | |- context [Pure.cell b ?r col =? EMPTY] =>
      destruct (Z.eqb_spec (Pure.cell b r col) EMPTY)
  end; intros Hr;
  assert (row = 5 ∨ row = 4 ∨ row = 3 ∨ row = 2 ∨ row = 1 ∨ row = 0)
    as Hcases by lia;
  repeat (destruct Hcases as [->|Hcases]; [done || lia|]); subst; done || lia.
Qed.

Lemma get_next_open_row_full (b : ndarray) (col : Z) :
  (∀ row, 0 ≤ row < BOARD_HEIGHT → Pure.cell b row col ≠ EMPTY) →
  Pure.get_next_open_row b col = -1.
Proof.
  intros Hf. apply first_empty_row_none. intros row Hr%elem_of_range_down.
  apply Hf. lia.
Qed.

Lemma get_next_open_row_some (b : ndarray) (col row : Z) :
  0 ≤ row < BOARD_HEIGHT → Pure.cell b row col = EMPTY →
  0 ≤ Pure.get_next_open_row b col < BOARD_HEIGHT
  ∧ Pure.cell b (Pure.get_next_open_row b col) col = EMPTY.
Proof.
  intros Hr Hc. unfold Pure.get_next_open_row.
  destruct (first_empty_row_spec b col (range_down (BOARD_HEIGHT - 1) (-1)))
    as [Hin Hcell].
  - exists row. split; [|done]. apply elem_of_range_down. lia.
  - split; [|done]. apply elem_of_range_down in Hin. lia.
Qed.

Lemma apply_move_count (b : ndarray) (col piece y : Z) :
  well_shaped b = true → col ∈ Pure.get_valid_moves b →
  count (concat (Pure.apply_move b col piece)) y
  = count (concat b) y - (if EMPTY =? y then 1 else 0)
    + (if piece =? y then 1 else 0).
Proof.
  intros Hb [Hcol Htop]%elem_of_valid_moves.
  destruct (get_next_open_row_spec b col Htop) as [Hrow Hcell].
  destruct (setitem_in_range b _ col piece Hb Hrow Hcol) as (r & Hr & Hc & Hs).
  unfold Pure.apply_move. rewrite Hs. cbn [from_option id].
  rewrite (count_concat_insert _ _ r) by done.
  rewrite (count_insert _ _ _ _ _ Hc), Hcell. lia.
Qed.

(** ** [play_move] on the store *)

Lemma connect4_winning_move_total (b : ndarray) (piece : Z) :
  well_shaped b = true →
  Connect4.winning_move b piece = Some (Pure.winning_move b piece).
Proof. intros Hb. exact (winning_move_total b Hb piece). Qed.

Lemma is_board_full_total (b : ndarray) :
  well_shaped b = true →
  all_of (λ col, x ← getitem b 0 col; Some (negb (x =? EMPTY)))
         (range BOARD_WIDTH)
  = Some (Pure.is_full b).
Proof.
  intros Hb. unfold Pure.is_full. apply all_of_total.
  intros col Hc%elem_of_range.
  by rewrite (getitem_in_range b 0 col Hb) by (unfold BOARD_HEIGHT; lia).
Qed.

Lemma play_move_over (self : Game.Connect4) (col : Z) (h : heap) :
  Game.game_over self = true → Game.play_move self col h = Ok (self, false) h.
Proof. intros Ho. unfold Game.play_move. by rewrite Ho. Qed.

Lemma is_valid_location_Ok (self : Game.Connect4) (col : Z) (h : heap)
    (b : ndarray) :
  h !! Game.board self = Some b → well_shaped b = true →
  0 ≤ col < BOARD_WIDTH →
  Game.is_valid_location self col h = Ok (Pure.cell b 0 col =? EMPTY) h.
Proof.
  intros Hh Hb Hcol. unfold Game.is_valid_location.
  eapply call_Ok; [done|].
  by rewrite (getitem_in_range b 0 col Hb) by (unfold BOARD_HEIGHT; lia).
Qed.

Lemma play_move_full_column (self : Game.Connect4) (col : Z) (h : heap)
    (b : ndarray) :
  h !! Game.board self = Some b → well_shaped b = true →
  0 ≤ col < BOARD_WIDTH → Pure.cell b 0 col ≠ EMPTY →
  Game.play_move self col h = Ok (self, false) h.
Proof.
  intros Hh Hb Hcol Htop. unfold Game.play_move.
  destruct (Game.game_over self); [done|].
  rewrite run_bind, (is_valid_location_Ok _ _ _ _ Hh Hb Hcol).
  by destruct (Z.eqb_spec (Pure.cell b 0 col) EMPTY).
Qed.

Lemma play_move_accepts (self : Game.Connect4) (col : Z) (h : heap)
    (b : ndarray) :
  h !! Game.board self = Some b → well_shaped b = true →
  Game.game_over self = false → col ∈ Pure.get_valid_moves b →
  Game.play_move self col h
  = Ok (after_move self (Pure.apply_move b col (Game.turn self)), true)
       (<[Game.board self := Pure.apply_move b col (Game.turn self)]> h).
Proof.
  intros Hh Hb Ho Hv.
  destruct (apply_move_cells b col (Game.turn self) Hb Hv) as (Hset & Hb' & _).
  apply elem_of_valid_moves in Hv as [Hcol Htop].
  unfold Game.play_move. rewrite Ho.
  rewrite run_bind, (is_valid_location_Ok _ _ _ _ Hh Hb Hcol), Htop.
  change (EMPTY =? EMPTY) with true. cbv iota.
  unfold Game.get_next_open_row.
  rewrite run_bind,
    (call_Ok _ _ _ _ _ Hh (get_next_open_row_total b Hb col Hcol)).
  unfold Game.drop_piece. rewrite run_bind.
  rewrite (drop_piece_Ok _ _ _ _ _ _ _ Hh Hset).
  set (b' := Pure.apply_move b col (Game.turn self)) in *.
  assert (Hh' : <[Game.board self := b']> h !! Game.board self = Some b').
  { apply list_lookup_insert_eq. by eapply lookup_lt_Some. }
  unfold Game.winning_move. rewrite run_bind.
  rewrite (call_Ok _ _ _ _ _ Hh' (connect4_winning_move_total b' _ Hb')).
  unfold after_move.
  destruct (Pure.winning_move b' (Game.turn self)); [done|].
  unfold Game.is_board_full. rewrite run_bind.
  rewrite (call_Ok _ _ _ _ _ Hh' (is_board_full_total b' Hb')).
  by destruct (Pure.is_full b').
Qed.

(** ** Columns outside [0 .. BOARD_WIDTH - 1]

    A negative column index counts from the right, as Python's indexing
    does; an index beyond the row raises. *)

Lemma norm_index_wrap {A} (l : list A) (i : Z) :
  - Z.of_nat (length l) ≤ i < 0 →
  norm_index l i = norm_index l (i + Z.of_nat (length l)).
Proof.
  intros Hi. unfold norm_index.
  destruct (Z.leb_spec 0 i); [lia|].
  destruct (Z.leb_spec (- Z.of_nat (length l)) i); [|lia].
  destruct (Z.leb_spec 0 (i + Z.of_nat (length l))); [|lia].
  destruct (Z.ltb_spec (i + Z.of_nat (length l)) (Z.of_nat (length l)));
    [done|lia].
Qed.

Lemma norm_index_outside {A} (l : list A) (i : Z) :
  i < - Z.of_nat (length l) ∨ Z.of_nat (length l) ≤ i →
  norm_index l i = None.
Proof.
  intros Hi. unfold norm_index.
  destruct (Z.leb_spec 0 i).
  - destruct (Z.ltb_spec i (Z.of_nat (length l))); [lia|done].
  - destruct (Z.leb_spec (- Z.of_nat (length l)) i); [lia|done].
Qed.

Lemma index_row (b : ndarray) (row : Z) (r : list Z) :
  well_shaped b = true → index b row = Some r → length r = 7%nat.
Proof.
  intros [_ Hrows]%well_shaped_rows. unfold index.
  destruct (norm_index b row) as [k|]; [|done]. simpl. apply Hrows.
Qed.

Lemma getitem_wrap (b : ndarray) (row col : Z) :
  well_shaped b = true → - BOARD_WIDTH ≤ col < 0 →
  getitem b row col = getitem b row (col + BOARD_WIDTH).
Proof.
  intros Hb Hcol. unfold getitem.
  destruct (index b row) as [r|] eqn:Hr; [|done]. simpl.
  apply (index_row _ _ _ Hb) in Hr. unfold index, BOARD_WIDTH in *.
  rewrite norm_index_wrap by lia. by rewrite Hr.
Qed.

Lemma getitem_outside (b : ndarray) (row col : Z) :
  well_shaped b = true → col < - BOARD_WIDTH ∨ BOARD_WIDTH ≤ col →
  getitem b row col = None.
Proof.
  intros Hb Hcol. unfold getitem.
  destruct (index b row) as [r|] eqn:Hr; [|done]. simpl.
  apply (index_row _ _ _ Hb) in Hr. unfold index, BOARD_WIDTH in *.
  rewrite norm_index_outside by lia. done.
Qed.

Lemma setitem_wrap (b : ndarray) (row col piece : Z) :
  well_shaped b = true → - BOARD_WIDTH ≤ col < 0 →
  setitem b row col piece = setitem b row (col + BOARD_WIDTH) piece.
Proof.
  intros [_ Hrows]%well_shaped_rows Hcol. unfold setitem.
  destruct (norm_index b row) as [i|]; [|done]. simpl.
  destruct (b !! i) as [r|] eqn:Hr; [|done]. simpl.
  apply Hrows in Hr. unfold BOARD_WIDTH in *.
  rewrite norm_index_wrap by lia. by rewrite Hr.
Qed.

Lemma first_empty_row_wrap (b : ndarray) (col : Z) (rows : list Z) :
  well_shaped b = true → - BOARD_WIDTH ≤ col < 0 →
  first_empty_row b col rows = first_empty_row b (col + BOARD_WIDTH) rows.
Proof.
  intros Hb Hcol. induction rows as [|row rows IH]; simpl; [done|].
  rewrite (getitem_wrap b row col Hb Hcol).
  destruct (getitem b row (col + BOARD_WIDTH)) as [x|]; [|done]. simpl.
  by rewrite IH.
Qed.

Lemma call_ext {A} (f g : ndarray → option A) (board : loc) (h : heap)
    (b : ndarray) :
  h !! board = Some b → f b = g b → call f board h = call g board h.
Proof. intros Hh E. unfold call, load. rewrite !run_bind, Hh. by rewrite E. Qed.

Lemma play_move_wrap (self : Game.Connect4) (col : Z) (h : heap)
    (b : ndarray) :
  h !! Game.board self = Some b → well_shaped b = true →
  - BOARD_WIDTH ≤ col < 0 →
  Game.play_move self col h = Game.play_move self (col + BOARD_WIDTH) h.
Proof.
  intros Hh Hb Hcol. unfold Game.play_move.
  destruct (Game.game_over self); [done|].
  rewrite !run_bind.
  assert (Game.is_valid_location self col h
          = Game.is_valid_location self (col + BOARD_WIDTH) h) as ->.
  { unfold Game.is_valid_location. eapply call_ext; [done|].
    by rewrite getitem_wrap. }
  destruct (Game.is_valid_location self (col + BOARD_WIDTH) h)
    as [valid h1|e] eqn:Hv; [|done].
  apply call_Ok_inv in Hv as [-> _].
  destruct valid; [|done]. rewrite !run_bind.
  assert (Game.get_next_open_row self col h
          = Game.get_next_open_row self (col + BOARD_WIDTH) h) as ->.
  { unfold Game.get_next_open_row. eapply call_ext; [done|].
    by apply first_empty_row_wrap. }
  destruct (Game.get_next_open_row self (col + BOARD_WIDTH) h)
    as [row h1|e] eqn:Hr; [|done].
  apply call_Ok_inv in Hr as [-> _]. rewrite !run_bind.
  assert (Game.drop_piece self row col (Game.turn self) h
          = Game.drop_piece self row (col + BOARD_WIDTH) (Game.turn self) h)
    as ->; [|done].
  unfold Game.drop_piece, drop_piece. rewrite Hh. by rewrite setitem_wrap.
Qed.

Lemma play_move_outside (self : Game.Connect4) (col : Z) (h : heap)
    (b : ndarray) :
  h !! Game.board self = Some b → well_shaped b = true →
  Game.game_over self = false →
  col < - BOARD_WIDTH ∨ BOARD_WIDTH ≤ col →
  Game.play_move self col h = Fail IndexError.
Proof.
  intros Hh Hb Ho Hcol. unfold Game.play_move. rewrite Ho, run_bind.
  unfold Game.is_valid_location, call, load. rewrite !run_bind, Hh.
  by rewrite getitem_outside.
Qed.

(** ** What the game object keeps *)

Lemma gravity_iff (b : ndarray) :
  gravity b = true ↔
  ∀ row col, 0 ≤ row < BOARD_HEIGHT - 1 → 0 ≤ col < BOARD_WIDTH →
    Pure.cell b row col ≠ EMPTY → Pure.cell b (row + 1) col ≠ EMPTY.
Proof.
  unfold gravity. rewrite forallb_forall.
  setoid_rewrite forallb_forall. setoid_rewrite <- list_elem_of_In.
  setoid_rewrite elem_of_range. split.
  - intros H row col Hr Hc Hne. specialize (H col Hc row Hr).
    destruct (Z.eqb_spec (Pure.cell b row col) EMPTY); [done|].
    by destruct (Z.eqb_spec (Pure.cell b (row + 1) col) EMPTY).
  - intros H col Hc row Hr. specialize (H row col Hr Hc).
    destruct (Z.eqb_spec (Pure.cell b row col) EMPTY); [done|].
    destruct (Z.eqb_spec (Pure.cell b (row + 1) col) EMPTY); [|done].
    by exfalso; apply H.
Qed.

Lemma pieces_only_iff (b : ndarray) :
  pieces_only b = true ↔
  ∀ row col, 0 ≤ row < BOARD_HEIGHT → 0 ≤ col < BOARD_WIDTH →
    Pure.cell b row col = EMPTY ∨ Pure.cell b row col = PLAYER_PIECE
    ∨ Pure.cell b row col = AI_PIECE.
Proof.
  unfold pieces_only. rewrite forallb_forall.
  setoid_rewrite forallb_forall. setoid_rewrite <- list_elem_of_In.
  setoid_rewrite elem_of_range. cbv zeta.
  setoid_rewrite orb_true_iff. setoid_rewrite orb_true_iff.
  setoid_rewrite Z.eqb_eq. split.
  - intros H row col Hr Hc. destruct (H row Hr col Hc) as [[?|?]|?]; auto.
  - intros H row Hr col Hc. destruct (H row col Hr Hc) as [?|[?|?]]; auto.
Qed.

(** A run on [b'] is a run on [b] when every cell of [b'] holding the piece
    holds it on [b]. *)
Lemma winning_move_mono (b b' : ndarray) (piece : Z) :
  (∀ row col, 0 ≤ row < BOARD_HEIGHT → 0 ≤ col < BOARD_WIDTH →
     Pure.cell b' row col = piece → Pure.cell b row col = piece) →
  Pure.winning_move b' piece = true → Pure.winning_move b piece = true.
Proof.
  intros Hcells. rewrite !winning_move_iff.
  unfold BOARD_HEIGHT, BOARD_WIDTH, WINDOW_LENGTH in *.
  intros [(row & col & ? & ? & Hc)|[(row & col & ? & ? & Hc)
          |[(row & col & ? & ? & Hc)|(row & col & ? & ? & Hc)]]];
    [left|right; left|right; right; left|right; right; right];
    exists row, col; (split; [done|]); (split; [done|]);
    intros i Hi; apply Hcells; try lia; by apply Hc.
Qed.

Lemma opponent_cases (piece : Z) :
  piece = PLAYER_PIECE ∨ piece = AI_PIECE →
  (piece = PLAYER_PIECE ∧ opponent piece = AI_PIECE)
  ∨ (piece = AI_PIECE ∧ opponent piece = PLAYER_PIECE).
Proof. intros [->| ->]; [left|right]; done. Qed.

Lemma game_inv_init (board : loc) :
  game_inv {| Game.board := board; Game.game_over := false;
              Game.turn := PLAYER_PIECE; Game.winner := None |}
           empty_board.
Proof. split; try done. by left. Qed.

(** An accepted move keeps the invariant. *)
Lemma game_inv_after_move (self : Game.Connect4) (b : ndarray) (col : Z) :
  game_inv self b → Game.game_over self = false →
  col ∈ Pure.get_valid_moves b →
  game_inv (after_move self (Pure.apply_move b col (Game.turn self)))
           (Pure.apply_move b col (Game.turn self)).
Proof.
  intros [Hb Hp Hg Ht Hc Hrun _] Ho Hv.
  destruct (Hrun Ho) as [Hterm Hwin].
  destruct (apply_move_cells b col (Game.turn self) Hb Hv)
    as (_ & Hb' & Hcells).
  pose proof (apply_move_count b col (Game.turn self) PLAYER_PIECE Hb Hv)
    as HcP.
  pose proof (apply_move_count b col (Game.turn self) AI_PIECE Hb Hv) as HcA.
  pose proof Hv as [Hcol Htop]%elem_of_valid_moves.
  destruct (get_next_open_row_spec b col Htop) as [Hrow Hcell].
  pose proof (get_next_open_row_lowest b col) as Hlow.
  set (b' := Pure.apply_move b col (Game.turn self)) in *.
  set (r0 := Pure.get_next_open_row b col) in *.
  assert (Hne : Game.turn self ≠ EMPTY) by (by destruct Ht as [->| ->]).
  assert (Hp' : pieces_only b' = true).
  { apply pieces_only_iff. intros row c Hr Hcc. rewrite Hcells by done.
    destruct ((row =? r0) && (c =? col)).
    - destruct Ht as [->| ->]; auto.
    - rewrite pieces_only_iff in Hp. by apply Hp. }
  assert (Hg' : gravity b' = true).
  { apply gravity_iff. rewrite gravity_iff in Hg.
    unfold BOARD_HEIGHT, BOARD_WIDTH in *.
    intros row c Hr Hcc. rewrite !Hcells by lia.
    destruct (Z.eqb_spec (row + 1) r0) as [E1|N1],
             (Z.eqb_spec row r0) as [E2|N2],
             (Z.eqb_spec c col) as [->|N3]; simpl;
      first [done | lia | by apply Hg | intros _; apply Hlow; lia]. }
  assert (Hopp : Pure.winning_move b' (opponent (Game.turn self)) = false).
  { destruct (Pure.winning_move b' (opponent (Game.turn self))) eqn:Hw;
      [|done].
    apply (winning_move_mono b) in Hw.
    - unfold Pure.is_terminal_node in Hterm.
      apply orb_false_elim in Hterm as [[H1 H2]%orb_false_elim _].
      destruct (opponent_cases _ Ht) as [[_ E]|[_ E]]; rewrite E in Hw;
        congruence.
    - intros row c Hr Hcc. rewrite Hcells by done.
      destruct ((row =? r0) && (c =? col)); [|done].
      intros E. exfalso.
      destruct (opponent_cases _ Ht) as [[E1 E2]|[E1 E2]];
        rewrite E2, E1 in E; discriminate. }
  assert (HcP' : count (concat b') PLAYER_PIECE
                 = count (concat b) PLAYER_PIECE
                   + (if Game.turn self =? PLAYER_PIECE then 1 else 0)).
  { rewrite HcP. change (EMPTY =? PLAYER_PIECE) with false. cbv iota. lia. }
  assert (HcA' : count (concat b') AI_PIECE
                 = count (concat b) AI_PIECE
                   + (if Game.turn self =? AI_PIECE then 1 else 0)).
  { rewrite HcA. change (EMPTY =? AI_PIECE) with false. cbv iota. lia. }
  rewrite Ho in Hc. cbn [xorb] in Hc.
  unfold after_move.
  destruct (Pure.winning_move b' (Game.turn self)) eqn:Hw;
    [|destruct (Pure.is_full b') eqn:Hf]; split; cbn [Game.board
      Game.game_over Game.turn Game.winner xorb negb]; try done.
  - rewrite HcP', HcA'.
    destruct Ht as [E|E]; rewrite E in Hc |- *; cbn in Hc |- *; lia.
  - rewrite HcP', HcA'.
    destruct Ht as [E|E]; rewrite E in Hc |- *; cbn in Hc |- *; lia.
  - intros _. rewrite Hwin. done.
  - destruct Ht as [->| ->]; auto.
  - rewrite HcP', HcA'.
    destruct Ht as [E|E]; rewrite E in Hc |- *; cbn in Hc |- *; lia.
  - intros _. split; [|done]. unfold Pure.is_terminal_node.
    destruct (opponent_cases _ Ht) as [[E1 E2]|[E1 E2]];
      rewrite E1 in Hw; rewrite E2 in Hopp; by rewrite Hw, Hopp, Hf.
Qed.

Lemma board_after_move (self : Game.Connect4) (b' : ndarray) :
  Game.board (after_move self b') = Game.board self.
Proof.
  unfold after_move.
  by destruct (Pure.winning_move b' (Game.turn self)), (Pure.is_full b').
Qed.

(** What [play_move] does, whatever the column: it refuses and changes
    nothing, or it plays the column (counted from the right when negative)
    and the object is as [after_move] says. *)
Lemma game_inv_play_move (self self' : Game.Connect4) (col : Z) (h h' : heap)
    (b : ndarray) (r : bool) :
  h !! Game.board self = Some b → game_inv self b →
  Game.play_move self col h = Ok (self', r) h' →
  (r = false ∧ self' = self ∧ h' = h
   ∧ (Game.game_over self = true
      ∨ ∃ c, (c = col ∨ c = col + BOARD_WIDTH) ∧ 0 ≤ c < BOARD_WIDTH
             ∧ Pure.cell b 0 c ≠ EMPTY))
  ∨ (r = true ∧ Game.game_over self = false
     ∧ ∃ c, (c = col ∨ c = col + BOARD_WIDTH)
            ∧ c ∈ Pure.get_valid_moves b
            ∧ self' = after_move self (Pure.apply_move b c (Game.turn self))
            ∧ h' = <[Game.board self
                     := Pure.apply_move b c (Game.turn self)]> h).
Proof.
  intros Hh Hinv Hp. pose proof (inv_shape _ _ Hinv) as Hb.
  destruct (Game.game_over self) eqn:Ho.
  { rewrite play_move_over in Hp by done. injection Hp as <- <- <-.
    left. auto. }
  assert (Hrange : - BOARD_WIDTH ≤ col < BOARD_WIDTH).
  { destruct (Z_lt_ge_dec col (- BOARD_WIDTH)) as [Hl|Hl].
    - rewrite (play_move_outside _ _ _ _ Hh Hb Ho) in Hp by auto. done.
    - destruct (Z_lt_ge_dec col BOARD_WIDTH) as [Hu|Hu]; [lia|].
      rewrite (play_move_outside _ _ _ _ Hh Hb Ho) in Hp by (right; lia).
      done. }
  assert (∃ c, (c = col ∨ c = col + BOARD_WIDTH) ∧ 0 ≤ c < BOARD_WIDTH
               ∧ Game.play_move self c h = Ok (self', r) h')
    as (c & Hc & Hcr & Hpc).
  { destruct (Z_lt_ge_dec col 0) as [Hneg|Hpos].
    - exists (col + BOARD_WIDTH). split; [auto|]. split; [lia|].
      by rewrite <- (play_move_wrap _ _ _ _ Hh Hb) by lia.
    - exists col. split; [auto|]. split; [lia|done]. }
  destruct (Z.eq_dec (Pure.cell b 0 c) EMPTY) as [Htop|Htop].
  - right. assert (Hv : c ∈ Pure.get_valid_moves b)
      by (by apply elem_of_valid_moves).
    rewrite (play_move_accepts _ _ _ _ Hh Hb Ho Hv) in Hpc.
    injection Hpc as <- <- <-. split; [done|]. split; [done|].
    exists c. auto.
  - left. rewrite (play_move_full_column _ _ _ _ Hh Hb Hcr Htop) in Hpc.
    injection Hpc as <- <- <-. repeat (split; [done|]). right. eauto.
Qed.

(** Every state of a game object satisfies the invariant. *)
Lemma reachable_inv (self : Game.Connect4) (h : heap) :
  reachable self h → ∃ b, h !! Game.board self = Some b ∧ game_inv self b.
Proof.
  induction 1 as [h self h' Hi|self h self' h' _ IH Hr
                 |self h col self' r h' _ IH Hp
                 |self h fuel depth move h' _ IH Hm].
  - injection Hi as <- <-. exists empty_board. split.
    + apply lookup_fresh.
    + apply game_inv_init.
  - injection Hr as <- <-. exists empty_board. split.
    + apply lookup_fresh.
    + apply game_inv_init.
  - destruct IH as (b & Hh & Hinv).
    destruct (game_inv_play_move _ _ _ _ _ _ _ Hh Hinv Hp)
      as [(_ & -> & -> & _)|(_ & Ho & c & _ & Hv & -> & ->)]; [eauto|].
    eexists. split.
    + rewrite board_after_move. apply list_lookup_insert_eq.
      by eapply lookup_lt_Some.
    + by apply game_inv_after_move.
  - destruct IH as (b & Hh & Hinv). exists b. split; [|done].
    apply get_best_move_frame in Hm. by eapply prefix_lookup_Some.
Qed.

(** ** More about the search *)

Lemma length_concat_rows (b : ndarray) (n : nat) :
  Forall (λ r : list Z, length r = n) b →
  length (concat b) = (length b * n)%nat.
Proof.
  induction 1 as [|r b Hr _ IH]; simpl; [done|].
  rewrite length_app, IH, Hr. lia.
Qed.

Lemma empties_le (b : ndarray) :
  well_shaped b = true → empties b ≤ BOARD_HEIGHT * BOARD_WIDTH.
Proof.
  intros [Hl Hf]%well_shaped_iff. unfold empties.
  pose proof (count_le_length (concat b) EMPTY) as Hc.
  rewrite (length_concat_rows b 7 Hf), Hl in Hc.
  unfold BOARD_HEIGHT, BOARD_WIDTH. lia.
Qed.

Lemma enough_fuel_cells (fuel : nat) (depth : Z) (b : ndarray) :
  well_shaped b = true →
  BOARD_HEIGHT * BOARD_WIDTH < Z.of_nat fuel → enough_fuel fuel depth b.
Proof. intros Hb%empties_le Hf. right. lia. Qed.

Lemma min_loop_column child moves :
  ∀ alpha beta value column r,
  Pure.min_loop child moves alpha beta value column = Some r →
  r.1 = column ∨ r.1 ∈ moves.
Proof.
  induction moves as [|col rest IH]; intros alpha beta value column r.
  - intros [= <-]. by left.
  - rewrite min_loop_cons.
    destruct (child col alpha beta) as [w|]; [|done]. rewrite bind_some.
    cbv zeta.
    match goal with |- context [if score_geb ?x ?y then _ else _] =>
      destruct (score_geb x y) end.
    + intros [= <-]. simpl. destruct (score_ltb w value); [right|by left].
      apply list_elem_of_here.
    + intros [->|Hin]%IH.
      * destruct (score_ltb w value); [right|by left]. apply list_elem_of_here.
      * right. by apply list_elem_of_further.
Qed.

(** The column of a search, for either side and any window: none at the
    base case, a legal one otherwise. *)
Lemma pure_minimax_column_any (fuel : nat) (b : ndarray) (depth : Z)
    (alpha beta : score) (mp : bool) r :
  Pure.minimax fuel b depth alpha beta mp = Some r →
  if (depth =? 0) || Pure.is_terminal_node b then r.1 = None
  else ∃ c, r.1 = Some c ∧ c ∈ Pure.get_valid_moves b.
Proof.
  destruct fuel as [|fuel]; [done|]. simpl.
  destruct ((depth =? 0) || Pure.is_terminal_node b) eqn:Hbase.
  { by intros [= <-]. }
  apply orb_false_elim in Hbase as [_ Hterm].
  destruct (valid_moves_nonempty b Hterm) as [c0 Hc0].
  destruct mp.
  - destruct (Pure.max_loop _ _ _ _ _ _) as [r'|] eqn:Hl; [|done].
    intros [= <-]. exists r'.1. split; [done|].
    apply max_loop_column in Hl as [->|Hin]; [|done]. by eapply hd_elem_of.
  - destruct (Pure.min_loop _ _ _ _ _ _) as [r'|] eqn:Hl; [|done].
    intros [= <-]. exists r'.1. split; [done|].
    apply min_loop_column in Hl as [->|Hin]; [|done]. by eapply hd_elem_of.
Qed.

Lemma bounded_max (value w : score) :
  bounded value ∨ value = NegInf → bounded w →
  bounded (score_max value w).
Proof.
  intros [Hv| ->] Hw; [|destruct Hw as (z & -> & ?); by exists z].
  unfold score_max. by destruct (score_ltb value w).
Qed.

Lemma bounded_min (value w : score) :
  bounded value ∨ value = PosInf → bounded w →
  bounded (score_min value w).
Proof.
  intros [Hv| ->] Hw; [|destruct Hw as (z & -> & ?); by exists z].
  unfold score_min. by destruct (score_ltb w value).
Qed.

Lemma max_loop_bounded child moves :
  (∀ col a be s, col ∈ moves → child col a be = Some s → bounded s) →
  ∀ alpha beta value column r,
  bounded value ∨ (value = NegInf ∧ moves ≠ []) →
  Pure.max_loop child moves alpha beta value column = Some r →
  bounded r.2.
Proof.
  induction moves as [|col rest IH]; intros Hc alpha beta value column r Hv.
  - intros [= <-]. by destruct Hv as [?|[_ ?]].
  - rewrite max_loop_cons.
    destruct (child col alpha beta) as [w|] eqn:Hw; [|done].
    rewrite bind_some. cbv zeta.
    assert (Hb : bounded (score_max value w)).
    { apply bounded_max.
      - destruct Hv as [?|[? _]]; auto.
      - eapply Hc; [apply list_elem_of_here|done]. }
    match goal with |- context [if score_geb ?x ?y then _ else _] =>
      destruct (score_geb x y) end.
    + by intros [= <-].
    + apply IH; [|by left].
      intros c a be s Hin. apply Hc. by apply list_elem_of_further.
Qed.

Lemma min_loop_bounded child moves :
  (∀ col a be s, col ∈ moves → child col a be = Some s → bounded s) →
  ∀ alpha beta value column r,
  bounded value ∨ (value = PosInf ∧ moves ≠ []) →
  Pure.min_loop child moves alpha beta value column = Some r →
  bounded r.2.
Proof.
  induction moves as [|col rest IH]; intros Hc alpha beta value column r Hv.
  - intros [= <-]. by destruct Hv as [?|[_ ?]].
  - rewrite min_loop_cons.
    destruct (child col alpha beta) as [w|] eqn:Hw; [|done].
    rewrite bind_some. cbv zeta.
    assert (Hb : bounded (score_min value w)).
    { apply bounded_min.
      - destruct Hv as [?|[? _]]; auto.
      - eapply Hc; [apply list_elem_of_here|done]. }
    match goal with |- context [if score_geb ?x ?y then _ else _] =>
      destruct (score_geb x y) end.
    + by intros [= <-].
    + apply IH; [|by left].
      intros c a be s Hin. apply Hc. by apply list_elem_of_further.
Qed.

(** The score of a search is a finite number between the two sentinels,
    whatever the window. *)
Lemma pure_minimax_bounded (fuel : nat) :
  ∀ b depth alpha beta mp r,
  Pure.minimax fuel b depth alpha beta mp = Some r → bounded r.2.
Proof.
  induction fuel as [|fuel IH]; intros b depth alpha beta mp r; [done|].
  simpl.
  destruct ((depth =? 0) || Pure.is_terminal_node b) eqn:Hbase.
  { intros [= <-]. eexists. split; [done|]. apply leaf_score_bounds. }
  apply orb_false_elim in Hbase as [_ Hterm].
  destruct (valid_moves_nonempty b Hterm) as [c0 Hc0].
  assert (Hne : Pure.get_valid_moves b ≠ [])
    by (intros E; rewrite E in Hc0; by apply elem_of_nil in Hc0).
  destruct mp.
  - destruct (Pure.max_loop _ _ _ _ _ _) as [r'|] eqn:Hl; [|done].
    intros [= <-]. simpl. eapply max_loop_bounded; [|by right|exact Hl].
    intros col a be s _. cbv beta.
    destruct (Pure.minimax fuel (Pure.apply_move b col AI_PIECE) (depth - 1)
                a be false) as [r1|] eqn:H1; [|done].
    intros [= <-]. by eapply IH.
  - destruct (Pure.min_loop _ _ _ _ _ _) as [r'|] eqn:Hl; [|done].
    intros [= <-]. simpl. eapply min_loop_bounded; [|by right|exact Hl].
    intros col a be s _. cbv beta.
    destruct (Pure.minimax fuel (Pure.apply_move b col PLAYER_PIECE)
                (depth - 1) a be true) as [r1|] eqn:H1; [|done].
    intros [= <-]. by eapply IH.
Qed.

(** ** Depths beyond the number of empty cells *)




(** ** Counting in a window *)

Lemma count_pair (l : list Z) (x y : Z) :
  x ≠ y → count l x + count l y ≤ Z.of_nat (length l).
Proof.
  intros Hne. induction l as [|z l IH]; simpl count; simpl length; [lia|].
  destruct (Z.eqb_spec z x), (Z.eqb_spec z y); subst; try done; lia.
Qed.

Lemma count_all (l : list Z) (x : Z) :
  count l x = Z.of_nat (length l) ↔ Forall (λ y, y = x) l.
Proof.
  induction l as [|z l IH]; simpl count; simpl length.
  - split; [constructor|done].
  - pose proof (count_le_length l x). rewrite Forall_cons, <- IH.
    destruct (Z.eqb_spec z x); lia.
Qed.

(** ** The open row of any column *)

Lemma first_empty_row_result (b : ndarray) (col : Z) (rows : list Z) :
  Pure.first_empty_row b col rows = -1
  ∨ (Pure.first_empty_row b col rows ∈ rows
     ∧ Pure.cell b (Pure.first_empty_row b col rows) col = EMPTY).
Proof.
  induction rows as [|r rows IH]; simpl; [by left|].
  destruct (Z.eqb_spec (Pure.cell b r col) EMPTY) as [He|Hne].
  - right. split; [apply list_elem_of_here|done].
  - destruct IH as [?|[? ?]]; [by left|right].
    split; [by apply list_elem_of_further|done].
Qed.

(** Row [-1] is the bottom row. *)
Lemma setitem_last_row (b : ndarray) (col piece : Z) :
  well_shaped b = true →
  setitem b (-1) col piece = setitem b (BOARD_HEIGHT - 1) col piece.
Proof.
  intros [Hl _]%well_shaped_rows. unfold setitem.
  rewrite (norm_index_wrap b (-1)) by lia.
  by replace (-1 + Z.of_nat (length b)) with (BOARD_HEIGHT - 1)
    by (unfold BOARD_HEIGHT; lia).
Qed.

(** ** The choice at the root *)

Lemma exhaustive_loop_min_le child moves :
  ∀ value column r,
  exhaustive_loop child false moves value column = Some r →
  ∀ col v, col ∈ moves → child col = Some v → sle r.2 v.
Proof.
  induction moves as [|col0 rest IH]; intros value column r Hl col v Hin Hv.
  - by apply elem_of_nil in Hin.
  - rewrite exhaustive_loop_cons_min in Hl.
    destruct (child col0) as [v0|] eqn:Hv0; [|done]. rewrite bind_some in Hl.
    apply elem_of_cons in Hin as [->|Hin].
    + rewrite Hv0 in Hv. injection Hv as <-.
      eapply sle_trans; [|apply sle_min_r]. by eapply exhaustive_loop_le.
    + by eapply IH.
Qed.

(** A position the player has won, and the AI has not, is a leaf with the
    losing score. *)
Lemma exhaustive_lost (fuel : nat) (b : ndarray) (depth : Z) (mp : bool) r :
  Pure.winning_move b AI_PIECE = false →
  Pure.winning_move b PLAYER_PIECE = true →
  exhaustive_minimax fuel b depth mp = Some r →
  r = (None, Fin (-100000000)).
Proof.
  intros Ha Hw. destruct fuel as [|fuel]; [done|]. simpl.
  assert (Hterm : Pure.is_terminal_node b = true).
  { unfold Pure.is_terminal_node. by rewrite Hw. }
  rewrite Hterm, orb_true_r. unfold Pure.leaf_score. rewrite Hterm, Ha, Hw.
  by intros [= <-].
Qed.

(** The column of the root search: its position has the greatest exact
    value among the legal columns, and is the first with that value. *)
Lemma root_first_best (fuel : nat) (depth : Z) (game_board : loc)
    (h : heap) (b : ndarray) :
  h !! game_board = Some b → well_shaped b = true →
  Pure.is_terminal_node b = false → depth ≠ 0 →
  enough_fuel (S fuel) depth b →
  let value_after col :=
    snd <$> exhaustive_minimax fuel (Pure.apply_move b col AI_PIECE)
              (depth - 1) false in
  ∃ col best h',
    get_best_move (S fuel) depth game_board h = Ok (Some col) h'
    ∧ col ∈ Pure.get_valid_moves b
    ∧ value_after col = Some (Fin best)
    ∧ ∀ c, c ∈ Pure.get_valid_moves b →
        ∃ v, value_after c = Some (Fin v)
             ∧ -100000000 ≤ v ≤ best ∧ (v = best → col ≤ c).
Proof.
  intros Hh Hb Hterm Hd Hf value_after.
  destruct (exhaustive_terminates (S fuel) b depth true Hb Hf) as [r Hex].
  pose proof (minimax_root_exhaustive _ _ _ _ Hex) as Hp.
  pose proof (get_best_move_computes (S fuel) depth game_board h b Hh Hb)
    as Hm.
  rewrite Hp in Hm. destruct Hm as (h' & Hm & _). simpl in Hm.
  revert Hex. simpl. apply Z.eqb_neq in Hd. rewrite Hd, Hterm. simpl.
  fold value_after.
  destruct (exhaustive_loop value_after true _ _ _) as [r'|] eqn:Hl; [|done].
  intros [= <-]. simpl in Hm.
  assert (Hchild : ∀ c, c ∈ Pure.get_valid_moves b →
            ∃ v, value_after c = Some (Fin v) ∧ -100000000 ≤ v).
  { intros c Hc.
    destruct (exhaustive_loop_children _ _ _ _ _ _ Hl c Hc) as [w Hw].
    revert Hw. unfold value_after.
    destruct (exhaustive_minimax fuel _ (depth - 1) false) as [r1|] eqn:H1;
      [|done].
    intros [= <-].
    destruct (exhaustive_bounded fuel _ _ _ _
                (proj1 (proj2 (apply_move_cells b c AI_PIECE Hb Hc))) H1)
      as (v & Ev & Hv).
    exists v. simpl. rewrite Ev. split; [done|lia]. }
  destruct (valid_moves_nonempty b Hterm) as [c0 Hc0].
  destruct (Hchild c0 Hc0) as (v0 & Hv0 & _).
  pose proof (exhaustive_loop_max_ge _ _ _ _ _ Hl c0 _ Hc0 Hv0) as Hge0.
  destruct (exhaustive_loop_max_strict _ _ _ _ _ Hl)
    as [->|(Hlt & Hin & Hbest)]; [done|].
  destruct (Hchild _ Hin) as (best & Hb' & _).
  assert (E : r'.2 = Fin best) by congruence.
  exists r'.1, best, h'. split; [done|]. split; [done|]. split; [done|].
  intros c Hc. destruct (Hchild c Hc) as (v & Hv & Hlow). exists v.
  split; [done|].
  pose proof (exhaustive_loop_max_ge _ _ _ _ _ Hl c _ Hc Hv) as Hge.
  rewrite E in Hge. unfold sle in Hge. simpl in Hge.
  apply Z.ltb_ge in Hge. split; [lia|].
  intros ->. eapply exhaustive_loop_first;
    [apply valid_moves_sorted|exact Hl|done| |done].
  by rewrite E.
Qed.

(** The value of a position in which the player, to move, can win at
    once. *)
Lemma exhaustive_reply_wins (fuel : nat) (b1 : ndarray) (depth reply : Z) r :
  well_shaped b1 = true → Pure.is_terminal_node b1 = false → depth ≠ 0 →
  reply ∈ Pure.get_valid_moves b1 →
  Pure.winning_move (Pure.apply_move b1 reply PLAYER_PIECE) PLAYER_PIECE
  = true →
  exhaustive_minimax fuel b1 depth false = Some r →
  sle r.2 (Fin (-100000000)).
Proof.
  intros Hb1 Hterm Hd%Z.eqb_neq Hreply Hwin.
  destruct fuel as [|fuel]; [done|]. simpl. rewrite Hd, Hterm. simpl.
  destruct (exhaustive_loop _ false _ _ _) as [r1|] eqn:Hl; [|done].
  intros [= <-]. simpl.
  destruct (exhaustive_loop_children _ _ _ _ _ _ Hl reply Hreply) as [w Hw].
  cbv beta in Hw.
  destruct (exhaustive_minimax fuel (Pure.apply_move b1 reply PLAYER_PIECE)
              (depth - 1) true) as [r2|] eqn:H2;
    [clear Hw|simpl in Hw; discriminate].
  assert (Ha : Pure.winning_move (Pure.apply_move b1 reply PLAYER_PIECE)
                 AI_PIECE = false).
  { destruct (apply_move_cells b1 reply PLAYER_PIECE Hb1 Hreply)
      as (_ & _ & Hcells).
    destruct (Pure.winning_move (Pure.apply_move b1 reply PLAYER_PIECE)
                AI_PIECE) eqn:Ha; [|done].
    apply (winning_move_mono b1) in Ha.
    - unfold Pure.is_terminal_node in Hterm.
      apply orb_false_elim in Hterm as [[_ H2']%orb_false_elim _].
      congruence.
    - intros row c Hr Hc. rewrite Hcells by done.
      by destruct ((row =? Pure.get_next_open_row b1 reply) && (c =? reply)). }
  apply (exhaustive_lost _ _ _ _ _ Ha Hwin) in H2 as H3. subst r2.
  eapply exhaustive_loop_min_le; [exact Hl|exact Hreply|].
  cbv beta. by rewrite H2.
Qed.

(** ** The board in a mirror *)

Lemma well_shaped_mirror (b : ndarray) :
  well_shaped b = true → well_shaped (mirror b) = true.
Proof.
  rewrite !well_shaped_iff. intros [Hl Hf]. unfold mirror. split.
  - by rewrite length_fmap.
  - apply Forall_fmap. eapply Forall_impl; [exact Hf|].
    intros r Hr. simpl. by rewrite length_reverse.
Qed.

Lemma mirror_involutive (b : ndarray) : mirror (mirror b) = b.
Proof.
  unfold mirror. rewrite <- list_fmap_compose.
  rewrite <- (list_fmap_id b) at 2. apply list_fmap_ext.
  intros _ r _. simpl. apply reverse_involutive.
Qed.

Lemma cell_mirror (b : ndarray) (row col : Z) :
  well_shaped b = true → 0 ≤ row < BOARD_HEIGHT → 0 ≤ col < BOARD_WIDTH →
  Pure.cell (mirror b) row col = Pure.cell b row (BOARD_WIDTH - 1 - col).
Proof.
  intros Hb Hrow Hcol.
  assert (Hcol' : 0 ≤ BOARD_WIDTH - 1 - col < BOARD_WIDTH) by lia.
  destruct (getitem_lookup b row _ Hb Hrow Hcol') as (r & Hr & Hc & Hlen).
  unfold BOARD_HEIGHT, BOARD_WIDTH in *.
  eapply cell_lookup; [lia|lia| |].
  - unfold mirror. rewrite list_lookup_fmap, Hr. reflexivity.
  - rewrite reverse_lookup by lia. rewrite <- Hc. f_equal. lia.
Qed.

Lemma sum_over_ext_in {A} (l : list A) (g g' : A → Z) :
  (∀ x, x ∈ l → g x = g' x) → sum_over l g = sum_over l g'.
Proof.
  induction l as [|x l IH]; intros H; simpl; [done|].
  rewrite (H x) by apply list_elem_of_here. rewrite IH; [done|].
  intros y Hy. apply H. by apply list_elem_of_further.
Qed.

Lemma window_ext (f f' : Z → Z) :
  (∀ i, 0 ≤ i < WINDOW_LENGTH → f i = f' i) →
  f <$> range WINDOW_LENGTH = f' <$> range WINDOW_LENGTH.
Proof.
  intros H. apply list_fmap_ext. intros k i Hi. apply H.
  apply elem_of_range. by eapply list_elem_of_lookup_2.
Qed.

Lemma evaluate_window_counts (w1 w2 : list Z) (piece : Z) :
  (∀ x, count w1 x = count w2 x) →
  evaluate_window w1 piece = evaluate_window w2 piece.
Proof. intros H. unfold evaluate_window. by rewrite !H. Qed.

(** A window read from right to left scores the same. *)
Lemma window_flip (c : Z → Z) (a : Z) (piece : Z) :
  evaluate_window ((λ i, c (a - i)) <$> range WINDOW_LENGTH) piece
  = evaluate_window ((λ i, c (a - 3 + i)) <$> range WINDOW_LENGTH) piece.
Proof.
  apply evaluate_window_counts. intros x.
  change (range WINDOW_LENGTH) with [0; 1; 2; 3].
  cbn [fmap list_fmap count].
  replace (a - 0) with (a - 3 + 3) by lia.
  replace (a - 1) with (a - 3 + 2) by lia.
  replace (a - 2) with (a - 3 + 1) by lia.
  replace (a - 3 + 0) with (a - 3) by lia. lia.
Qed.

Ltac flip_columns g :=
  simpl;
  repeat match goal with
  | |- context [g (?a - ?b)] =>
      let v := eval vm_compute in (a - b) in change (a - b) with v
  end;
  lia.

Lemma sum_over_flip4 (g : Z → Z) :
  sum_over (range 4) (λ c, g (3 - c)) = sum_over (range 4) g.
Proof. change (range 4) with [0; 1; 2; 3]. flip_columns g. Qed.

Lemma sum_over_flip7 (g : Z → Z) :
  sum_over (range 7) (λ c, g (6 - c)) = sum_over (range 7) g.
Proof. change (range 7) with [0; 1; 2; 3; 4; 5; 6]. flip_columns g. Qed.

Lemma sum_over_flip_low (g : Z → Z) :
  sum_over (range 4) (λ c, g (6 - c)) = sum_over (range2 3 7) g.
Proof.
  change (range 4) with [0; 1; 2; 3].
  change (range2 3 7) with [3; 4; 5; 6]. flip_columns g.
Qed.

Lemma sum_over_flip_high (g : Z → Z) :
  sum_over (range2 3 7) (λ c, g (6 - c)) = sum_over (range 4) g.
Proof.
  change (range 4) with [0; 1; 2; 3].
  change (range2 3 7) with [3; 4; 5; 6]. flip_columns g.
Qed.

Lemma score_position_mirror (b : ndarray) (piece : Z) :
  well_shaped b = true →
  Pure.score_position (mirror b) piece = Pure.score_position b piece.
Proof.
  intros Hb. unfold Pure.score_position.
  change (BOARD_WIDTH `div` 2) with 3.
  change (BOARD_WIDTH - 3) with 4. change (BOARD_HEIGHT - 3) with 3.
  change BOARD_HEIGHT with 6. change (range2 3 BOARD_WIDTH) with (range2 3 7).
  change (range BOARD_WIDTH) with (range 7).
  assert (Hcell : ∀ row col, 0 ≤ row < 6 → 0 ≤ col < 7 →
            Pure.cell (mirror b) row col = Pure.cell b row (6 - col)).
  { intros row col Hr Hc. by rewrite cell_mirror. }
  assert (Hcentre :
    (λ row, Pure.cell (mirror b) row 3) <$> range 6
    = (λ row, Pure.cell b row 3) <$> range 6).
  { apply list_fmap_ext. intros k row Hk.
    apply list_elem_of_lookup_2, elem_of_range in Hk.
    by rewrite Hcell by lia. }
  assert (Hh :
    sum_over (range 6) (λ row, sum_over (range 4) (λ col,
      evaluate_window ((λ i, Pure.cell (mirror b) row (col + i))
                         <$> range WINDOW_LENGTH) piece))
    = sum_over (range 6) (λ row, sum_over (range 4) (λ col,
        evaluate_window ((λ i, Pure.cell b row (col + i))
                           <$> range WINDOW_LENGTH) piece))).
  { apply sum_over_ext_in. intros row Hrow%elem_of_range.
    rewrite <- (sum_over_flip4 (λ col,
      evaluate_window ((λ i, Pure.cell b row (col + i))
                         <$> range WINDOW_LENGTH) piece)).
    apply sum_over_ext_in. intros col Hcol%elem_of_range. cbv beta.
    rewrite (window_ext (λ i, Pure.cell (mirror b) row (col + i))
                        (λ i, Pure.cell b row (6 - col - i)))
      by (unfold WINDOW_LENGTH; intros i Hi; rewrite Hcell by lia;
          f_equal; lia).
    rewrite (window_flip (λ c, Pure.cell b row c) (6 - col)).
    f_equal. apply window_ext. intros i Hi. f_equal. lia. }
  assert (Hv :
    sum_over (range 7) (λ col, sum_over (range 3) (λ row,
      evaluate_window ((λ i, Pure.cell (mirror b) (row + i) col)
                         <$> range WINDOW_LENGTH) piece))
    = sum_over (range 7) (λ col, sum_over (range 3) (λ row,
        evaluate_window ((λ i, Pure.cell b (row + i) col)
                           <$> range WINDOW_LENGTH) piece))).
  { rewrite <- (sum_over_flip7 (λ col, sum_over (range 3) (λ row,
      evaluate_window ((λ i, Pure.cell b (row + i) col)
                         <$> range WINDOW_LENGTH) piece))).
    apply sum_over_ext_in. intros col Hcol%elem_of_range. cbv beta.
    apply sum_over_ext_in. intros row Hrow%elem_of_range.
    f_equal. apply window_ext. unfold WINDOW_LENGTH. intros i Hi.
    by rewrite Hcell by lia. }
  assert (Hp :
    sum_over (range 3) (λ row, sum_over (range 4) (λ col,
      evaluate_window ((λ i, Pure.cell (mirror b) (row + i) (col + i))
                         <$> range WINDOW_LENGTH) piece))
    = sum_over (range 3) (λ row, sum_over (range2 3 7) (λ col,
        evaluate_window ((λ i, Pure.cell b (row + i) (col - i))
                           <$> range WINDOW_LENGTH) piece))).
  { apply sum_over_ext_in. intros row Hrow%elem_of_range.
    rewrite <- (sum_over_flip_low (λ col,
      evaluate_window ((λ i, Pure.cell b (row + i) (col - i))
                         <$> range WINDOW_LENGTH) piece)).
    apply sum_over_ext_in. intros col Hcol%elem_of_range. cbv beta.
    f_equal. apply window_ext. unfold WINDOW_LENGTH. intros i Hi.
    rewrite Hcell by lia. f_equal. lia. }
  assert (Hn :
    sum_over (range 3) (λ row, sum_over (range2 3 7) (λ col,
      evaluate_window ((λ i, Pure.cell (mirror b) (row + i) (col - i))
                         <$> range WINDOW_LENGTH) piece))
    = sum_over (range 3) (λ row, sum_over (range 4) (λ col,
        evaluate_window ((λ i, Pure.cell b (row + i) (col + i))
                           <$> range WINDOW_LENGTH) piece))).
  { apply sum_over_ext_in. intros row Hrow%elem_of_range.
    rewrite <- (sum_over_flip_high (λ col,
      evaluate_window ((λ i, Pure.cell b (row + i) (col + i))
                         <$> range WINDOW_LENGTH) piece)).
    apply sum_over_ext_in. intros col Hcol%elem_of_range2. cbv beta.
    f_equal. apply window_ext. unfold WINDOW_LENGTH. intros i Hi.
    rewrite Hcell by lia. f_equal. lia. }
  rewrite Hcentre, Hh, Hv, Hp, Hn. lia.
Qed.

Lemma winning_move_mirror_1 (b : ndarray) (piece : Z) :
  well_shaped b = true →
  Pure.winning_move (mirror b) piece = true →
  Pure.winning_move b piece = true.
Proof.
  intros Hb. rewrite !winning_move_iff.
  unfold BOARD_HEIGHT, BOARD_WIDTH, WINDOW_LENGTH.
  assert (Hcell : ∀ row col, 0 ≤ row < 6 → 0 ≤ col < 7 →
            Pure.cell (mirror b) row col = Pure.cell b row (6 - col)).
  { intros row col Hr Hc. by rewrite cell_mirror. }
  intros [(row & col & ? & ? & Hc)|[(row & col & ? & ? & Hc)
          |[(row & col & ? & ? & Hc)|(row & col & ? & ? & Hc)]]].
  - left. exists row, (3 - col). split; [lia|]. split; [lia|].
    intros i Hi. rewrite <- (Hc (3 - i)) by lia.
    rewrite Hcell by lia. f_equal. lia.
  - right; left. exists row, (6 - col). split; [lia|]. split; [lia|].
    intros i Hi. rewrite <- (Hc i) by lia. by rewrite Hcell by lia.
  - right; right; right. exists (row + 3), (3 - col).
    split; [lia|]. split; [lia|].
    intros i Hi. rewrite <- (Hc (3 - i)) by lia.
    rewrite Hcell by lia. f_equal; lia.
  - right; right; left. exists (row - 3), (3 - col).
    split; [lia|]. split; [lia|].
    intros i Hi. rewrite <- (Hc (3 - i)) by lia.
    rewrite Hcell by lia. f_equal; lia.
Qed.

Lemma winning_move_mirror (b : ndarray) (piece : Z) :
  well_shaped b = true →
  Pure.winning_move (mirror b) piece = Pure.winning_move b piece.
Proof.
  intros Hb.
  destruct (Pure.winning_move (mirror b) piece) eqn:Hm.
  - symmetry. by apply winning_move_mirror_1.
  - destruct (Pure.winning_move b piece) eqn:Hw; [|done].
    rewrite <- (mirror_involutive b) in Hw.
    apply winning_move_mirror_1 in Hw; [congruence|].
    by apply well_shaped_mirror.
Qed.

Lemma is_full_mirror (b : ndarray) :
  well_shaped b = true → Pure.is_full (mirror b) = Pure.is_full b.
Proof.
  intros Hb. apply eq_true_iff_eq. unfold Pure.is_full.
  rewrite !forallb_forall. setoid_rewrite <- list_elem_of_In.
  setoid_rewrite elem_of_range. unfold BOARD_WIDTH.
  split; intros H col Hcol; specialize (H (6 - col) ltac:(lia)).
  - rewrite cell_mirror in H by (done || unfold BOARD_HEIGHT, BOARD_WIDTH; lia).
    by replace (BOARD_WIDTH - 1 - (6 - col)) with col in H
      by (unfold BOARD_WIDTH; lia).
  - rewrite cell_mirror by (done || unfold BOARD_HEIGHT, BOARD_WIDTH; lia).
    by replace (BOARD_WIDTH - 1 - col) with (6 - col)
      by (unfold BOARD_WIDTH; lia).
Qed.

(** * The claims *)

(** C1, as stated, fails: with search depth 0 the root call is a base case
    and [get_best_move] returns [None] on the empty board, which is not
    terminal and has seven legal columns. *)
Lemma C1_no_column_at_depth_zero :
  well_shaped empty_board = true
  ∧ is_terminal_node empty_board = Some false
  ∧ get_valid_moves empty_board = Some [0; 1; 2; 3; 4; 5; 6]
  ∧ get_best_move 1 0 0%nat [empty_board]
    = Ok None [empty_board; empty_board].
Proof. repeat split; reflexivity. Qed.

(** C1 (amended): for every board that is not terminal and every search
    depth other than 0, [get_best_move] returns a column of
    [get_valid_moves(board)], that is a column whose top cell is [EMPTY]. *)
Theorem C1_best_move_is_valid (fuel : nat) (self_depth : Z) (game_board : loc)
    (h : heap) (b : ndarray) :
  h !! game_board = Some b → well_shaped b = true →
  is_terminal_node b = Some false → self_depth ≠ 0 →
  enough_fuel fuel self_depth b →
  ∃ col moves h',
    get_best_move fuel self_depth game_board h = Ok (Some col) h'
    ∧ get_valid_moves b = Some moves ∧ col ∈ moves
    ∧ getitem b 0 col = Some EMPTY.
Proof.
  intros Hh Hb Hterm Hd Hf.
  rewrite is_terminal_node_total in Hterm by done. injection Hterm as Hterm.
  destruct (pure_minimax_terminates fuel b self_depth NegInf PosInf true Hb Hf)
    as [r Hr].
  destruct (pure_minimax_column _ _ _ _ _ _ Hterm Hd Hr) as (c & Hc & Hin).
  pose proof (get_best_move_computes fuel self_depth game_board h b Hh Hb)
    as Hm.
  rewrite Hr in Hm. destruct Hm as (h' & Hm & _). simpl in Hm.
  rewrite Hc in Hm.
  exists c, (Pure.get_valid_moves b), h'. split; [done|].
  split; [by apply get_valid_moves_total|]. split; [done|].
  apply elem_of_valid_moves in Hin as [Hrange Hcell].
  rewrite getitem_in_range by (done || unfold BOARD_HEIGHT; lia).
  by rewrite Hcell.
Qed.

Lemma C1_best_move_is_valid_witness :
  [empty_board] !! 0%nat = Some empty_board
  ∧ well_shaped empty_board = true
  ∧ is_terminal_node empty_board = Some false
  ∧ 1 ≠ 0
  ∧ enough_fuel 2 1 empty_board
  ∧ ∃ col moves h',
      get_best_move 2 1 0%nat [empty_board] = Ok (Some col) h'
      ∧ get_valid_moves empty_board = Some moves ∧ col ∈ moves
      ∧ getitem empty_board 0 col = Some EMPTY.
Proof.
  assert (H1 : [empty_board] !! 0%nat = Some empty_board) by reflexivity.
  assert (H2 : well_shaped empty_board = true) by reflexivity.
  assert (H3 : is_terminal_node empty_board = Some false) by reflexivity.
  assert (H4 : 1 ≠ 0) by lia.
  assert (H5 : enough_fuel 2 1 empty_board) by (left; lia).
  exact (conj H1 (conj H2 (conj H3 (conj H4 (conj H5
    (C1_best_move_is_valid 2 1 0%nat [empty_board] empty_board
       H1 H2 H3 H4 H5)))))).
Defined.

(** C3: for every board and every depth, the root call
    [minimax(board, depth, -inf, +inf, True)] returns the column (and the
    score) of the exhaustive search without pruning over the same tree, with
    the same move order and the same strict update rule. *)
Theorem C3_pruning_keeps_the_column (fuel : nat) (board : loc) (depth : Z)
    (h : heap) (b : ndarray) :
  h !! board = Some b → well_shaped b = true → enough_fuel fuel depth b →
  ∃ column value h',
    minimax fuel board depth NegInf PosInf true h = Ok (column, value) h'
    ∧ exhaustive_minimax fuel b depth true = Some (column, value).
Proof.
  intros Hh Hb Hf.
  destruct (exhaustive_terminates fuel b depth true Hb Hf) as [[c v] Hex].
  pose proof (minimax_root_exhaustive _ _ _ _ Hex) as Hp.
  pose proof (minimax_refines fuel board b depth NegInf PosInf true h Hh Hb)
    as Hm.
  rewrite Hp in Hm. destruct Hm as (h' & Hm & _).
  by exists c, v, h'.
Qed.

Lemma C3_pruning_keeps_the_column_witness :
  [empty_board] !! 0%nat = Some empty_board
  ∧ well_shaped empty_board = true
  ∧ enough_fuel 3 2 empty_board
  ∧ ∃ column value h',
      minimax 3 0%nat 2 NegInf PosInf true [empty_board]
      = Ok (column, value) h'
      ∧ exhaustive_minimax 3 empty_board 2 true = Some (column, value).
Proof.
  assert (H1 : [empty_board] !! 0%nat = Some empty_board) by reflexivity.
  assert (H2 : well_shaped empty_board = true) by reflexivity.
  assert (H3 : enough_fuel 3 2 empty_board) by (left; lia).
  exact (conj H1 (conj H2 (conj H3
    (C3_pruning_keeps_the_column 3 0%nat 2 [empty_board] empty_board
       H1 H2 H3)))).
Defined.

(** C7: a call of [minimax] leaves every array of the store it started
    from unchanged, the board it was given among them: the hypothetical
    pieces are placed on fresh copies only. *)
Theorem C7_minimax_leaves_the_board_unchanged (fuel : nat) (board : loc)
    (depth : Z) (alpha beta : score) (maximizing_player : bool)
    (h h' : heap) (r : option Z * score) :
  minimax fuel board depth alpha beta maximizing_player h = Ok r h' →
  ∀ l a, h !! l = Some a → h' !! l = Some a.
Proof.
  intros Hm l a Hl. eapply prefix_lookup_Some; [exact Hl|].
  by eapply minimax_frame.
Qed.

Lemma C7_minimax_leaves_the_board_unchanged_witness :
  ∃ r h',
    minimax 2 0%nat 1 NegInf PosInf true [board_three] = Ok r h'
    ∧ ∀ l a, [board_three] !! l = Some a → h' !! l = Some a.
Proof.
  eexists _, _. split.
  - vm_compute. reflexivity.
  - eapply (C7_minimax_leaves_the_board_unchanged 2 0%nat 1 NegInf PosInf
              true).
    vm_compute. reflexivity.
Defined.

(** C8: for every board and every depth >= 0, [minimax] terminates: with
    a recursion bound above the depth the bound is never reached, and every
    such bound gives the same result. *)
Theorem C8_minimax_terminates (fuel : nat) (board : loc) (depth : Z)
    (alpha beta : score) (maximizing_player : bool) (h : heap)
    (b : ndarray) :
  h !! board = Some b → well_shaped b = true →
  0 ≤ depth → (Z.to_nat depth < fuel)%nat →
  ∃ r, ∀ fuel', (fuel ≤ fuel')%nat →
    ∃ h', minimax fuel' board depth alpha beta maximizing_player h = Ok r h'.
Proof.
  intros Hh Hb Hd Hf.
  destruct (pure_minimax_terminates fuel b depth alpha beta maximizing_player
              Hb (enough_fuel_depth _ _ _ Hd Hf)) as [r Hr].
  exists r. intros fuel' Hle.
  pose proof (minimax_refines fuel' board b depth alpha beta
                maximizing_player h Hh Hb) as Hm.
  rewrite (pure_minimax_fuel_le _ _ _ _ _ _ _ _ Hle Hr) in Hm.
  destruct Hm as (h' & Hm & _). by exists h'.
Qed.

Lemma C8_minimax_terminates_witness :
  [empty_board] !! 0%nat = Some empty_board
  ∧ well_shaped empty_board = true
  ∧ 0 ≤ 2 ∧ (Z.to_nat 2 < 3)%nat
  ∧ ∃ r, ∀ fuel', (3 ≤ fuel')%nat →
      ∃ h', minimax fuel' 0%nat 2 (Fin (-5)) (Fin 7) false [empty_board]
            = Ok r h'.
Proof.
  assert (H1 : [empty_board] !! 0%nat = Some empty_board) by reflexivity.
  assert (H2 : well_shaped empty_board = true) by reflexivity.
  assert (H3 : 0 ≤ 2) by lia.
  assert (H4 : (Z.to_nat 2 < 3)%nat) by (simpl; lia).
  exact (conj H1 (conj H2 (conj H3 (conj H4
    (C8_minimax_terminates 3 0%nat 2 (Fin (-5)) (Fin 7) false
       [empty_board] empty_board H1 H2 H3 H4))))).
Defined.

(** C9: on a board of 6 rows and 7 columns, for either piece, the
    absolute value of [score_position] is below 100000000. *)
Theorem C9_heuristic_below_the_sentinels (b : ndarray) (piece : Z) :
  well_shaped b = true →
  ∃ s, score_position b piece = Some s ∧ Z.abs s < 100000000.
Proof.
  intros Hb. exists (Pure.score_position b piece).
  split; [by apply score_position_total|].
  pose proof (score_position_bounds b piece). lia.
Qed.

Lemma C9_heuristic_below_the_sentinels_witness :
  well_shaped board_three = true
  ∧ ∃ s, score_position board_three AI_PIECE = Some s
         ∧ Z.abs s < 100000000.
Proof.
  assert (H1 : well_shaped board_three = true) by reflexivity.
  exact (conj H1 (C9_heuristic_below_the_sentinels board_three AI_PIECE H1)).
Defined.

(** C10: on a board of the game's shape [minimax] performs no invalid
    access: a board that is not terminal has a first valid move, every valid
    move has an open row inside the board whose cell is [EMPTY] (so never
    [-1]), and no call of [minimax] raises [IndexError]. *)
Theorem C10_no_invalid_access (b : ndarray) :
  well_shaped b = true →
  (is_terminal_node b = Some false →
   ∃ c rest, get_valid_moves b = Some (c :: rest)
             ∧ index (c :: rest) 0 = Some c)
  ∧ (∀ moves col, get_valid_moves b = Some moves → col ∈ moves →
     ∃ row, get_next_open_row b col = Some row
            ∧ 0 ≤ row < BOARD_HEIGHT ∧ getitem b row col = Some EMPTY)
  ∧ (∀ fuel board depth alpha beta maximizing_player h e,
     h !! board = Some b →
     minimax fuel board depth alpha beta maximizing_player h = Fail e →
     e = OutOfFuel).
Proof.
  intros Hb. split; [|split].
  - rewrite is_terminal_node_total by done. intros [= Hterm].
    destruct (valid_moves_nonempty b Hterm) as [c0 Hc0].
    rewrite get_valid_moves_total by done.
    destruct (Pure.get_valid_moves b) as [|c rest];
      [by apply elem_of_nil in Hc0|].
    exists c, rest. split; [done|apply index_head].
  - intros moves col. rewrite get_valid_moves_total by done.
    intros [= <-] [Hcol Htop]%elem_of_valid_moves.
    destruct (get_next_open_row_spec b col Htop) as [Hrow Hcell].
    exists (Pure.get_next_open_row b col).
    split; [by apply get_next_open_row_total|]. split; [done|].
    rewrite getitem_in_range by done. by rewrite Hcell.
  - intros fuel board depth alpha beta mp h e Hh Hfail.
    pose proof (minimax_refines fuel board b depth alpha beta mp h Hh Hb)
      as Hm.
    unfold computes in Hm.
    destruct (Pure.minimax fuel b depth alpha beta mp).
    + destruct Hm as (h' & Hm & _). congruence.
    + congruence.
Qed.

Lemma C10_no_invalid_access_witness :
  well_shaped board_three = true
  ∧ (is_terminal_node board_three = Some false →
     ∃ c rest, get_valid_moves board_three = Some (c :: rest)
               ∧ index (c :: rest) 0 = Some c)
  ∧ (∀ moves col, get_valid_moves board_three = Some moves → col ∈ moves →
     ∃ row, get_next_open_row board_three col = Some row
            ∧ 0 ≤ row < BOARD_HEIGHT
            ∧ getitem board_three row col = Some EMPTY)
  ∧ (∀ fuel board depth alpha beta maximizing_player h e,
     h !! board = Some board_three →
     minimax fuel board depth alpha beta maximizing_player h = Fail e →
     e = OutOfFuel).
Proof.
  assert (H1 : well_shaped board_three = true) by reflexivity.
  exact (conj H1 (C10_no_invalid_access board_three H1)).
Defined.




(** C4: for every board and every piece, [winning_move(board, piece)] is
    true if and only if [WINDOW_LENGTH] consecutive cells along a row, a
    column or one of the two diagonals equal the piece; the win test of
    [connect4.py] is the same function. *)
Theorem C4_winning_move_iff_run (b : ndarray) (piece : Z) :
  well_shaped b = true →
  (winning_move b piece = Some true ↔ has_run b piece)
  ∧ (winning_move b piece = Some false ↔ ¬ has_run b piece)
  ∧ Connect4.winning_move b piece = winning_move b piece.
Proof.
  intros Hb. split; [|split; [|reflexivity]].
  - rewrite winning_move_total, (has_run_iff b piece Hb) by done.
    split; [by intros [= ->]|by intros ->].
  - rewrite winning_move_total, (has_run_iff b piece Hb) by done.
    destruct (Pure.winning_move b piece); split; done.
Qed.

Lemma C4_winning_move_iff_run_witness :
  well_shaped board_four = true
  ∧ (winning_move board_four AI_PIECE = Some true
     ↔ has_run board_four AI_PIECE)
  ∧ (winning_move board_four AI_PIECE = Some false
     ↔ ¬ has_run board_four AI_PIECE)
  ∧ Connect4.winning_move board_four AI_PIECE
    = winning_move board_four AI_PIECE.
Proof.
  assert (H1 : well_shaped board_four = true) by reflexivity.
  exact (conj H1 (C4_winning_move_iff_run board_four AI_PIECE H1)).
Defined.

(** A planted run of exactly four is detected, a run of three is not. *)
Example run_of_four_is_detected :
  winning_move board_four AI_PIECE = Some true
  ∧ Connect4.winning_move board_four AI_PIECE = Some true.
Proof. split; reflexivity. Qed.

Example run_of_three_is_not_detected :
  winning_move board_three AI_PIECE = Some false
  ∧ Connect4.winning_move board_three AI_PIECE = Some false.
Proof. split; reflexivity. Qed.

(** C5: for every board and every depth, the base case of [minimax]
    returns no column and the score 100000000 if the AI has a connection
    (also when the player has one too), else -100000000 if the player has
    one, else 0 if the board is full, else, at depth 0 on an undecided
    board, [score_position(board, AI_PIECE)]. *)
Theorem C5_base_case_scores (fuel : nat) (board : loc) (depth : Z)
    (alpha beta : score) (maximizing_player : bool) (h : heap)
    (b : ndarray) :
  h !! board = Some b → well_shaped b = true →
  let result :=
    minimax (S fuel) board depth alpha beta maximizing_player h in
  (winning_move b AI_PIECE = Some true →
   result = Ok (None, Fin 100000000) h)
  ∧ (winning_move b AI_PIECE = Some false →
     winning_move b PLAYER_PIECE = Some true →
     result = Ok (None, Fin (-100000000)) h)
  ∧ (winning_move b AI_PIECE = Some false →
     winning_move b PLAYER_PIECE = Some false →
     get_valid_moves b = Some [] →
     result = Ok (None, Fin 0) h)
  ∧ (is_terminal_node b = Some false → depth = 0 →
     ∀ s, score_position b AI_PIECE = Some s →
     result = Ok (None, Fin s) h).
Proof.
  intros Hh Hb result. subst result.
  rewrite !winning_move_total, get_valid_moves_total, is_terminal_node_total,
    score_position_total by done.
  assert (Hfull : Pure.get_valid_moves b = [] → Pure.is_full b = true).
  { intros Hnil. destruct (Pure.is_full b) eqn:Hf; [done|]. exfalso.
    unfold Pure.is_full in Hf. apply forallb_false in Hf as (col & Hin & Hn).
    assert (Hcol : col ∈ Pure.get_valid_moves b).
    { apply elem_of_valid_moves. apply elem_of_range in Hin.
      split; [done|]. apply negb_false_iff in Hn. by apply Z.eqb_eq. }
    rewrite Hnil in Hcol. by apply elem_of_nil in Hcol. }
  pose proof (minimax_base fuel board depth alpha beta maximizing_player
                h b Hh Hb) as Hbase.
  repeat split.
  - intros [= Hai]. rewrite Hbase.
    + unfold Pure.leaf_score, Pure.is_terminal_node.
      by rewrite Hai, orb_true_r.
    + unfold Pure.is_terminal_node. by rewrite Hai, !orb_true_r.
  - intros [= Hai] [= Hpl]. rewrite Hbase.
    + unfold Pure.leaf_score, Pure.is_terminal_node. by rewrite Hai, Hpl.
    + unfold Pure.is_terminal_node. by rewrite Hpl, orb_true_r.
  - intros [= Hai] [= Hpl] [= Hnil%Hfull]. rewrite Hbase.
    + unfold Pure.leaf_score, Pure.is_terminal_node.
      by rewrite Hai, Hpl, Hnil.
    + unfold Pure.is_terminal_node. by rewrite Hnil, !orb_true_r.
  - intros [= Hterm] -> s [= <-]. rewrite Hbase; [|done].
    unfold Pure.leaf_score. by rewrite Hterm.
Qed.

Lemma C5_base_case_scores_witness :
  [board_four] !! 0%nat = Some board_four
  ∧ well_shaped board_four = true
  ∧ winning_move board_four AI_PIECE = Some true
  ∧ minimax 1 0%nat 3 NegInf PosInf false [board_four]
    = Ok (None, Fin 100000000) [board_four].
Proof.
  assert (H1 : [board_four] !! 0%nat = Some board_four) by reflexivity.
  assert (H2 : well_shaped board_four = true) by reflexivity.
  assert (H3 : winning_move board_four AI_PIECE = Some true) by reflexivity.
  exact (conj H1 (conj H2 (conj H3
    (proj1 (C5_base_case_scores 0 0%nat 3 NegInf PosInf false [board_four]
              board_four H1 H2) H3)))).
Defined.

(** C6, as stated, fails: with one AI piece at the bottom of the centre
    column the board scores 3 for the AI, and the board with the sides
    exchanged scores 3 for the player, not -3. *)
Lemma C6_swapped_score_is_not_negated :
  well_shaped board_centre = true
  ∧ score_position board_centre AI_PIECE = Some 3
  ∧ score_position (swap_sides board_centre) (swap_piece AI_PIECE) = Some 3
  ∧ swap_piece AI_PIECE = PLAYER_PIECE
  ∧ 3 ≠ - 3.
Proof. repeat split; try reflexivity. lia. Qed.

(** C6 (amended): for every board and for the board obtained by
    exchanging every [PLAYER_PIECE] cell with [AI_PIECE] and vice versa,
    [score_position(board, SideA)] equals
    [score_position(boardWithSidesSwapped, SideB)]. *)
Theorem C6_score_of_swapped_sides (b : ndarray) (piece : Z) :
  well_shaped b = true →
  piece = PLAYER_PIECE ∨ piece = AI_PIECE →
  ∃ s, score_position b piece = Some s
       ∧ score_position (swap_sides b) (swap_piece piece) = Some s.
Proof.
  intros Hb Hp. exists (Pure.score_position b piece).
  split; [by apply score_position_total|].
  rewrite score_position_total by (by rewrite well_shaped_swap).
  by rewrite score_position_swap.
Qed.

Lemma C6_score_of_swapped_sides_witness :
  well_shaped board_three = true
  ∧ (AI_PIECE = PLAYER_PIECE ∨ AI_PIECE = AI_PIECE)
  ∧ ∃ s, score_position board_three AI_PIECE = Some s
         ∧ score_position (swap_sides board_three) (swap_piece AI_PIECE)
           = Some s.
Proof.
  assert (H1 : well_shaped board_three = true) by reflexivity.
  assert (H2 : AI_PIECE = PLAYER_PIECE ∨ AI_PIECE = AI_PIECE)
    by (right; reflexivity).
  exact (conj H1 (conj H2
    (C6_score_of_swapped_sides board_three AI_PIECE H1 H2))).
Defined.

(** * Further properties of the game object of [connect4.py] *)

(** X1: [play_move] on a finished game, whatever the column, and on a column
    whose top cell is taken, returns [False] and changes neither the object
    nor any array of the store. *)
Theorem play_move_refused (self : Game.Connect4) (col : Z) (h : heap)
    (b : ndarray) :
  h !! Game.board self = Some b → well_shaped b = true →
  Game.game_over self = true
  ∨ (0 ≤ col < BOARD_WIDTH ∧ ∃ x, getitem b 0 col = Some x ∧ x ≠ EMPTY) →
  Game.play_move self col h = Ok (self, false) h.
Proof.
  intros Hh Hb [Ho|(Hcol & x & Hx & Hne)].
  - by apply play_move_over.
  - eapply play_move_full_column; [done..|].
    rewrite getitem_in_range in Hx by (done || unfold BOARD_HEIGHT; lia).
    by injection Hx as ->.
Qed.

Lemma play_move_refused_witness :
  [board_full_column] !! Game.board game_start = Some board_full_column
  ∧ well_shaped board_full_column = true
  ∧ (Game.game_over game_start = true
     ∨ (0 ≤ 3 < BOARD_WIDTH
        ∧ ∃ x, getitem board_full_column 0 3 = Some x ∧ x ≠ EMPTY))
  ∧ Game.play_move game_start 3 [board_full_column]
    = Ok (game_start, false) [board_full_column].
Proof.
  assert (H1 : [board_full_column] !! Game.board game_start
               = Some board_full_column) by reflexivity.
  assert (H2 : well_shaped board_full_column = true) by reflexivity.
  assert (H3 : Game.game_over game_start = true
               ∨ (0 ≤ 3 < BOARD_WIDTH
                  ∧ ∃ x, getitem board_full_column 0 3 = Some x ∧ x ≠ EMPTY)).
  { right. split; [by vm_compute|]. exists 2. split; [reflexivity|].
    by vm_compute. }
  exact (conj H1 (conj H2 (conj H3
    (play_move_refused game_start 3 [board_full_column] board_full_column
       H1 H2 H3)))).
Defined.

(** X2: an accepted move, in a game that is not over and a column whose top
    cell is empty, returns [True] and writes the mover's piece to exactly one
    cell, the lowest empty cell of the column; every other cell of the board
    and every other array of the store is as before. *)
Theorem play_move_drops_one_piece (self : Game.Connect4) (col : Z) (h : heap)
    (b : ndarray) :
  h !! Game.board self = Some b → well_shaped b = true →
  Game.game_over self = false →
  0 ≤ col < BOARD_WIDTH → getitem b 0 col = Some EMPTY →
  ∃ self' b' row,
    Game.play_move self col h = Ok (self', true) (<[Game.board self := b']> h)
    ∧ Game.board self' = Game.board self
    ∧ 0 ≤ row < BOARD_HEIGHT
    ∧ getitem b row col = Some EMPTY
    ∧ (∀ r, row < r < BOARD_HEIGHT → getitem b r col ≠ Some EMPTY)
    ∧ getitem b' row col = Some (Game.turn self)
    ∧ ∀ r c, 0 ≤ r < BOARD_HEIGHT → 0 ≤ c < BOARD_WIDTH →
        (r, c) ≠ (row, col) → getitem b' r c = getitem b r c.
Proof.
  intros Hh Hb Ho Hcol Htop.
  rewrite getitem_in_range in Htop by (done || unfold BOARD_HEIGHT; lia).
  injection Htop as Htop.
  assert (Hv : col ∈ Pure.get_valid_moves b) by (by apply elem_of_valid_moves).
  destruct (apply_move_cells b col (Game.turn self) Hb Hv)
    as (_ & Hb' & Hcells).
  destruct (get_next_open_row_spec b col Htop) as [Hrow Hcell].
  eexists _, _, (Pure.get_next_open_row b col).
  split; [by apply play_move_accepts|].
  split; [apply board_after_move|]. split; [done|].
  split; [by rewrite getitem_in_range, Hcell|]. split.
  { intros r Hr. rewrite getitem_in_range by (done || lia).
    intros [= E]. by apply (get_next_open_row_lowest b col r). }
  split.
  { rewrite getitem_in_range, Hcells by done. by rewrite !Z.eqb_refl. }
  intros r c Hr Hc Hne. rewrite !getitem_in_range, Hcells by done.
  destruct (Z.eqb_spec r (Pure.get_next_open_row b col)) as [->|];
    destruct (Z.eqb_spec c col) as [->|]; done.
Qed.

Lemma play_move_drops_one_piece_witness :
  [board_three] !! Game.board game_running = Some board_three
  ∧ well_shaped board_three = true
  ∧ Game.game_over game_running = false
  ∧ 0 ≤ 3 < BOARD_WIDTH
  ∧ getitem board_three 0 3 = Some EMPTY
  ∧ ∃ self' b' row,
      Game.play_move game_running 3 [board_three]
      = Ok (self', true) (<[Game.board game_running := b']> [board_three])
      ∧ Game.board self' = Game.board game_running
      ∧ 0 ≤ row < BOARD_HEIGHT
      ∧ getitem board_three row 3 = Some EMPTY
      ∧ (∀ r, row < r < BOARD_HEIGHT → getitem board_three r 3 ≠ Some EMPTY)
      ∧ getitem b' row 3 = Some (Game.turn game_running)
      ∧ ∀ r c, 0 ≤ r < BOARD_HEIGHT → 0 ≤ c < BOARD_WIDTH →
          (r, c) ≠ (row, 3) → getitem b' r c = getitem board_three r c.
Proof.
  assert (H1 : [board_three] !! Game.board game_running = Some board_three)
    by reflexivity.
  assert (H2 : well_shaped board_three = true) by reflexivity.
  assert (H3 : Game.game_over game_running = false) by reflexivity.
  assert (H4 : 0 ≤ 3 < BOARD_WIDTH) by (by vm_compute).
  assert (H5 : getitem board_three 0 3 = Some EMPTY) by reflexivity.
  exact (conj H1 (conj H2 (conj H3 (conj H4 (conj H5
    (play_move_drops_one_piece game_running 3 [board_three] board_three
       H1 H2 H3 H4 H5)))))).
Defined.

(** X3: a negative column from [-BOARD_WIDTH] to [-1] is not rejected:
    Python's indexing counts it from the right, and [play_move] does with it
    exactly what it does with the column [col + BOARD_WIDTH]. *)
Theorem play_move_negative_column (self : Game.Connect4) (col : Z) (h : heap)
    (b : ndarray) :
  h !! Game.board self = Some b → well_shaped b = true →
  - BOARD_WIDTH ≤ col < 0 →
  Game.play_move self col h = Game.play_move self (col + BOARD_WIDTH) h.
Proof. apply play_move_wrap. Qed.

Lemma play_move_negative_column_witness :
  [board_three] !! Game.board game_running = Some board_three
  ∧ well_shaped board_three = true
  ∧ - BOARD_WIDTH ≤ -4 < 0
  ∧ Game.play_move game_running (-4) [board_three]
    = Game.play_move game_running (-4 + BOARD_WIDTH) [board_three].
Proof.
  assert (H1 : [board_three] !! Game.board game_running = Some board_three)
    by reflexivity.
  assert (H2 : well_shaped board_three = true) by reflexivity.
  assert (H3 : - BOARD_WIDTH ≤ -4 < 0) by (by vm_compute).
  exact (conj H1 (conj H2 (conj H3
    (play_move_negative_column game_running (-4) [board_three] board_three
       H1 H2 H3)))).
Defined.

(** X4: in a game that is not over, a column of [BOARD_WIDTH] or more, or
    below [-BOARD_WIDTH], makes [play_move] raise [IndexError] (from
    [is_valid_location], before anything is written). *)
Theorem play_move_column_out_of_range (self : Game.Connect4) (col : Z)
    (h : heap) (b : ndarray) :
  h !! Game.board self = Some b → well_shaped b = true →
  Game.game_over self = false →
  col < - BOARD_WIDTH ∨ BOARD_WIDTH ≤ col →
  Game.is_valid_location self col h = Fail IndexError
  ∧ Game.play_move self col h = Fail IndexError.
Proof.
  intros Hh Hb Ho Hcol. split; [|by eapply play_move_outside].
  unfold Game.is_valid_location, call, load. rewrite !run_bind, Hh.
  by rewrite getitem_outside.
Qed.

Lemma play_move_column_out_of_range_witness :
  [empty_board] !! Game.board game_start = Some empty_board
  ∧ well_shaped empty_board = true
  ∧ Game.game_over game_start = false
  ∧ (7 < - BOARD_WIDTH ∨ BOARD_WIDTH ≤ 7)
  ∧ Game.is_valid_location game_start 7 [empty_board] = Fail IndexError
  ∧ Game.play_move game_start 7 [empty_board] = Fail IndexError.
Proof.
  assert (H1 : [empty_board] !! Game.board game_start = Some empty_board)
    by reflexivity.
  assert (H2 : well_shaped empty_board = true) by reflexivity.
  assert (H3 : Game.game_over game_start = false) by reflexivity.
  assert (H4 : 7 < - BOARD_WIDTH ∨ BOARD_WIDTH ≤ 7)
    by (right; by vm_compute).
  exact (conj H1 (conj H2 (conj H3 (conj H4
    (play_move_column_out_of_range game_start 7 [empty_board] empty_board
       H1 H2 H3 H4))))).
Defined.

(** X5: in every state a game object reaches, its board is a
    [BOARD_HEIGHT] by [BOARD_WIDTH] array whose cells hold [EMPTY],
    [PLAYER_PIECE] or [AI_PIECE], and no piece floats above an empty cell. *)
Theorem game_board_is_stacked (self : Game.Connect4) (h : heap) :
  reachable self h →
  ∃ b, h !! Game.board self = Some b
       ∧ well_shaped b = true ∧ pieces_only b = true ∧ gravity b = true.
Proof.
  intros (b & Hh & Hinv)%reachable_inv. exists b.
  by destruct Hinv.
Qed.

Lemma game_board_is_stacked_witness :
  reachable game_running [board_first_move]
    ∧ ∃ b, [board_first_move] !! Game.board game_running = Some b
           ∧ well_shaped b = true ∧ pieces_only b = true ∧ gravity b = true.
Proof.
  assert (H0 : reachable game_start [empty_board])
    by exact (reachable_init [] game_start [empty_board] eq_refl).
  assert (H1 : reachable game_running [board_first_move])
    by exact (reachable_play_move game_start [empty_board] 3 game_running
                true [board_first_move] H0 eq_refl).
  exact (conj H1 (game_board_is_stacked game_running [board_first_move] H1)).
Defined.

(** X6: in every state a game object reaches, the sides have alternated
    from the player's first move: the player has as many pieces on the board
    as the AI or one more; while the game runs it is the player's turn
    exactly when the counts are equal, and when the game is over [turn] is
    the side that moved last. *)
Theorem game_sides_alternate (self : Game.Connect4) (h : heap) :
  reachable self h →
  ∃ b, h !! Game.board self = Some b
       ∧ (Game.turn self = PLAYER_PIECE ∨ Game.turn self = AI_PIECE)
       ∧ let p := count (concat b) PLAYER_PIECE in
         let a := count (concat b) AI_PIECE in
         (p = a ∨ p = a + 1)
         ∧ (Game.game_over self = false →
            (Game.turn self = PLAYER_PIECE ↔ p = a))
         ∧ (Game.game_over self = true →
            (Game.turn self = PLAYER_PIECE ↔ p = a + 1)).
Proof.
  intros (b & Hh & Hinv)%reachable_inv. exists b. split; [done|].
  destruct Hinv as [_ _ _ Ht Hc _ _]. split; [done|]. cbv zeta.
  destruct (Game.game_over self), Ht as [E|E]; rewrite E in Hc |- *;
    cbn in Hc; (split; [lia|]); split; intros; try done;
    split; intros; try done; try lia.
Qed.

Lemma game_sides_alternate_witness :
  reachable game_running [board_first_move]
    ∧ ∃ b, [board_first_move] !! Game.board game_running = Some b
       ∧ (Game.turn game_running = PLAYER_PIECE ∨ Game.turn game_running = AI_PIECE)
       ∧ let p := count (concat b) PLAYER_PIECE in
         let a := count (concat b) AI_PIECE in
         (p = a ∨ p = a + 1)
         ∧ (Game.game_over game_running = false →
            (Game.turn game_running = PLAYER_PIECE ↔ p = a))
         ∧ (Game.game_over game_running = true →
            (Game.turn game_running = PLAYER_PIECE ↔ p = a + 1)).
Proof.
  assert (H0 : reachable game_start [empty_board])
    by exact (reachable_init [] game_start [empty_board] eq_refl).
  assert (H1 : reachable game_running [board_first_move])
    by exact (reachable_play_move game_start [empty_board] 3 game_running
                true [board_first_move] H0 eq_refl).
  exact (conj H1 (game_sides_alternate game_running [board_first_move] H1)).
Defined.

(** X7: in every state a game object reaches, its flags say what the board
    shows: [game_over] is the answer of the engine's [is_terminal_node] on
    the board, and [winner] is a side exactly when [winning_move] finds four
    in a row for that side, so at most one side ever has four in a row. *)
Theorem game_flags_match_board (self : Game.Connect4) (h : heap) :
  reachable self h →
  ∃ b, h !! Game.board self = Some b
       ∧ is_terminal_node b = Some (Game.game_over self)
       ∧ ∀ p, Game.winner self = Some p ↔
              (p = PLAYER_PIECE ∨ p = AI_PIECE)
              ∧ Connect4.winning_move b p = Some true.
Proof.
  intros (b & Hh & Hinv)%reachable_inv. exists b. split; [done|].
  destruct Hinv as [Hb _ _ Ht _ Hrun Hover].
  rewrite is_terminal_node_total by done.
  assert (Hw : ∀ p, Connect4.winning_move b p = Some true
                    ↔ Pure.winning_move b p = true).
  { intros p. rewrite connect4_winning_move_total by done.
    split; [by intros [= ->]|by intros ->]. }
  destruct (Game.game_over self) eqn:Ho.
  - destruct (Hover eq_refl) as [Hopp Hwin]. split.
    { f_equal. unfold Pure.is_terminal_node.
      destruct (Game.winner self) as [p|].
      - destruct Hwin as [-> Hp]. destruct Ht as [E|E]; rewrite E in Hp;
          rewrite Hp; by rewrite ?orb_true_r.
      - destruct Hwin as [_ ->]. by rewrite orb_true_r. }
    intros p. rewrite Hw. split.
    + intros Hp. rewrite Hp in Hwin. destruct Hwin as [-> Hwin]. done.
    + intros [Hp Hwp].
      destruct (Game.winner self) as [q|]; destruct Hwin as [Hq Hwq];
        destruct (opponent_cases _ Ht) as [[E1 E2]|[E1 E2]];
        rewrite E2 in Hopp; rewrite E1 in *;
        destruct Hp as [-> | ->]; congruence.
  - destruct (Hrun eq_refl) as [Hterm Hwin]. split; [by rewrite Hterm|].
    intros p. rewrite Hw, Hwin. split; [done|]. intros [Hp Hwp]. exfalso.
    unfold Pure.is_terminal_node in Hterm.
    apply orb_false_elim in Hterm as [[H1 H2]%orb_false_elim _].
    destruct Hp as [-> | ->]; congruence.
Qed.

Lemma game_flags_match_board_witness :
  reachable game_running [board_first_move]
    ∧ ∃ b, [board_first_move] !! Game.board game_running = Some b
       ∧ is_terminal_node b = Some (Game.game_over game_running)
       ∧ ∀ p, Game.winner game_running = Some p ↔
              (p = PLAYER_PIECE ∨ p = AI_PIECE)
              ∧ Connect4.winning_move b p = Some true.
Proof.
  assert (H0 : reachable game_start [empty_board])
    by exact (reachable_init [] game_start [empty_board] eq_refl).
  assert (H1 : reachable game_running [board_first_move])
    by exact (reachable_play_move game_start [empty_board] 3 game_running
                true [board_first_move] H0 eq_refl).
  exact (conj H1 (game_flags_match_board game_running [board_first_move] H1)).
Defined.

(** * Further properties of the engine of [ai.py] *)

(** X8: the engine and the game object together: in every state a game
    object reaches in which the game is not over, an engine of any depth
    other than 0 returns a column, between 0 and [BOARD_WIDTH - 1], and
    [play_move] accepts that column. *)
Theorem best_move_is_accepted (self : Game.Connect4) (h : heap) (fuel : nat)
    (depth : Z) :
  reachable self h → Game.game_over self = false → depth ≠ 0 →
  BOARD_HEIGHT * BOARD_WIDTH < Z.of_nat fuel →
  ∃ col h1 self' h2,
    get_best_move fuel depth (Game.board self) h = Ok (Some col) h1
    ∧ 0 ≤ col < BOARD_WIDTH
    ∧ Game.play_move self col h1 = Ok (self', true) h2.
Proof.
  intros (b & Hh & Hinv)%reachable_inv Ho Hd Hf.
  pose proof (inv_shape _ _ Hinv) as Hb.
  destruct (inv_running _ _ Hinv Ho) as [Hterm _].
  pose proof (enough_fuel_cells fuel depth b Hb Hf) as Hfuel.
  destruct (pure_minimax_terminates fuel b depth NegInf PosInf true Hb Hfuel)
    as [r Hr].
  destruct (pure_minimax_column _ _ _ _ _ _ Hterm Hd Hr) as (c & Hc & Hin).
  pose proof (get_best_move_computes fuel depth (Game.board self) h b Hh Hb)
    as Hm.
  rewrite Hr in Hm. destruct Hm as (h1 & Hm & Hp). simpl in Hm.
  rewrite Hc in Hm.
  assert (Hh1 : h1 !! Game.board self = Some b)
    by (by eapply prefix_lookup_Some).
  eexists c, h1, _, _. split; [done|]. split.
  - by apply elem_of_valid_moves in Hin as [? _].
  - by apply play_move_accepts.
Qed.

Lemma best_move_is_accepted_witness :
  reachable game_running [board_first_move]
  ∧ Game.game_over game_running = false
  ∧ 1 ≠ 0
  ∧ BOARD_HEIGHT * BOARD_WIDTH < Z.of_nat 43
  ∧ ∃ col h1 self' h2,
      get_best_move 43 1 (Game.board game_running) [board_first_move]
      = Ok (Some col) h1
      ∧ 0 ≤ col < BOARD_WIDTH
      ∧ Game.play_move game_running col h1 = Ok (self', true) h2.
Proof.
  assert (H0 : reachable game_start [empty_board])
    by exact (reachable_init [] game_start [empty_board] eq_refl).
  assert (H1 : reachable game_running [board_first_move])
    by exact (reachable_play_move game_start [empty_board] 3 game_running
                true [board_first_move] H0 eq_refl).
  assert (H2 : Game.game_over game_running = false) by reflexivity.
  assert (H3 : 1 ≠ 0) by lia.
  assert (H4 : BOARD_HEIGHT * BOARD_WIDTH < Z.of_nat 43) by (by vm_compute).
  exact (conj H1 (conj H2 (conj H3 (conj H4
    (best_move_is_accepted game_running [board_first_move] 43 1
       H1 H2 H3 H4))))).
Defined.

(** X9: [get_next_open_row] never fails on a column of the board; it
    returns the lowest row of the column whose cell is [EMPTY] (the rows
    below it hold pieces), and [-1] exactly when no cell of the column is
    [EMPTY].  The method of the game object is the same loop. *)
Theorem next_open_row_is_lowest_empty (b : ndarray) (col : Z) :
  well_shaped b = true → 0 ≤ col < BOARD_WIDTH →
  ∃ row,
    get_next_open_row b col = Some row
    ∧ (∀ r, row < r < BOARD_HEIGHT → getitem b r col ≠ Some EMPTY)
    ∧ ((row = -1 ∧ ∀ r, 0 ≤ r < BOARD_HEIGHT → getitem b r col ≠ Some EMPTY)
       ∨ (0 ≤ row < BOARD_HEIGHT ∧ getitem b row col = Some EMPTY)).
Proof.
  intros Hb Hcol. exists (Pure.get_next_open_row b col).
  split; [by apply get_next_open_row_total|].
  assert (Hlow : ∀ r, Pure.get_next_open_row b col < r < BOARD_HEIGHT →
                      getitem b r col ≠ Some EMPTY).
  { intros r Hr. destruct (Z_lt_ge_dec r 0) as [Hneg|Hpos].
    - pose proof (first_empty_row_result b col
                    (range_down (BOARD_HEIGHT - 1) (-1))) as [E|[Hin _]];
        fold (Pure.get_next_open_row b col) in *; [lia|].
      apply elem_of_range_down in Hin. lia.
    - rewrite getitem_in_range by (done || lia). intros [= E].
      by apply (get_next_open_row_lowest b col r). }
  split; [done|].
  pose proof (first_empty_row_result b col
                (range_down (BOARD_HEIGHT - 1) (-1))) as [E|[Hin Hc]];
    fold (Pure.get_next_open_row b col) in *.
  - left. split; [done|]. intros r Hr. apply Hlow. lia.
  - right. apply elem_of_range_down in Hin.
    split; [lia|]. rewrite getitem_in_range by (done || lia). by rewrite Hc.
Qed.

Lemma next_open_row_is_lowest_empty_witness :
  well_shaped board_three = true
  ∧ 0 ≤ 4 < BOARD_WIDTH
  ∧ ∃ row,
      get_next_open_row board_three 4 = Some row
      ∧ (∀ r, row < r < BOARD_HEIGHT → getitem board_three r 4 ≠ Some EMPTY)
      ∧ ((row = -1
          ∧ ∀ r, 0 ≤ r < BOARD_HEIGHT → getitem board_three r 4 ≠ Some EMPTY)
         ∨ (0 ≤ row < BOARD_HEIGHT
            ∧ getitem board_three row 4 = Some EMPTY)).
Proof.
  assert (H1 : well_shaped board_three = true) by reflexivity.
  assert (H2 : 0 ≤ 4 < BOARD_WIDTH) by (by vm_compute).
  exact (conj H1 (conj H2
    (next_open_row_is_lowest_empty board_three 4 H1 H2))).
Defined.

(** X10: on a column without an empty cell [get_next_open_row] answers
    [-1], and [drop_piece] given that row does not fail: Python counts the
    row from the end, so the piece replaces the one in the bottom cell of the
    column and nothing else changes. *)
Theorem drop_piece_in_full_column (board : loc) (col piece : Z) (h : heap)
    (b : ndarray) :
  h !! board = Some b → well_shaped b = true → 0 ≤ col < BOARD_WIDTH →
  (∀ r, 0 ≤ r < BOARD_HEIGHT → getitem b r col ≠ Some EMPTY) →
  ∃ b',
    (row ← call (λ b, get_next_open_row b col) board;
     drop_piece board row col piece) h
    = Ok tt (<[board := b']> h)
    ∧ getitem b' (BOARD_HEIGHT - 1) col = Some piece
    ∧ ∀ r c, 0 ≤ r < BOARD_HEIGHT → 0 ≤ c < BOARD_WIDTH →
        (r, c) ≠ (BOARD_HEIGHT - 1, col) → getitem b' r c = getitem b r c.
Proof.
  intros Hh Hb Hcol Hfull.
  assert (Hrow : Pure.get_next_open_row b col = -1).
  { apply get_next_open_row_full. intros r Hr E. apply (Hfull r Hr).
    rewrite getitem_in_range by done. by rewrite E. }
  assert (Hlast : 0 ≤ BOARD_HEIGHT - 1 < BOARD_HEIGHT) by (by vm_compute).
  destruct (setitem_in_range b (BOARD_HEIGHT - 1) col piece Hb Hlast Hcol)
    as (r0 & Hr0 & _ & Hs).
  eexists. split; [|split].
  - rewrite run_bind,
      (call_Ok _ _ _ _ _ Hh (get_next_open_row_total b Hb col Hcol)), Hrow.
    eapply drop_piece_Ok; [done|]. rewrite setitem_last_row by done.
    exact Hs.
  - rewrite getitem_in_range by
      (by apply well_shaped_insert || done).
    rewrite cell_insert by done. by rewrite !Z.eqb_refl.
  - intros r c Hr Hc Hne.
    rewrite (getitem_in_range _ r c) by
      (by apply well_shaped_insert || done).
    rewrite cell_insert, getitem_in_range by done.
    destruct (Z.eqb_spec r (BOARD_HEIGHT - 1)) as [->|];
      destruct (Z.eqb_spec c col) as [->|]; done.
Qed.

Lemma drop_piece_in_full_column_witness :
  [board_full_column] !! 0%nat = Some board_full_column
  ∧ well_shaped board_full_column = true
  ∧ 0 ≤ 3 < BOARD_WIDTH
  ∧ (∀ r, 0 ≤ r < BOARD_HEIGHT →
       getitem board_full_column r 3 ≠ Some EMPTY)
  ∧ ∃ b',
      (row ← call (λ b, get_next_open_row b 3) 0%nat;
       drop_piece 0%nat row 3 AI_PIECE) [board_full_column]
      = Ok tt (<[0%nat := b']> [board_full_column])
      ∧ getitem b' (BOARD_HEIGHT - 1) 3 = Some AI_PIECE
      ∧ ∀ r c, 0 ≤ r < BOARD_HEIGHT → 0 ≤ c < BOARD_WIDTH →
          (r, c) ≠ (BOARD_HEIGHT - 1, 3) →
          getitem b' r c = getitem board_full_column r c.
Proof.
  assert (H1 : [board_full_column] !! 0%nat = Some board_full_column)
    by reflexivity.
  assert (H2 : well_shaped board_full_column = true) by reflexivity.
  assert (H3 : 0 ≤ 3 < BOARD_WIDTH) by (by vm_compute).
  assert (H4 : ∀ r, 0 ≤ r < BOARD_HEIGHT →
                 getitem board_full_column r 3 ≠ Some EMPTY).
  { unfold BOARD_HEIGHT. intros r Hr.
    assert (r = 0 ∨ r = 1 ∨ r = 2 ∨ r = 3 ∨ r = 4 ∨ r = 5) as Hc by lia.
    repeat (destruct Hc as [->|Hc]; [by vm_compute|]). subst.
    by vm_compute. }
  exact (conj H1 (conj H2 (conj H3 (conj H4
    (drop_piece_in_full_column 0%nat 3 AI_PIECE [board_full_column]
       board_full_column H1 H2 H3 H4))))).
Defined.

(** X11: [get_valid_moves] lists, in ascending order and each once, exactly
    the columns of the board whose top cell is [EMPTY]. *)
Theorem valid_moves_ascending (b : ndarray) :
  well_shaped b = true →
  ∃ moves,
    get_valid_moves b = Some moves
    ∧ StronglySorted Z.lt moves
    ∧ ∀ col, col ∈ moves ↔
             0 ≤ col < BOARD_WIDTH ∧ getitem b 0 col = Some EMPTY.
Proof.
  intros Hb. exists (Pure.get_valid_moves b).
  split; [by apply get_valid_moves_total|].
  split; [apply valid_moves_sorted|].
  intros col. rewrite elem_of_valid_moves. split.
  - intros [Hc Ht]. split; [done|].
    rewrite getitem_in_range by (done || unfold BOARD_HEIGHT; lia).
    by rewrite Ht.
  - intros [Hc Ht]. split; [done|].
    rewrite getitem_in_range in Ht by (done || unfold BOARD_HEIGHT; lia).
    by injection Ht.
Qed.

Lemma valid_moves_ascending_witness :
  well_shaped board_full_column = true
  ∧ ∃ moves,
      get_valid_moves board_full_column = Some moves
      ∧ StronglySorted Z.lt moves
      ∧ ∀ col, col ∈ moves ↔
               0 ≤ col < BOARD_WIDTH
               ∧ getitem board_full_column 0 col = Some EMPTY.
Proof.
  assert (H1 : well_shaped board_full_column = true) by reflexivity.
  exact (conj H1 (valid_moves_ascending board_full_column H1)).
Defined.

(** X12: on a window of four cells [evaluate_window] takes one of the five
    values 100, 5, 2, 0 and -4 (the penalty for the opponent's three never
    combines with a bonus), and it is 100 exactly when all four cells hold
    the piece. *)
Theorem evaluate_window_values (window : list Z) (piece : Z) :
  length window = 4%nat →
  evaluate_window window piece ∈ [100; 5; 2; 0; -4]
  ∧ (evaluate_window window piece = 100
     ↔ Forall (λ x, x = piece) window).
Proof.
  intros Hlen. rewrite <- count_all, Hlen.
  unfold evaluate_window.
  set (opp := if piece =? AI_PIECE then PLAYER_PIECE else AI_PIECE).
  assert (Hopp : piece ≠ opp).
  { subst opp. destruct (Z.eqb_spec piece AI_PIECE) as [->|]; done. }
  pose proof (count_pair window piece opp Hopp) as Hpair.
  rewrite Hlen in Hpair.
  pose proof (count_nonneg window opp) as Hn.
  destruct (Z.eqb_spec (count window piece) 4) as [E4|N4];
    destruct (Z.eqb_spec (count window piece) 3) as [E3|N3];
    destruct (Z.eqb_spec (count window piece) 2) as [E2|N2];
    destruct (Z.eqb_spec (count window EMPTY) 1) as [F1|G1];
    destruct (Z.eqb_spec (count window EMPTY) 2) as [F2|G2];
    destruct (Z.eqb_spec (count window opp) 3) as [O3|P3];
    cbn [andb]; try lia;
    (split; [vm_compute; repeat constructor|]);
    change (Z.of_nat 4) with 4; lia.
Qed.

Lemma evaluate_window_values_witness :
  length [2; 2; 2; 2] = 4%nat
  ∧ evaluate_window [2; 2; 2; 2] AI_PIECE ∈ [100; 5; 2; 0; -4]
  ∧ (evaluate_window [2; 2; 2; 2] AI_PIECE = 100
     ↔ Forall (λ x, x = AI_PIECE) [2; 2; 2; 2]).
Proof.
  assert (H1 : length [2; 2; 2; 2] = 4%nat) by reflexivity.
  exact (conj H1 (evaluate_window_values [2; 2; 2; 2] AI_PIECE H1)).
Defined.

(** X13: [minimax], for either side and any window, returns a finite score
    between the two sentinels -100000000 and 100000000, never an infinity;
    its column is [None] exactly at the base case (depth 0 or a terminal
    board) and otherwise a column of the board whose top cell is [EMPTY]. *)
Theorem minimax_column_and_score (fuel : nat) (board : loc) (depth : Z)
    (alpha beta : score) (maximizing_player : bool) (h : heap) (b : ndarray) :
  h !! board = Some b → well_shaped b = true → enough_fuel fuel depth b →
  ∃ column value h',
    minimax fuel board depth alpha beta maximizing_player h
    = Ok (column, Fin value) h'
    ∧ -100000000 ≤ value ≤ 100000000
    ∧ (column = None ↔ depth = 0 ∨ is_terminal_node b = Some true)
    ∧ ∀ c, column = Some c →
           0 ≤ c < BOARD_WIDTH ∧ getitem b 0 c = Some EMPTY.
Proof.
  intros Hh Hb Hf.
  destruct (pure_minimax_terminates fuel b depth alpha beta maximizing_player
              Hb Hf) as [[column w] Hr].
  destruct (pure_minimax_bounded _ _ _ _ _ _ _ Hr) as (value & Hw & Hv).
  simpl in Hw. subst w.
  pose proof (minimax_refines fuel board b depth alpha beta maximizing_player
                h Hh Hb) as Hm.
  rewrite Hr in Hm. destruct Hm as (h' & Hm & _).
  exists column, value, h'. split; [done|]. split; [done|].
  apply pure_minimax_column_any in Hr. simpl in Hr.
  rewrite is_terminal_node_total by done.
  destruct (Z.eqb_spec depth 0) as [Hd|Hd]; simpl in Hr.
  { subst column. split; [split; auto|done]. }
  destruct (Pure.is_terminal_node b).
  { subst column. split; [split; auto|done]. }
  destruct Hr as (c & -> & Hc). split.
  - split; [done|]. by intros [?|[=]].
  - intros c' [= <-]. apply elem_of_valid_moves in Hc as [Hc Ht].
    split; [done|].
    rewrite getitem_in_range by (done || unfold BOARD_HEIGHT; lia).
    by rewrite Ht.
Qed.

Lemma minimax_column_and_score_witness :
  [board_three] !! 0%nat = Some board_three
  ∧ well_shaped board_three = true
  ∧ enough_fuel 3 2 board_three
  ∧ ∃ column value h',
      minimax 3 0%nat 2 (Fin 0) (Fin 10) false [board_three]
      = Ok (column, Fin value) h'
      ∧ -100000000 ≤ value ≤ 100000000
      ∧ (column = None ↔ 2 = 0 ∨ is_terminal_node board_three = Some true)
      ∧ ∀ c, column = Some c →
             0 ≤ c < BOARD_WIDTH ∧ getitem board_three 0 c = Some EMPTY.
Proof.
  assert (H1 : [board_three] !! 0%nat = Some board_three) by reflexivity.
  assert (H2 : well_shaped board_three = true) by reflexivity.
  assert (H3 : enough_fuel 3 2 board_three) by (left; lia).
  exact (conj H1 (conj H2 (conj H3
    (minimax_column_and_score 3 0%nat 2 (Fin 0) (Fin 10) false [board_three]
       board_three H1 H2 H3)))).
Defined.

(** X14: with a window [alpha < beta] that is narrower than the full one,
    the score [minimax] returns still bounds the exact value of the position
    (the score of the search without pruning): a score below [beta] is at
    least the exact value, a score above [alpha] at most the exact value,
    and a score strictly inside the window is the exact value. *)
Theorem minimax_window_bounds (fuel : nat) (board : loc) (depth : Z)
    (alpha beta : score) (maximizing_player : bool) (h : heap) (b : ndarray) :
  h !! board = Some b → well_shaped b = true → enough_fuel fuel depth b →
  score_ltb alpha beta = true →
  ∃ column w h' exact,
    minimax fuel board depth alpha beta maximizing_player h
    = Ok (column, w) h'
    ∧ exhaustive_minimax fuel b depth maximizing_player = Some exact
    ∧ (score_ltb w beta = true → score_ltb w exact.2 = false)
    ∧ (score_ltb alpha w = true → score_ltb exact.2 w = false)
    ∧ (score_ltb alpha w = true → score_ltb w beta = true → w = exact.2).
Proof.
  intros Hh Hb Hf Hab.
  destruct (exhaustive_terminates fuel b depth maximizing_player Hb Hf)
    as [exact Hex].
  destruct (alphabeta_fail_soft fuel b depth alpha beta maximizing_player
              exact Hab Hex) as (c & w & Hp & [U L]).
  pose proof (minimax_refines fuel board b depth alpha beta maximizing_player
                h Hh Hb) as Hm.
  rewrite Hp in Hm. destruct Hm as (h' & Hm & _).
  exists c, w, h', exact. split; [done|]. split; [done|].
  split; [exact U|]. split; [exact L|].
  intros Ha Hbe. apply sle_antisym; [by apply L|by apply U].
Qed.

Lemma minimax_window_bounds_witness :
  [board_three] !! 0%nat = Some board_three
  ∧ well_shaped board_three = true
  ∧ enough_fuel 3 2 board_three
  ∧ score_ltb (Fin 0) (Fin 10) = true
  ∧ ∃ column w h' exact,
      minimax 3 0%nat 2 (Fin 0) (Fin 10) true [board_three]
      = Ok (column, w) h'
      ∧ exhaustive_minimax 3 board_three 2 true = Some exact
      ∧ (score_ltb w (Fin 10) = true → score_ltb w exact.2 = false)
      ∧ (score_ltb (Fin 0) w = true → score_ltb exact.2 w = false)
      ∧ (score_ltb (Fin 0) w = true → score_ltb w (Fin 10) = true →
         w = exact.2).
Proof.
  assert (H1 : [board_three] !! 0%nat = Some board_three) by reflexivity.
  assert (H2 : well_shaped board_three = true) by reflexivity.
  assert (H3 : enough_fuel 3 2 board_three) by (left; lia).
  assert (H4 : score_ltb (Fin 0) (Fin 10) = true) by reflexivity.
  exact (conj H1 (conj H2 (conj H3 (conj H4
    (minimax_window_bounds 3 0%nat 2 (Fin 0) (Fin 10) true [board_three]
       board_three H1 H2 H3 H4))))).
Defined.

(** X15: the tie-break of [get_best_move]: on a board that is not terminal
    and with a depth other than 0, the column returned is the first, in
    ascending order, among the legal columns whose resulting position has
    the greatest exact value (the score of the search without pruning, one
    level down, the player to move). *)
Theorem best_move_is_first_best (fuel : nat) (depth : Z) (game_board : loc)
    (h : heap) (b : ndarray) :
  h !! game_board = Some b → well_shaped b = true →
  is_terminal_node b = Some false → depth ≠ 0 →
  enough_fuel (S fuel) depth b →
  let value_after col :=
    snd <$> exhaustive_minimax fuel (Pure.apply_move b col AI_PIECE)
              (depth - 1) false in
  ∃ col best h',
    get_best_move (S fuel) depth game_board h = Ok (Some col) h'
    ∧ col ∈ Pure.get_valid_moves b
    ∧ value_after col = Some (Fin best)
    ∧ ∀ c, c ∈ Pure.get_valid_moves b →
        ∃ v, value_after c = Some (Fin v) ∧ v ≤ best ∧ (v = best → col ≤ c).
Proof.
  intros Hh Hb Hterm Hd Hf value_after.
  rewrite is_terminal_node_total in Hterm by done. injection Hterm as Hterm.
  destruct (root_first_best fuel depth game_board h b Hh Hb Hterm Hd Hf)
    as (col & best & h' & Hm & Hcol & Hbest & Hall).
  exists col, best, h'. split; [done|]. split; [done|]. split; [done|].
  intros c Hc. destruct (Hall c Hc) as (v & Hv & Hle & Hfirst).
  exists v. split; [done|]. split; [lia|done].
Qed.

Lemma best_move_is_first_best_witness :
  [board_three] !! 0%nat = Some board_three
  ∧ well_shaped board_three = true
  ∧ is_terminal_node board_three = Some false
  ∧ 1 ≠ 0
  ∧ enough_fuel 2 1 board_three
  ∧ let value_after col :=
      snd <$> exhaustive_minimax 1 (Pure.apply_move board_three col AI_PIECE)
                (1 - 1) false in
    ∃ col best h',
      get_best_move 2 1 0%nat [board_three] = Ok (Some col) h'
      ∧ col ∈ Pure.get_valid_moves board_three
      ∧ value_after col = Some (Fin best)
      ∧ ∀ c, c ∈ Pure.get_valid_moves board_three →
          ∃ v, value_after c = Some (Fin v) ∧ v ≤ best
               ∧ (v = best → col ≤ c).
Proof.
  assert (H1 : [board_three] !! 0%nat = Some board_three) by reflexivity.
  assert (H2 : well_shaped board_three = true) by reflexivity.
  assert (H3 : is_terminal_node board_three = Some false) by reflexivity.
  assert (H4 : 1 ≠ 0) by lia.
  assert (H5 : enough_fuel 2 1 board_three) by (left; lia).
  exact (conj H1 (conj H2 (conj H3 (conj H4 (conj H5
    (best_move_is_first_best 1 1 0%nat [board_three] board_three
       H1 H2 H3 H4 H5)))))).
Defined.



(** X17: the game object and the engine agree on what is legal:
    [is_valid_location(col)] of the game is true exactly for the columns
    that [get_valid_moves] of the engine lists for the game's board, and
    [is_board_full] is true exactly when that list is empty. *)
Theorem game_and_engine_agree_on_moves (self : Game.Connect4) (h : heap)
    (b : ndarray) :
  h !! Game.board self = Some b → well_shaped b = true →
  ∃ moves full,
    get_valid_moves b = Some moves
    ∧ Game.is_board_full self h = Ok full h
    ∧ (full = true ↔ moves = [])
    ∧ ∀ col, 0 ≤ col < BOARD_WIDTH →
        ∃ valid, Game.is_valid_location self col h = Ok valid h
                 ∧ (valid = true ↔ col ∈ moves).
Proof.
  intros Hh Hb. exists (Pure.get_valid_moves b), (Pure.is_full b).
  split; [by apply get_valid_moves_total|]. split.
  { unfold Game.is_board_full. eapply call_Ok; [done|].
    by apply is_board_full_total. }
  split.
  - unfold Pure.is_full. rewrite forallb_forall. split.
    + intros Hfull.
      destruct (Pure.get_valid_moves b) as [|c rest] eqn:Hm; [done|].
      assert (Hc : c ∈ Pure.get_valid_moves b)
        by (rewrite Hm; apply list_elem_of_here).
      apply elem_of_valid_moves in Hc as [Hc Ht].
      specialize (Hfull c). rewrite <- list_elem_of_In, elem_of_range in Hfull.
      specialize (Hfull Hc). rewrite Ht in Hfull. done.
    + intros Hm c Hc%list_elem_of_In%elem_of_range.
      destruct (Z.eqb_spec (Pure.cell b 0 c) EMPTY) as [E|]; [|done].
      assert (Hin : c ∈ Pure.get_valid_moves b)
        by (by apply elem_of_valid_moves).
      rewrite Hm in Hin. by apply elem_of_nil in Hin.
  - intros col Hcol. exists (Pure.cell b 0 col =? EMPTY).
    split; [by apply is_valid_location_Ok|].
    rewrite elem_of_valid_moves, Z.eqb_eq. tauto.
Qed.

Lemma game_and_engine_agree_on_moves_witness :
  [board_full_column] !! Game.board game_start = Some board_full_column
  ∧ well_shaped board_full_column = true
  ∧ ∃ moves full,
      get_valid_moves board_full_column = Some moves
      ∧ Game.is_board_full game_start [board_full_column]
        = Ok full [board_full_column]
      ∧ (full = true ↔ moves = [])
      ∧ ∀ col, 0 ≤ col < BOARD_WIDTH →
          ∃ valid,
            Game.is_valid_location game_start col [board_full_column]
            = Ok valid [board_full_column]
            ∧ (valid = true ↔ col ∈ moves).
Proof.
  assert (H1 : [board_full_column] !! Game.board game_start
               = Some board_full_column) by reflexivity.
  assert (H2 : well_shaped board_full_column = true) by reflexivity.
  exact (conj H1 (conj H2
    (game_and_engine_agree_on_moves game_start [board_full_column]
       board_full_column H1 H2))).
Defined.

(** X18: the engine leaves the player an immediate win only when it has no
    choice: on a board that is not terminal and with a depth other than 0
    and 1, if the position after the column returned is not terminal and lets
    the player complete four in a row with the next move, then every legal
    column has the exact value -100000000, the player's win. *)
Theorem no_avoidable_immediate_loss (fuel : nat) (depth : Z)
    (game_board : loc) (h : heap) (b : ndarray) :
  h !! game_board = Some b → well_shaped b = true →
  is_terminal_node b = Some false → depth ≠ 0 → depth ≠ 1 →
  enough_fuel (S fuel) depth b →
  ∃ col h',
    get_best_move (S fuel) depth game_board h = Ok (Some col) h'
    ∧ col ∈ Pure.get_valid_moves b
    ∧ let b1 := Pure.apply_move b col AI_PIECE in
      Pure.is_terminal_node b1 = false →
      (∃ reply, reply ∈ Pure.get_valid_moves b1
                ∧ Pure.winning_move (Pure.apply_move b1 reply PLAYER_PIECE)
                    PLAYER_PIECE = true) →
      ∀ c, c ∈ Pure.get_valid_moves b →
           snd <$> exhaustive_minimax fuel (Pure.apply_move b c AI_PIECE)
                     (depth - 1) false
           = Some (Fin (-100000000)).
Proof.
  intros Hh Hb Hterm Hd Hd1 Hf.
  rewrite is_terminal_node_total in Hterm by done. injection Hterm as Hterm.
  destruct (root_first_best fuel depth game_board h b Hh Hb Hterm Hd Hf)
    as (col & best & h' & Hm & Hcol & Hbest & Hall).
  exists col, h'. split; [done|]. split; [done|].
  intros b1 Hterm1 (reply & Hreply & Hwin) c Hc.
  assert (Hlost : best ≤ -100000000).
  { revert Hbest. fold b1.
    destruct (exhaustive_minimax fuel b1 (depth - 1) false) as [r1|] eqn:H1;
      [|done].
    intros [= E].
    pose proof (exhaustive_reply_wins fuel b1 (depth - 1) reply r1) as Hle.
    rewrite E in Hle. unfold sle in Hle. simpl in Hle.
    apply Z.ltb_ge. apply Hle; try done; [|lia].
    by apply (apply_move_cells b col AI_PIECE). }
  destruct (Hall c Hc) as (v & Hv & Hle & _).
  rewrite Hv. do 2 f_equal. lia.
Qed.

Lemma no_avoidable_immediate_loss_witness :
  [board_threat] !! 0%nat = Some board_threat
  ∧ well_shaped board_threat = true
  ∧ is_terminal_node board_threat = Some false
  ∧ 2 ≠ 0 ∧ 2 ≠ 1
  ∧ enough_fuel 3 2 board_threat
  ∧ ∃ col h',
      get_best_move 3 2 0%nat [board_threat] = Ok (Some col) h'
      ∧ col ∈ Pure.get_valid_moves board_threat
      ∧ let b1 := Pure.apply_move board_threat col AI_PIECE in
        Pure.is_terminal_node b1 = false →
        (∃ reply, reply ∈ Pure.get_valid_moves b1
                  ∧ Pure.winning_move
                      (Pure.apply_move b1 reply PLAYER_PIECE) PLAYER_PIECE
                    = true) →
        ∀ c, c ∈ Pure.get_valid_moves board_threat →
             snd <$> exhaustive_minimax 2
                       (Pure.apply_move board_threat c AI_PIECE) (2 - 1) false
             = Some (Fin (-100000000)).
Proof.
  assert (H1 : [board_threat] !! 0%nat = Some board_threat) by reflexivity.
  assert (H2 : well_shaped board_threat = true) by reflexivity.
  assert (H3 : is_terminal_node board_threat = Some false) by reflexivity.
  assert (H4 : 2 ≠ 0) by lia.
  assert (H5 : 2 ≠ 1) by lia.
  assert (H6 : enough_fuel 3 2 board_threat) by (left; lia).
  exact (conj H1 (conj H2 (conj H3 (conj H4 (conj H5 (conj H6
    (no_avoidable_immediate_loss 2 2 0%nat [board_threat] board_threat
       H1 H2 H3 H4 H5 H6))))))).
Defined.

(** With two levels of search the engine blocks the player's three in the
    bottom row. *)
Example engine_blocks_the_threat :
  ∃ h', get_best_move 3 2 0%nat [board_threat] = Ok (Some 3) h'.
Proof. eexists. vm_compute. reflexivity. Qed.

(** X19: the evaluation does not tell left from right: on the board with
    every row reversed [score_position] returns the same score, and
    [winning_move] and [is_terminal_node] the same answers. *)
Theorem evaluation_is_mirror_symmetric (b : ndarray) (piece : Z) :
  well_shaped b = true →
  score_position (mirror b) piece = score_position b piece
  ∧ winning_move (mirror b) piece = winning_move b piece
  ∧ is_terminal_node (mirror b) = is_terminal_node b.
Proof.
  intros Hb. pose proof (well_shaped_mirror b Hb) as Hm.
  rewrite !score_position_total, !winning_move_total,
    !is_terminal_node_total by done.
  rewrite score_position_mirror, winning_move_mirror by done.
  unfold Pure.is_terminal_node.
  by rewrite !winning_move_mirror, is_full_mirror by done.
Qed.

Lemma evaluation_is_mirror_symmetric_witness :
  well_shaped board_three = true
  ∧ score_position (mirror board_three) AI_PIECE
    = score_position board_three AI_PIECE
  ∧ winning_move (mirror board_three) AI_PIECE
    = winning_move board_three AI_PIECE
  ∧ is_terminal_node (mirror board_three) = is_terminal_node board_three.
Proof.
  assert (H1 : well_shaped board_three = true) by reflexivity.
  exact (conj H1 (evaluation_is_mirror_symmetric board_three AI_PIECE H1)).
Defined.
